(** * SQL tools function app: the SQL safety pipeline and the schema catalog

    A shallow embedding of [src/lib/sqlSafety.js], [src/lib/db.js],
    [src/lib/schemaHelpers.js] and of the two HTTP handlers
    [src/functions/sqlQuery.js] and [src/functions/sqlSchema.js].

    JavaScript strings are sequences of UTF-16 code units: a string is a
    [list N], one number per code unit.  Regular expressions are kept as
    syntax and run by a backtracking matcher that follows the order in which
    the ECMAScript matcher tries alternatives. *)

From Stdlib Require Import List NArith ZArith Lia Bool String Ascii.
From Stdlib Require Import Floats.SpecFloat DecimalPos.
From stdpp Require Import base list gmap.
Import ListNotations.

Local Open Scope N_scope.

(** ** Strings *)

Abbreviation char := N (only parsing).
Abbreviation str := (list N) (only parsing).

(** An ASCII literal of the source, as code units. *)
Definition lit (s : string) : str := List.map N_of_ascii (list_ascii_of_string s).

Definition in_range (lo hi c : char) : bool := (lo <=? c) && (c <=? hi).

(** [\s], and the characters [String.prototype.trim] strips: WhiteSpace and
    LineTerminator (TAB LF VT FF CR SP NBSP, the Zs category, LS, PS, BOM). *)
Definition is_space (c : char) : bool :=
  in_range 9 13 c || (c =? 32) || (c =? 160) || (c =? 5760) ||
  in_range 8192 8202 c || in_range 8232 8233 c || (c =? 8239) ||
  (c =? 8287) || (c =? 12288) || (c =? 65279).

Definition is_digit (c : char) : bool := in_range 48 57 c.
Definition is_upper (c : char) : bool := in_range 65 90 c.
Definition is_lower (c : char) : bool := in_range 97 122 c.

(** [[A-Za-z_]] *)
Definition is_ident_start (c : char) : bool := is_upper c || is_lower c || (c =? 95).

(** [\w], which is also what [\b] looks at: [[A-Za-z0-9_]]. *)
Definition is_word (c : char) : bool := is_ident_start c || is_digit c.

(** Canonicalize of the [i] flag (no [u] flag): the upper-case form, except
    that a code unit of 128 or more never maps below 128.  Every literal
    character of the source's patterns is ASCII, so a unit of 128 or more
    can be left as it is: it equals no canonical ASCII character either way. *)
Definition canon (c : char) : char := if is_lower c then c - 32 else c.

Fixpoint drop_spaces (s : str) : str :=
  match s with
  | c :: s' => if is_space c then drop_spaces s' else s
  | [] => []
  end.

(** [String.prototype.trim] *)
Definition trim (s : str) : str := rev (drop_spaces (rev (drop_spaces s))).

(** ** Regular expressions *)

(** The constructs the source's patterns use.  A quantifier is only ever
    applied to a one-character class ([\s+], [\s*], [\w*]), so [Star] takes
    the class.  Each pattern whose capture is read has one group, [$1].
    The classes of the patterns ([\s], [\d], [\w], [[A-Za-z_]]) match the
    same characters with and without the [i] flag: no other character has an
    upper-case form in [\s] or [\d], and the one pattern with [\w] and
    letters has no [i] flag. *)
Inductive regex : Type :=
| Empty
| Char (c : char)
| Class (p : char -> bool)
| Seq (r1 r2 : regex)
| Alt (r1 r2 : regex)
| Star (p : char -> bool)
| Group (r : regex)
| Bol
| WordBoundary.

Definition Plus (p : char -> bool) : regex := Seq (Class p) (Star p).

(** A run of literal characters. *)
Fixpoint word (w : str) : regex :=
  match w with
  | [] => Empty
  | [c] => Char c
  | c :: w' => Seq (Char c) (word w')
  end.

(** [r1|r2|...|rn] *)
Fixpoint alts (rs : list regex) : regex :=
  match rs with
  | [] => Class (fun _ => false)
  | [r] => r
  | r :: rs' => Alt r (alts rs')
  end.

(** A position of the matcher in the input: the text before it (nearest
    character first), the text after it, and capture 1. *)
Record mstate : Type := MState { before : str; after : str; cap : option str }.

Definition advance (st : mstate) : mstate :=
  match after st with
  | x :: a => MState (x :: before st) a (cap st)
  | [] => st
  end.

Definition starts_with_word (s : str) : bool :=
  match s with x :: _ => is_word x | [] => false end.
Definition ends_with_word (s : str) : bool := starts_with_word (rev s).

Definition word_before (st : mstate) : bool := starts_with_word (before st).
Definition word_after (st : mstate) : bool := starts_with_word (after st).

(** The text between two positions of one input, [st] before [st']. *)
Definition consumed (st st' : mstate) : str :=
  rev (firstn (length (before st') - length (before st)) (before st')).

Definition chr_eq (icase : bool) (c x : char) : bool :=
  if icase then canon c =? canon x else c =? x.

(** Greedy [p*]: one more character first, the continuation on giving up. *)
Fixpoint star_m (p : char -> bool) (b a : str) (c : option str)
    (k : mstate -> option mstate) : option mstate :=
  match a with
  | x :: a' =>
      if p x then
        match star_m p (x :: b) a' c k with
        | Some e => Some e
        | None => k (MState b a c)
        end
      else k (MState b a c)
  | [] => k (MState b a c)
  end.

(** The backtracking matcher: [k] is what must still match after [r]. *)
Fixpoint m (icase : bool) (r : regex) (st : mstate)
    (k : mstate -> option mstate) : option mstate :=
  match r with
  | Empty => k st
  | Char c =>
      match after st with
      | x :: _ => if chr_eq icase c x then k (advance st) else None
      | [] => None
      end
  | Class p =>
      match after st with
      | x :: _ => if p x then k (advance st) else None
      | [] => None
      end
  | Seq r1 r2 => m icase r1 st (fun st' => m icase r2 st' k)
  | Alt r1 r2 =>
      match m icase r1 st k with
      | Some e => Some e
      | None => m icase r2 st k
      end
  | Star p => star_m p (before st) (after st) (cap st) k
  | Group r =>
      m icase r st (fun st' =>
        k (MState (before st') (after st') (Some (consumed st st'))))
  | Bol => match before st with [] => k st | _ :: _ => None end
  | WordBoundary => if xorb (word_before st) (word_after st) then k st else None
  end.

(** One attempt at one position. *)
Definition match_at (icase : bool) (r : regex) (st : mstate) : option mstate :=
  m icase r st Some.

(** The first position, from [b]/[a] on, at which the pattern matches. *)
Fixpoint search (icase : bool) (r : regex) (b a : str) : option (mstate * mstate) :=
  match match_at icase r (MState b a None) with
  | Some e => Some (MState b a None, e)
  | None =>
      match a with
      | x :: a' => search icase r (x :: b) a'
      | [] => None
      end
  end.

(** [RegExp.prototype.test] of a pattern without the [g] flag. *)
Definition test (icase : bool) (r : regex) (s : str) : bool :=
  match search icase r [] s with Some _ => true | None => false end.

(** [String.prototype.replace] with a pattern without the [g] flag: the
    first match is replaced by the expansion of the template, given here as
    a function of capture 1 (an unset capture expands to the empty string). *)
Definition replace_first (icase : bool) (r : regex) (tmpl : str -> str) (s : str) : str :=
  match search icase r [] s with
  | Some (st, e) =>
      rev (before st) ++ tmpl (match cap e with Some c => c | None => [] end) ++ after e
  | None => s
  end.

(** [String.prototype.replace] with a [g] pattern: matches are replaced left
    to right, each search resuming where the last match ended, or one
    character further when that match was empty.  [fuel] bounds the number
    of steps; [replace_all] gives one step per character and one more. *)
Fixpoint replace_all_from (icase : bool) (r : regex) (tmpl : str -> str)
    (fuel : nat) (b a : str) : str :=
  match fuel with
  | O => a
  | S fuel' =>
      match match_at icase r (MState b a None) with
      | Some e =>
          let out := tmpl (match cap e with Some c => c | None => [] end) in
          if (length (after e) <? length a)%nat then
            out ++ replace_all_from icase r tmpl fuel' (before e) (after e)
          else
            match a with
            | x :: a' => out ++ x :: replace_all_from icase r tmpl fuel' (x :: b) a'
            | [] => out
            end
      | None =>
          match a with
          | x :: a' => x :: replace_all_from icase r tmpl fuel' (x :: b) a'
          | [] => []
          end
      end
  end.

Definition replace_all (icase : bool) (r : regex) (tmpl : str -> str) (s : str) : str :=
  replace_all_from icase r tmpl (S (length s)) [] s.

(** ** sqlSafety.js *)

(** A thrown [Error], with its message; otherwise the returned value. *)
Inductive result (A : Type) : Type :=
| Ok (a : A)
| Throw (msg : str).
Arguments Ok {A} a.
Arguments Throw {A} msg.

(** [/^select\s/i] *)
Definition re_select_only : regex :=
  Seq Bol (Seq (word (lit "select")) (Class is_space)).

Definition banned_keywords : list str :=
  List.map lit ["delete"; "insert"; "update"; "merge"; "alter"; "drop"; "create";
                "grant"; "revoke"; "truncate"; "exec"; "execute"; "xp_"; "sp_"]%string.

(** [/\b(delete|insert|...|xp_|sp_)\b|;|--|\/\*/i] *)
Definition re_banned : regex :=
  alts [ Seq WordBoundary (Seq (Group (alts (List.map word banned_keywords))) WordBoundary);
         Char 59;
         word (lit "--");
         word (lit "/*") ].

Definition msg_only_select : str := lit "Only SELECT statements are allowed.".
Definition msg_prohibited : str := lit "Prohibited keywords or comment markers found.".

Definition validateSelectOnly (sql : str) : result str :=
  let s := trim sql in
  if negb (test true re_select_only s) then Throw msg_only_select
  else if test true re_banned s then Throw msg_prohibited
  else Ok s.


(** A JavaScript number as far as the row limit goes: [parseInt] gives an
    integer or [NaN], and [Math.min]/[Math.max] keep it so. *)
Inductive num : Type :=
| NaN
| Int (z : Z).

Fixpoint uint_digits (u : Decimal.uint) : str :=
  match u with
  | Decimal.Nil => []
  | Decimal.D0 u' => 48 :: uint_digits u'
  | Decimal.D1 u' => 49 :: uint_digits u'
  | Decimal.D2 u' => 50 :: uint_digits u'
  | Decimal.D3 u' => 51 :: uint_digits u'
  | Decimal.D4 u' => 52 :: uint_digits u'
  | Decimal.D5 u' => 53 :: uint_digits u'
  | Decimal.D6 u' => 54 :: uint_digits u'
  | Decimal.D7 u' => 55 :: uint_digits u'
  | Decimal.D8 u' => 56 :: uint_digits u'
  | Decimal.D9 u' => 57 :: uint_digits u'
  end.

(** Decimal digits of an integer, as [Number::toString] prints integers of
    magnitude below 10^21. *)
Definition int_to_string (z : Z) : str :=
  match z with
  | Z0 => [48]
  | Zpos p => uint_digits (Pos.to_uint p)
  | Zneg p => 45 :: uint_digits (Pos.to_uint p)
  end.

(** The text a template literal inserts for a number. *)
Definition num_to_string (n : num) : str :=
  match n with
  | NaN => lit "NaN"
  | Int z => int_to_string z
  end.

(** [select\s+top\s*(\(|\d)] *)
Definition re_select_top : regex :=
  Seq (word (lit "select"))
    (Seq (Plus is_space)
      (Seq (word (lit "top"))
        (Seq (Star is_space)
          (Group (Alt (Char 40) (Class is_digit)))))).

(** [/\bselect\s+top\s*(\(|\d)/i] *)
Definition re_has_top : regex := Seq WordBoundary re_select_top.

(** [/^(\s*select\s+)/i] *)
Definition re_leading_select : regex :=
  Seq Bol (Group (Seq (Star is_space) (Seq (word (lit "select")) (Plus is_space)))).

(** The template [`$1TOP(${n}) `]. *)
Definition top_template (n : num) (c1 : str) : str :=
  c1 ++ lit "TOP(" ++ num_to_string n ++ lit ") ".

Definition injectTopLimit (sql : str) (n : num) : str :=
  let hasTop := test true re_has_top sql in
  if hasTop then sql
  else replace_first true re_leading_select (top_template n) sql.

(** [/:(I)/g], where the group [I] is [[A-Za-z_]] followed by [\w*] *)
Definition re_named_param : regex :=
  Seq (Char 58) (Group (Seq (Class is_ident_start) (Star is_word))).

(** The template ['@$1']. *)
Definition at_template (c1 : str) : str := 64 :: c1.

Definition toTediousNamedParams (sql : str) : str :=
  replace_all false re_named_param at_template sql.

(** *** What the specification says of these functions *)

(** Equal up to the case of ASCII letters. *)
Definition ci_eq (w kw : str) : Prop := List.map canon w = List.map canon kw.

(** [w] occurs in [sql] with no word character right before or right after. *)
Definition whole_word_in (w sql : str) : Prop :=
  exists pre post, sql = pre ++ w ++ post /\
                   ends_with_word pre = false /\ starts_with_word post = false.

Definition occurs_in (w sql : str) : Prop := exists pre post, sql = pre ++ w ++ post.

(** A banned keyword as a whole word in any case, a semicolon, a line
    comment marker or a block comment marker. *)
Definition contains_banned_token (sql : str) : Prop :=
  (exists kw w, In kw banned_keywords /\ ci_eq w kw /\ whole_word_in w sql) \/
  In 59 sql \/ occurs_in (lit "--") sql \/ occurs_in (lit "/*") sql.

(** The text starts with the SELECT keyword at a word boundary. *)
Definition starts_with_select_wb (s : str) : Prop :=
  exists w rest, s = w ++ rest /\ ci_eq w (lit "select") /\ starts_with_word rest = false.

(** The text starts with the SELECT keyword followed by a whitespace character. *)
Definition starts_with_select_ws (s : str) : Prop :=
  exists w c rest, s = w ++ c :: rest /\ ci_eq w (lit "select") /\ is_space c = true.

(** [/^\s*select\s+top\s*(\(|\d)/i]: a row-limiting clause, parenthesized
    or bare numeric, directly after the leading SELECT keyword. *)
Definition re_leading_top : regex := Seq Bol (Seq (Star is_space) re_select_top).

Definition has_leading_top (s : str) : bool := test true re_leading_top s.

(** A row-limiting clause, as the specification words it, read off the
    text alone: the TOP keyword (any case), then optional whitespace, then
    an opening parenthesis or a digit. *)
Definition top_clause_here (s : str) : bool :=
  match s with
  | t :: o :: p :: rest =>
      (canon t =? 84) && (canon o =? 79) && (canon p =? 80) &&
      match drop_spaces rest with
      | c :: _ => (c =? 40) || is_digit c
      | [] => false
      end
  | _ => false
  end.

(** The row-limiting clauses of a text, wherever they stand (after SELECT
    or not, nested or not): the positions where a TOP keyword that starts a
    word opens such a clause.  [prev_word] tells whether the character
    before the text is a word character. *)
Fixpoint count_row_limits_from (prev_word : bool) (s : str) : nat :=
  match s with
  | [] => 0
  | c :: s' =>
      ((if negb prev_word && top_clause_here s then 1 else 0) +
       count_row_limits_from (is_word c) s')%nat
  end.

Definition count_row_limits (s : str) : nat := count_row_limits_from false s.

(** Character by character: a colon right before an identifier start
    becomes an at sign, every other character stays. *)
Definition starts_with_ident (s : str) : bool :=
  match s with x :: _ => is_ident_start x | [] => false end.

Fixpoint colons_to_ats (s : str) : str :=
  match s with
  | c :: s' =>
      (if (c =? 58) && starts_with_ident s' then 64 else c) :: colons_to_ats s'
  | [] => []
  end.

(** The text reads SELECT, whitespace, TOP, optional whitespace, then an
    opening parenthesis or a digit (any case for the two keywords). *)
Definition select_top_prefix (a : str) : Prop :=
  exists kw x ws t ws2 c0 rest,
    a = kw ++ x :: ws ++ t ++ ws2 ++ c0 :: rest /\
    ci_eq kw (lit "select") /\ is_space x = true /\
    Forall (fun c => is_space c = true) ws /\ ci_eq t (lit "top") /\
    Forall (fun c => is_space c = true) ws2 /\
    (chr_eq true 40 c0 = true \/ is_digit c0 = true).

(** ** sqlQuery.js: the effective row limit *)

(** A value read from a parsed JSON body.  A number is modelled when it is
    integral and below 10^21 in magnitude, where [Number::toString] prints
    plain decimal digits; arrays and objects are left out. *)
Inductive json : Type :=
| JUndefined
| JNull
| JBool (b : bool)
| JNumber (z : Z)
| JString (s : str).

(** ToBoolean *)
Definition truthy (v : json) : bool :=
  match v with
  | JUndefined | JNull => false
  | JBool b => b
  | JNumber z => negb (z =? 0)%Z
  | JString s => match s with [] => false | _ :: _ => true end
  end.

(** ToString *)
Definition json_to_string (v : json) : str :=
  match v with
  | JUndefined => lit "undefined"
  | JNull => lit "null"
  | JBool true => lit "true"
  | JBool false => lit "false"
  | JNumber z => int_to_string z
  | JString s => s
  end.

Fixpoint take_digits (s : str) : str :=
  match s with
  | c :: s' => if is_digit c then c :: take_digits s' else []
  | [] => []
  end.

Definition digits_value (ds : str) : Z :=
  fold_left (fun acc c => (10 * acc + Z.of_N (c - 48))%Z) ds 0%Z.

(** [parseInt(text, 10)]: leading whitespace, an optional sign, then the
    longest run of decimal digits; [NaN] when there is none. *)
Definition parseInt (text : str) : num :=
  let s := drop_spaces text in
  let '(negative, s) :=
    match s with
    | 45 :: t => (true, t)
    | 43 :: t => (false, t)
    | _ => (false, s)
    end in
  match take_digits s with
  | [] => NaN
  | ds => Int (if negative then - digits_value ds else digits_value ds)
  end.

Definition Math_min (a b : num) : num :=
  match a, b with
  | Int x, Int y => Int (Z.min x y)
  | _, _ => NaN
  end.

Definition Math_max (a b : num) : num :=
  match a, b with
  | Int x, Int y => Int (Z.max x y)
  | _, _ => NaN
  end.

(** [parseInt(process.env.ROW_LIMIT_DEFAULT || '200', 10)] *)
Definition ROW_LIMIT_DEFAULT (env : option str) : num :=
  parseInt (match env with
            | Some ((_ :: _) as s) => s
            | _ => lit "200"
            end).

(** [Math.max(1, Math.min(parseInt(row_limit || ROW_LIMIT_DEFAULT, 10), 5000))] *)
Definition effective_limit (default : num) (row_limit : json) : num :=
  let text := if truthy row_limit then json_to_string row_limit
              else num_to_string default in
  Math_max (Int 1) (Math_min (parseInt text) (Int 5000)).

Definition msg_sql_required : str := lit "Body.sql (string) is required.".

(** Lines 14 to 24 of the [sql-query] handler, given the [sql] and
    [row_limit] fields of the parsed body: the status and error of the early
    answers, or the statement handed to [runQuery] with the limit. *)
Definition sql_query_statement (default : num) (sql row_limit : json)
  : (N * str) + (str * num) :=
  match sql with
  | JString ((_ :: _) as text) =>
      let limit := effective_limit default row_limit in
      match validateSelectOnly text with
      | Throw msg => inl (500, msg)
      | Ok s => inr (toTediousNamedParams (injectTopLimit s limit), limit)
      end
  | _ => inl (400, msg_sql_required)
  end.

(** An integer within [1, 5000]. *)
Definition valid_limit (n : num) : Prop :=
  exists z, n = Int z /\ (1 <= z <= 5000)%Z.

(** ** db.js: binding the parameters *)

Inductive sqltype : Type :=
| SqlInt
| SqlFloat
| SqlDateTime2
| SqlBit
| SqlNVarChar (len : option N).   (* [None] is [sql.MAX] *)

Inductive jstype : Type := TUndefined | TObject | TNumber | TBoolean | TString.

Section Binding.

(** [Date] objects, and every other value of the language (arrays, plain
    objects, bigints, symbols, functions). *)
Variable date : Type.
Variable other : Type.

(** A parameter value.  A number is an IEEE 754 double. *)
Inductive jsval : Type :=
| VNull
| VUndefined
| VNumber (f : spec_float)
| VDate (d : date)
| VBoolean (b : bool)
| VString (s : str)
| VOther (o : other).

(** [typeof], as far as the loop tells the answers apart: only
    ['number'] and ['boolean'] are asked for. *)
Definition typeof (v : jsval) : jstype :=
  match v with
  | VUndefined => TUndefined
  | VNumber _ => TNumber
  | VBoolean _ => TBoolean
  | VString _ => TString
  | VNull | VDate _ | VOther _ => TObject
  end.

Definition is_number (t : jstype) : bool :=
  match t with TNumber => true | _ => false end.
Definition is_boolean (t : jstype) : bool :=
  match t with TBoolean => true | _ => false end.

(** [Number.isInteger]: a finite number with no fractional part. *)
Definition Number_isInteger (v : jsval) : bool :=
  match v with
  | VNumber (S754_zero _) => true
  | VNumber (S754_finite _ mant e) =>
      if (0 <=? e)%Z then true else (Z.pos mant mod 2 ^ (- e) =? 0)%Z
  | _ => false
  end.

Definition instanceof_Date (v : jsval) : bool :=
  match v with VDate _ => true | _ => false end.

(** [v === null || v === undefined] *)
Definition nullish (v : jsval) : bool :=
  match v with VNull | VUndefined => true | _ => false end.

(** The host's [ToString] on the values that are not texts: the text, or
    the error the conversion throws (an object whose [toString] and
    [valueOf] give no primitive). *)
Variable ToString : jsval -> result str.

(** [String(v)] *)
Definition String_of (v : jsval) : result str :=
  match v with
  | VString s => Ok s
  | _ => ToString v
  end.

(** One call [request.input(name, type, value)]. *)
Record binding : Type := Binding { b_name : str; b_type : sqltype; b_value : jsval }.

(** The driver's [request.input], which is not part of this repository:
    the error it throws at a call, if it refuses it (a name it does not
    take, say), given the calls it accepted before. *)
Variable refuses : list binding -> binding -> option str.

(** The request under construction: the calls accepted so far, in order. *)
Definition request_input (request : list binding) (k : str) (t : sqltype) (v : jsval)
  : result (list binding) :=
  match refuses request (Binding k t v) with
  | Some err => Throw err
  | None => Ok (request ++ [Binding k t v])
  end.

(** The body of the loop of [runQuery], for one entry of [Object.entries(params)]. *)
Definition bind_entry (request : list binding) (entry : str * jsval)
  : result (list binding) :=
  let '(k, v) := entry in
  if nullish v then Ok request
  else
    let t := typeof v in
    if is_number t && Number_isInteger v then request_input request k SqlInt v
    else if is_number t then request_input request k SqlFloat v
    else if instanceof_Date v then request_input request k SqlDateTime2 v
    else if is_boolean t then request_input request k SqlBit v
    else match String_of v with
         | Ok s => request_input request k (SqlNVarChar None) (VString s)
         | Throw err => Throw err
         end.

(** The loop of [runQuery] over [Object.entries(params)]: the calls the
    request accepted, and the error that ended the loop, if one did. *)
Fixpoint bind_loop (params : list (str * jsval)) (request : list binding)
  : list binding * option str :=
  match params with
  | [] => (request, None)
  | entry :: params' =>
      match bind_entry request entry with
      | Ok request' => bind_loop params' request'
      | Throw err => (request, Some err)
      end
  end.

(** What [runQuery] goes on with: the inputs of the request, or the throw. *)
Definition bind_params (params : list (str * jsval)) : result (list binding) :=
  match bind_loop params [] with
  | (request, None) => Ok request
  | (_, Some err) => Throw err
  end.

(** *** The five wire types, as the specification words them *)

Definition whole_number (f : spec_float) : bool := Number_isInteger (VNumber f).

(** The wire type of a value, and the value bound: for a value that is
    neither a number, a date, a boolean nor a text, the text of its string
    conversion, if the conversion gives one. *)
Inductive wire : jsval -> sqltype -> result jsval -> Prop :=
| wire_integer f : whole_number f = true -> wire (VNumber f) SqlInt (Ok (VNumber f))
| wire_float f : whole_number f = false -> wire (VNumber f) SqlFloat (Ok (VNumber f))
| wire_timestamp d : wire (VDate d) SqlDateTime2 (Ok (VDate d))
| wire_bit b : wire (VBoolean b) SqlBit (Ok (VBoolean b))
| wire_text_string s : wire (VString s) (SqlNVarChar None) (Ok (VString s))
| wire_text_other o s :
    ToString (VOther o) = Ok s -> wire (VOther o) (SqlNVarChar None) (Ok (VString s))
| wire_text_throws o err :
    ToString (VOther o) = Throw err -> wire (VOther o) (SqlNVarChar None) (Throw err).

(** The entries with a value, in order. *)
Definition bound_entries (params : list (str * jsval)) : list (str * jsval) :=
  List.filter (fun entry => negb (nullish (snd entry))) params.

(** A binding carries the key of its entry and the wire type and value of
    the entry's value. *)
Definition binds (entry : str * jsval) (b : binding) : Prop :=
  b_name b = fst entry /\ wire (snd entry) (b_type b) (Ok (b_value b)).

(** The loop stops at [entry] with [err]: the string conversion of its
    value throws, or the driver refuses the call. *)
Definition stops (request : list binding) (entry : str * jsval) (err : str) : Prop :=
  exists t p, wire (snd entry) t p /\
    (p = Throw err \/
     exists v, p = Ok v /\ refuses request (Binding (fst entry) t v) = Some err).

End Binding.

Arguments VNull {date other}.
Arguments VUndefined {date other}.
Arguments VNumber {date other} f.
Arguments VDate {date other} d.
Arguments VBoolean {date other} b.
Arguments VString {date other} s.
Arguments VOther {date other} o.
Arguments typeof {date other} v.
Arguments Number_isInteger {date other} v.
Arguments instanceof_Date {date other} v.
Arguments nullish {date other} v.
Arguments String_of {date other} ToString v.
Arguments Binding {date other} b_name b_type b_value.
Arguments b_name {date other} b.
Arguments b_type {date other} b.
Arguments b_value {date other} b.
Arguments request_input {date other} refuses request k t v.
Arguments bind_entry {date other} ToString refuses request entry.
Arguments bind_loop {date other} ToString refuses params request.
Arguments bind_params {date other} ToString refuses params.
Arguments whole_number {date other} f.
Arguments wire {date other} ToString _ _ _.
Arguments bound_entries {date other} params.
Arguments binds {date other} ToString entry b.
Arguments stops {date other} ToString refuses request entry err.

(** ** schemaHelpers.js *)

(** [String.prototype.includes] *)
Fixpoint is_prefix (p s : str) : bool :=
  match p, s with
  | [], _ => true
  | c :: p', d :: s' => (c =? d) && is_prefix p' s'
  | _ :: _, [] => false
  end.

Fixpoint includes (sub s : str) : bool :=
  is_prefix sub s || match s with [] => false | _ :: s' => includes sub s' end.

(** [String.prototype.split] with a one-character separator *)
Fixpoint split_on (sep : char) (s : str) : list str :=
  match s with
  | [] => [[]]
  | c :: s' =>
      if c =? sep then [] :: split_on sep s'
      else match split_on sep s' with
           | w :: ws => (c :: w) :: ws
           | [] => [[c]]
           end
  end.

(** [Array.prototype.join] *)
Fixpoint join (sep : str) (l : list str) : str :=
  match l with
  | [] => []
  | [x] => x
  | x :: l' => x ++ sep ++ join sep l'
  end.

Record query_template : Type :=
  QueryTemplate { qt_description : str; qt_template : str }.

(** A foreign-key edge, as [sqlSchema.js] builds it from a row: the two
    column names are cells of the row, the referenced table a text. *)
Record fk_edge : Type :=
  FkEdge { fk_column : json; fk_ref_table : str; fk_ref_column : json }.

(** The static description tables: plain objects used as maps, as they
    answer for a name that is no property of [Object.prototype]. *)
Definition table_descriptions : gmap (list N) (list N) :=
  list_to_map
    [ (lit "vwUsers", lit "User accounts with registration dates and basic info");
      (lit "vwOrders", lit "Customer orders with amounts and statuses");
      (lit "vwProducts", lit "Product catalog with pricing and categories") ].

Definition getTableDescription (tableName : str) : str :=
  default [] (table_descriptions !! tableName).

Definition column_descriptions : gmap (list N) (gmap (list N) (list N)) :=
  list_to_map
    [ (lit "vwUsers",
       list_to_map
         [ (lit "UserId", lit "Unique identifier for each user");
           (lit "CreatedAt", lit "UTC timestamp when user registered");
           (lit "Country", lit "User country code (ISO 2-letter)");
           (lit "IsActive", lit "Whether user account is active") ]) ].

Definition getColumnDescription (tableName columnName : str) : str :=
  default [] (column_descriptions !! tableName ≫= fun cols => cols !! columnName).

Definition getCommonQueryTemplates : list query_template :=
  [ QueryTemplate (lit "Row count for a table")
      (lit "SELECT COUNT" ++ [40; 42; 41] ++ lit " AS total FROM <schema.table>");
    QueryTemplate (lit "Preview rows")
      (lit "SELECT TOP(:limit) * FROM <schema.table> ORDER BY 1");
    QueryTemplate (lit "Count by a column")
      (lit "SELECT <column>, COUNT" ++ [40; 42; 41] ++
       lit " AS cnt FROM <schema.table> GROUP BY <column> ORDER BY cnt DESC") ].

(** The referenced table, qualified with [SalesLT.] when it has no dot. *)
Definition refTableWithSchema (fk : fk_edge) : str :=
  if includes (lit ".") (fk_ref_table fk) then fk_ref_table fk
  else lit "SalesLT." ++ fk_ref_table fk.

(** The template one edge gives. *)
Definition sample_join (tableName : str) (fk : fk_edge) : query_template :=
  QueryTemplate
    (lit "Join " ++ tableName ++ lit " with " ++ refTableWithSchema fk)
    (lit "SELECT t1.*, t2.* FROM " ++ tableName ++ lit " t1 INNER JOIN " ++
     refTableWithSchema fk ++ lit " t2 ON t1." ++ json_to_string (fk_column fk) ++
     lit " = t2." ++ json_to_string (fk_ref_column fk)).

(** [fks] is [undefined] ([None]) when the relation has no entry in the
    foreign-key map. *)
Definition getSampleJoins (tableName : str) (fks : option (list fk_edge))
  : list query_template :=
  match fks with
  | None => []
  | Some fks =>
      if (length fks =? 0)%nat then []
      else List.map (sample_join tableName) (firstn 2 fks)
  end.

(** ** sqlSchema.js *)

(** The settings the module reads from [process.env]. *)
Record environment : Type := Environment {
  SCHEMA_WHITELIST : option str;
  SCHEMA_OBJECT_TYPES : option str;
  OBJECT_ALLOWLIST_setting : option str;
  SCHEMA_INCLUDE_TYPES : option str;
  SCHEMA_EXCLUDE_SCHEMAS : option str
}.

(** [process.env.X || fallback] *)
Definition env_or (setting : option str) (fallback : str) : str :=
  match setting with
  | Some ((_ :: _) as s) => s
  | _ => fallback
  end.

(** [.split(',').map(s => s.trim()).filter(Boolean)] *)
Definition comma_list (s : str) : list str :=
  List.filter (fun x => match x with [] => false | _ :: _ => true end)
              (List.map trim (split_on 44 s)).

(** A call [request.input(...)...query(sql)]: the text and the inputs. *)
Record query : Type :=
  Query { q_sql : str; q_inputs : list (str * sqltype * json) }.

(** A row of a recordset: its fields by column name. *)
Abbreviation row := (list (list N * json)) (only parsing).

(** [r.field] *)
Fixpoint field (r : row) (name : str) : json :=
  match r with
  | [] => JUndefined
  | (k, v) :: r' => if decide (k = name) then v else field r' name
  end.

(** The connected pool: what a query returns, or the error it throws. *)
Abbreviation pool := (query -> result (list (list (list N * json)))) (only parsing).

(** The handler's effects: a query issued is appended to the log; a throw
    ends the run (the handler's [catch] turns it into a response). *)
Definition M (A : Type) : Type := list query -> result A * list query.

Definition ret {A} (a : A) : M A := fun log => (Ok a, log).

Definition bind {A B} (c : M A) (k : A -> M B) : M B :=
  fun log =>
    match c log with
    | (Ok a, log') => k a log'
    | (Throw msg, log') => (Throw msg, log')
    end.

Definition throw {A} (msg : str) : M A := fun log => (Throw msg, log).

Definition run_query (db : pool) (q : query) : M (list (list (list N * json))) :=
  fun log => (db q, log ++ [q]).

Notation "'let!' x ':=' c 'in' k" := (bind c (fun x => k))
  (at level 10, x name, c at level 100, k at level 200).

(** A resolved relation. *)
Record object : Type := Object { o_schema : json; o_name : json; o_type : str }.

(** The text [`${o.schema}.${o.name}`]. *)
Definition qname (o : object) : str :=
  json_to_string (o_schema o) ++ lit "." ++ json_to_string (o_name o).

Record column : Type := Column {
  c_name : json;
  c_type : json;
  c_nullable : bool;
  c_max_len : option json;
  c_pk : bool;
  c_description : str
}.

Record table_entry : Type := TableEntry {
  t_name : str;
  t_description : str;
  t_columns : list column;
  t_fks : list fk_edge;
  t_sample_joins : list query_template
}.

Record catalog : Type := Catalog {
  tables : list table_entry;
  common_queries : list query_template;
  generated_at_utc : str;
  notes : str
}.

Inductive response_body : Type :=
| CatalogBody (c : catalog)
| ErrorBody (error : str).

Record response : Type := Response { status : N; jsonBody : response_body }.

(** What the handler reads of a request: the two spellings of the header
    as [headerGetter] returns them, and of the parsed body ([{}] for a GET
    or an unreadable body) the fields [object_types] and [tables], the
    latter when it is an array: its entries, whatever they are. *)
Record schema_request : Type := SchemaRequest {
  header_lower : option str;
  header_title : option str;
  body_object_types : json;
  body_tables : option (list json)
}.

(** What a method was called on when the engine throws its [TypeError] for
    a method that is not there: a value of the request, or the member of
    [Object.prototype] that a plain object used as a map gives for a key. *)
Inductive receiver : Type :=
| OfValue (v : json)
| OfInherited (key : str).

(** The key under which a primary-key row, a foreign-key row and a column
    row are filed. *)
Definition pk_key (r : list (list N * json)) : str :=
  json_to_string (field r (lit "schema_name")) ++ lit "." ++
  json_to_string (field r (lit "table_name")).

Definition fk_key (r : list (list N * json)) : str :=
  json_to_string (field r (lit "parent_schema")) ++ lit "." ++
  json_to_string (field r (lit "parent_table")).

Definition col_key (r : list (list N * json)) : str := json_to_string (field r (lit "qn")).

Definition json_eqb (a b : json) : bool :=
  match a, b with
  | JUndefined, JUndefined | JNull, JNull => true
  | JBool x, JBool y => Bool.eqb x y
  | JNumber x, JNumber y => (x =? y)%Z
  | JString x, JString y => if decide (x = y) then true else false
  | _, _ => false
  end.

(** [Set.prototype.add] and [Set.prototype.has] on a set kept as a list. *)
Definition set_has (s : list json) (v : json) : bool := existsb (json_eqb v) s.
Definition set_add (s : list json) (v : json) : list json :=
  if set_has s v then s else s ++ [v].

Definition nat_to_string (i : nat) : str := int_to_string (Z.of_nat i).

(** [toLowerCase] on ASCII text. *)
Definition lower_ascii (s : str) : str :=
  List.map (fun c => if is_upper c then c + 32 else c) s.

(** A text of several lines, as a template literal spells it. *)
Definition text_lines (ls : list string) : str := join [10] (List.map lit ls).

Definition nvarchar (n : N) : sqltype := SqlNVarChar (Some n).

Section Schema.

(** [String.prototype.toLowerCase], the host's. *)
Variable toLowerCase : str -> str.

(** The message of the [TypeError] the engine throws when the method
    [name] is called on a receiver that has no such method. *)
Variable TypeError : string -> receiver -> str.

(** The key names a property of [Object.prototype] ([constructor],
    [toString], [__proto__], ...), which a plain object used as a map gives
    for that key. *)
Variable inherited : str -> bool.

(** The clock: [new Date().toISOString()]. *)
Variable now : str.

Variable env : environment.

Definition VIEW_WHITELIST : str := env_or (SCHEMA_WHITELIST env) (lit "vw%").
Definition OBJECT_TYPES_DEFAULT : str :=
  toLowerCase (env_or (SCHEMA_OBJECT_TYPES env) (lit "both")).
Definition OBJECT_ALLOWLIST : list str :=
  comma_list (env_or (OBJECT_ALLOWLIST_setting env) []).
Definition INCLUDE_TYPES : str :=
  toLowerCase (env_or (SCHEMA_INCLUDE_TYPES env) (lit "tables,views")).
Definition EXCLUDE_SCHEMAS : list str :=
  comma_list (env_or (SCHEMA_EXCLUDE_SCHEMAS env) (lit "sys,INFORMATION_SCHEMA,cdc")).

(** [a || b] on an optional header value: an empty text is falsy. *)
Definition or_header (a b : option str) : option str :=
  match a with
  | Some (_ :: _) => a
  | _ => b
  end.

(** [headerGetter('x-schema-object-types') ||
     headerGetter('X-Schema-Object-Types') || undefined] *)
Definition headerMode (req : schema_request) : option str :=
  match or_header (header_lower req) (header_title req) with
  | Some ((_ :: _) as s) => Some s
  | _ => None
  end.

(** [(headerMode || body?.object_types || OBJECT_TYPES_DEFAULT).toLowerCase()]:
    a value that is not a text has no [toLowerCase], and the call throws
    the engine's [TypeError]. *)
Definition effective_mode (req : schema_request) : result str :=
  let chosen :=
    match headerMode req with
    | Some s => JString s
    | None =>
        if truthy (body_object_types req) then body_object_types req
        else JString OBJECT_TYPES_DEFAULT
    end in
  match chosen with
  | JString s => Ok (toLowerCase s)
  | v => Throw (TypeError "toLowerCase"%string (OfValue v))
  end.

Definition is_mode (mode : str) (name : string) : bool :=
  if decide (mode = lit name) then true else false.

(** *** The three steps that resolve the relations *)

Definition views_query : query :=
  Query
    (text_lines [ EmptyString;
                  "          SELECT TABLE_SCHEMA, TABLE_NAME";
                  "          FROM INFORMATION_SCHEMA.VIEWS";
                  "          WHERE TABLE_NAME LIKE @vwPattern";
                  "        " ]%string)
    [ (lit "vwPattern", nvarchar 128, JString VIEW_WHITELIST) ].

(** The second part of [qn.split('.')], if any. *)
Definition name_part (qn : str) : option str := nth_error (split_on 46 qn) 1.
Definition schema_part (qn : str) : str := nth 0 (split_on 46 qn) [].

Definition is_star (nm : option str) : bool :=
  match nm with
  | Some [42] => true
  | _ => false
  end.

Definition tables_query (allow : list str) : query :=
  let inputs :=
    List.concat (imap (fun i qn =>
      [ (lit "s" ++ nat_to_string i, nvarchar 128, JString (schema_part qn));
        (lit "n" ++ nat_to_string i, nvarchar 128,
         if is_star (name_part qn) then JString (lit "%")
         else match name_part qn with
              | Some nm => JString nm
              | None => JUndefined
              end) ]) allow) in
  let ors :=
    join (lit " OR ")
      (imap (fun i qn =>
         if is_star (name_part qn)
         then lit "(t.TABLE_SCHEMA = @s" ++ nat_to_string i ++
              lit " AND t.TABLE_NAME LIKE @n" ++ nat_to_string i ++ lit ")"
         else lit "(t.TABLE_SCHEMA = @s" ++ nat_to_string i ++
              lit " AND t.TABLE_NAME = @n" ++ nat_to_string i ++ lit ")") allow) in
  Query
    (text_lines [ EmptyString;
                  "          SELECT t.TABLE_SCHEMA, t.TABLE_NAME";
                  "          FROM INFORMATION_SCHEMA.TABLES t";
                  "          WHERE t.TABLE_TYPE='BASE TABLE' AND (" ]%string ++
     ors ++ text_lines [ ")"; "        " ]%string)
    inputs.

Definition catalog_query : query :=
  let includeTables := includes (lit "tables") INCLUDE_TYPES in
  let includeViews := includes (lit "views") INCLUDE_TYPES in
  let typePreds :=
    (if includeTables then [lit "o.type = 'U'"] else []) ++
    (if includeViews then [lit "o.type = 'V'"] else []) in
  let typePreds := match typePreds with [] => [lit "1=0"] | _ => typePreds end in
  let exPh := join (lit ",") (imap (fun i _ => lit "@xs" ++ nat_to_string i) EXCLUDE_SCHEMAS) in
  Query
    (text_lines [ EmptyString;
                  "          SELECT s.name AS schema_name, o.name AS object_name, o.type";
                  "          FROM sys.objects o";
                  "          JOIN sys.schemas s ON s.schema_id = o.schema_id";
                  "          WHERE (" ]%string ++
     join (lit " OR ") typePreds ++
     text_lines [ ")";
                  "            AND o.is_ms_shipped = 0";
                  "            " ]%string ++
     (match EXCLUDE_SCHEMAS with
      | [] => []
      | _ :: _ => lit "AND s.name NOT IN (" ++ exPh ++ lit ")"
      end) ++
     text_lines [ EmptyString;
                  "          ORDER BY s.name, o.name";
                  "        " ]%string)
    (imap (fun i s => (lit "xs" ++ nat_to_string i, nvarchar 128, JString s)) EXCLUDE_SCHEMAS).

(** [OBJECT_ALLOWLIST.length || clientFilter?.length] *)
Definition has_allow_list (clientFilter : option (list json)) : bool :=
  match OBJECT_ALLOWLIST with
  | _ :: _ => true
  | [] => match clientFilter with Some (_ :: _) => true | _ => false end
  end.

(** [clientFilter?.length ? clientFilter : OBJECT_ALLOWLIST] *)
Definition allow_list (clientFilter : option (list json)) : list json :=
  match clientFilter with
  | Some ((_ :: _) as l) => l
  | _ => List.map JString OBJECT_ALLOWLIST
  end.

(** [qn.split('.')] in [allow.forEach], entry by entry, before the query is
    sent: an entry that is no text has no [split], and the call throws (so
    do the arrays and objects that [json] leaves out). *)
Fixpoint allow_texts (allow : list json) : result (list str) :=
  match allow with
  | [] => Ok []
  | JString qn :: allow' =>
      match allow_texts allow' with
      | Ok l => Ok (qn :: l)
      | Throw err => Throw err
      end
  | v :: _ => Throw (TypeError "split"%string (OfValue v))
  end.

(** A pure step that may throw, in the handler's monad. *)
Definition lift {A} (r : result A) : M A :=
  match r with
  | Ok a => ret a
  | Throw err => throw err
  end.

(** Lines 28 to 101 of the handler: views by the whitelist pattern, tables
    by the allow-list, then the catalog fallback when nothing was found.
    Returns [objects] and [usingCatalogFallback]. *)
Definition resolve_objects (db : pool) (mode : str) (clientFilter : option (list json))
  : M (list object * bool) :=
  let objects := [] in
  let! objects :=
    (if is_mode mode "views" || is_mode mode "both" then
       let! r := run_query db views_query in
       ret (objects ++
            List.map (fun v => Object (field v (lit "TABLE_SCHEMA"))
                                      (field v (lit "TABLE_NAME")) (lit "VIEW")) r)
     else ret objects) in
  let! objects :=
    (if (is_mode mode "tables" || is_mode mode "both") && has_allow_list clientFilter then
       let! allow := lift (allow_texts (allow_list clientFilter)) in
       let! r := run_query db (tables_query allow) in
       ret (objects ++
            List.map (fun t => Object (field t (lit "TABLE_SCHEMA"))
                                      (field t (lit "TABLE_NAME")) (lit "TABLE")) r)
     else ret objects) in
  if (is_mode mode "tables" || is_mode mode "both" || is_mode mode "views")
     && (length objects =? 0)%nat then
    let! r := run_query db catalog_query in
    ret (objects ++
         List.map (fun row =>
           let kind := if json_eqb (field row (lit "type")) (JString (lit "U"))
                       then lit "TABLE" else lit "VIEW" in
           Object (field row (lit "schema_name")) (field row (lit "object_name")) kind) r,
         true)
  else ret (objects, false).

(** *** The three introspection calls and the assembly *)

Definition columns_query (qnames : list str) : query :=
  let colOrs :=
    join (lit " OR ")
      (imap (fun i _ => lit "(TABLE_SCHEMA + '.' + TABLE_NAME) = @q" ++ nat_to_string i)
            qnames) in
  Query
    (text_lines [ EmptyString;
                  "        SELECT TABLE_SCHEMA + '.' + TABLE_NAME AS qn,";
                  "               COLUMN_NAME, DATA_TYPE, IS_NULLABLE, CHARACTER_MAXIMUM_LENGTH, ORDINAL_POSITION";
                  "        FROM INFORMATION_SCHEMA.COLUMNS";
                  "        WHERE " ]%string ++
     colOrs ++
     text_lines [ EmptyString;
                  "        ORDER BY TABLE_SCHEMA, TABLE_NAME, ORDINAL_POSITION";
                  "      " ]%string)
    (imap (fun i qn => (lit "q" ++ nat_to_string i, nvarchar 256, JString qn)) qnames).

(** The inputs [<p>s<i>], [<p>n<i>] of the two calls by schema and table. *)
Definition split_inputs (p : string) (qnames : list str) : list (str * sqltype * json) :=
  List.concat (imap (fun i qn =>
    [ (lit p ++ lit "s" ++ nat_to_string i, nvarchar 128, JString (schema_part qn));
      (lit p ++ lit "n" ++ nat_to_string i, nvarchar 128,
       match name_part qn with Some n => JString n | None => JUndefined end) ]) qnames).

Definition pk_query (qnames : list str) : query :=
  let pkOrs :=
    join (lit " OR ")
      (imap (fun i _ => lit "(s.name=@ps" ++ nat_to_string i ++
                        lit " AND t.name=@pn" ++ nat_to_string i ++ lit ")") qnames) in
  Query
    (text_lines [ EmptyString;
                  "        SELECT s.name AS schema_name, t.name AS table_name, c.name AS column_name";
                  "        FROM sys.tables t";
                  "        JOIN sys.schemas s ON s.schema_id = t.schema_id";
                  "        JOIN sys.indexes i ON i.object_id = t.object_id AND i.is_primary_key=1";
                  "        JOIN sys.index_columns ic ON ic.object_id=i.object_id AND ic.index_id=i.index_id";
                  "        JOIN sys.columns c ON c.object_id=ic.object_id AND c.column_id=ic.column_id";
                  "        WHERE " ]%string ++
     pkOrs ++ text_lines [ EmptyString; "      " ]%string)
    (split_inputs "p" qnames).

Definition fk_query (qnames : list str) : query :=
  let fkOrs :=
    join (lit " OR ")
      (imap (fun i _ => lit "(sp.name=@fs" ++ nat_to_string i ++
                        lit " AND tp.name=@fn" ++ nat_to_string i ++ lit ")") qnames) in
  Query
    (text_lines [ EmptyString;
                  "        SELECT sp.name AS parent_schema, tp.name AS parent_table, cp.name AS parent_col,";
                  "               sr.name AS ref_schema,   tr.name AS ref_table,   cr.name AS ref_col";
                  "        FROM sys.foreign_keys fk";
                  "        JOIN sys.foreign_key_columns fkc ON fkc.constraint_object_id=fk.object_id";
                  "        JOIN sys.tables tp ON tp.object_id=fkc.parent_object_id";
                  "        JOIN sys.schemas sp ON sp.schema_id = tp.schema_id";
                  "        JOIN sys.columns cp ON cp.object_id=fkc.parent_object_id AND cp.column_id=fkc.parent_column_id";
                  "        JOIN sys.tables tr ON tr.object_id=fkc.referenced_object_id";
                  "        JOIN sys.schemas sr ON sr.schema_id = tr.schema_id";
                  "        JOIN sys.columns cr ON cr.object_id=fkc.referenced_object_id AND cr.column_id=fkc.referenced_column_id";
                  "        WHERE " ]%string ++
     fkOrs ++ text_lines [ EmptyString; "      " ]%string)
    (split_inputs "f" qnames).

(** [(map[key] ??= init)] followed by an update of the entry, for a key
    that names no property of [Object.prototype]. *)
Definition upsert {V} (init : V) (f : V -> V) (key : str) (mp : gmap (list N) V)
  : gmap (list N) V :=
  <[ key := f (default init (mp !! key)) ]> mp.

Definition build_pkMap (rows : list (list (list N * json))) : gmap (list N) (list json) :=
  fold_left (fun mp r =>
    upsert [] (fun s => set_add s (field r (lit "column_name")))
      (json_to_string (field r (lit "schema_name")) ++ lit "." ++
       json_to_string (field r (lit "table_name"))) mp) rows ∅.

Definition build_fkMap (rows : list (list (list N * json))) : gmap (list N) (list fk_edge) :=
  fold_left (fun mp r =>
    let key := json_to_string (field r (lit "parent_schema")) ++ lit "." ++
               json_to_string (field r (lit "parent_table")) in
    upsert [] (fun l => l ++
      [ FkEdge (field r (lit "parent_col"))
               (json_to_string (field r (lit "ref_schema")) ++ lit "." ++
                json_to_string (field r (lit "ref_table")))
               (field r (lit "ref_col")) ]) key mp) rows ∅.

(** A column before the primary-key flag and the description are added. *)
Definition column_of_row (r : list (list N * json)) : column :=
  Column (field r (lit "COLUMN_NAME"))
         (field r (lit "DATA_TYPE"))
         (json_eqb (field r (lit "IS_NULLABLE")) (JString (lit "YES")))
         (if truthy (field r (lit "CHARACTER_MAXIMUM_LENGTH"))
          then Some (field r (lit "CHARACTER_MAXIMUM_LENGTH")) else None)
         false [].

Definition build_colMap (rows : list (list (list N * json))) : gmap (list N) (list column) :=
  fold_left (fun mp r =>
    upsert [] (fun l => l ++ [column_of_row r]) (json_to_string (field r (lit "qn"))) mp)
    rows ∅.

(** [(map[key] ??= init).method(...)], row by row: for a key that names a
    property of [Object.prototype] the map gives that property, which is not
    nullish and has no such method, and the call throws; the first such
    row ends the loop. *)
Fixpoint filing_error (method : string) (key : list (list N * json) -> str)
    (rows : list (list (list N * json))) : option str :=
  match rows with
  | [] => None
  | r :: rows' =>
      if inherited (key r) then Some (TypeError method (OfInherited (key r)))
      else filing_error method key rows'
  end.

Definition filed (method : string) (key : list (list N * json) -> str)
    (rows : list (list (list N * json))) : M unit :=
  match filing_error method key rows with
  | Some err => throw err
  | None => ret tt
  end.

(** The catalog entry of one qualified name: the name holds a dot, which no
    property of [Object.prototype] does, so the three maps answer for it with
    an entry of their own or with none. *)
Definition table_of (pkMap : gmap (list N) (list json)) (fkMap : gmap (list N) (list fk_edge))
    (colMap : gmap (list N) (list column)) (qn : str) : table_entry :=
  let bare := nth 1 (split_on 46 qn) (lit "undefined") in
  TableEntry qn
    (getTableDescription bare)
    (List.map (fun c =>
       Column (c_name c) (c_type c) (c_nullable c) (c_max_len c)
         (match pkMap !! qn with
          | Some s => set_has s (c_name c)
          | None => false
          end)
         (getColumnDescription bare (json_to_string (c_name c))))
       (default [] (colMap !! qn)))
    (default [] (fkMap !! qn))
    (getSampleJoins qn (fkMap !! qn)).

Definition note_mode (mode : str) : str :=
  lit "Mode=" ++ mode ++ lit "; views LIKE " ++ VIEW_WHITELIST ++
  lit "; tables from allow-list".

Definition note_fallback : str :=
  lit "Included: " ++ INCLUDE_TYPES ++ lit "; Excluded schemas: " ++
  join (lit ",") EXCLUDE_SCHEMAS.

(** The body of the [try] block. *)
Definition sql_schema_try (getPool : result (query -> result (list (list (list N * json)))))
    (req : schema_request) : M response :=
  let! mode := lift (effective_mode req) in
  let clientFilter := body_tables req in
  let! db := lift getPool in
  let! resolved := resolve_objects db mode clientFilter in
  let '(objects, usingCatalogFallback) := resolved in
  if (length objects =? 0)%nat then
    ret (Response 200
           (CatalogBody (Catalog [] getCommonQueryTemplates now (note_mode mode))))
  else
    let qnames := List.map qname objects in
    let! columns := run_query db (columns_query qnames) in
    let! pkRows := run_query db (pk_query qnames) in
    let! fkRows := run_query db (fk_query qnames) in
    let! _ := filed "add" pk_key pkRows in
    let pkMap := build_pkMap pkRows in
    let! _ := filed "push" fk_key fkRows in
    let fkMap := build_fkMap fkRows in
    let! _ := filed "push" col_key columns in
    let colMap := build_colMap columns in
    let tables := List.map (table_of pkMap fkMap colMap) qnames in
    ret (Response 200
           (CatalogBody
              (Catalog tables getCommonQueryTemplates now
                 (if usingCatalogFallback then note_fallback else note_mode mode)))).

(** The handler of [sql-schema]: the response, and the queries issued. *)
Definition sql_schema_handler
    (getPool : result (query -> result (list (list (list N * json)))))
    (req : schema_request) : response * list query :=
  match sql_schema_try getPool req [] with
  | (Ok r, log) => (r, log)
  | (Throw msg, log) => (Response 500 (ErrorBody msg), log)
  end.

End Schema.

(** *** A small database, for examples *)

Definition example_env : environment := Environment None None None None None.

(** A host for the examples: the names of the properties of
    [Object.prototype], and some text for the engine's [TypeError]. *)
Definition object_prototype_names : list str :=
  List.map lit ["constructor"; "__defineGetter__"; "__defineSetter__"; "hasOwnProperty";
                "__lookupGetter__"; "__lookupSetter__"; "isPrototypeOf";
                "propertyIsEnumerable"; "toString"; "valueOf"; "__proto__";
                "toLocaleString"]%string.

Definition example_inherited (key : str) : bool :=
  existsb (fun name => if decide (key = name) then true else false) object_prototype_names.

Definition example_TypeError (name : string) (r : receiver) : str :=
  lit "TypeError (" ++ lit name ++ lit ")".
Definition example_now : str := lit "2025-01-01T00:00:00.000Z".

(** One view [dbo.vwUsers] with one column, its primary key. *)
Definition example_pool (q : query) : result (list (list (list N * json))) :=
  if includes (lit "INFORMATION_SCHEMA.VIEWS") (q_sql q) then
    Ok [[(lit "TABLE_SCHEMA", JString (lit "dbo")); (lit "TABLE_NAME", JString (lit "vwUsers"))]]
  else if includes (lit "INFORMATION_SCHEMA.COLUMNS") (q_sql q) then
    Ok [[(lit "qn", JString (lit "dbo.vwUsers")); (lit "COLUMN_NAME", JString (lit "UserId"));
         (lit "DATA_TYPE", JString (lit "int")); (lit "IS_NULLABLE", JString (lit "NO"));
         (lit "CHARACTER_MAXIMUM_LENGTH", JNull)]]
  else if includes (lit "is_primary_key") (q_sql q) then
    Ok [[(lit "schema_name", JString (lit "dbo")); (lit "table_name", JString (lit "vwUsers"));
         (lit "column_name", JString (lit "UserId"))]]
  else Ok [].

Definition example_request : schema_request :=
  SchemaRequest (Some (lit "Views")) None JUndefined None.

Definition example_run : response * list query :=
  sql_schema_handler lower_ascii example_TypeError example_inherited example_now example_env
    (Ok example_pool) example_request.

Definition example_catalog : catalog :=
  match jsonBody (fst example_run) with
  | CatalogBody c => c
  | ErrorBody _ => Catalog [] [] [] []
  end.

(** ** The matcher, declaratively *)

(** [matches icase r st st']: the pattern [r] can match from position [st]
    up to position [st'] (one of the ways the backtracking matcher may try). *)
Inductive matches (icase : bool) : regex -> mstate -> mstate -> Prop :=
| M_Empty st : matches icase Empty st st
| M_Char c x b a cp :
    chr_eq icase c x = true ->
    matches icase (Char c) (MState b (x :: a) cp) (MState (x :: b) a cp)
| M_Class (p : char -> bool) x b a cp :
    p x = true ->
    matches icase (Class p) (MState b (x :: a) cp) (MState (x :: b) a cp)
| M_Seq r1 r2 st st1 st2 :
    matches icase r1 st st1 -> matches icase r2 st1 st2 ->
    matches icase (Seq r1 r2) st st2
| M_AltL r1 r2 st st' : matches icase r1 st st' -> matches icase (Alt r1 r2) st st'
| M_AltR r1 r2 st st' : matches icase r2 st st' -> matches icase (Alt r1 r2) st st'
| M_Star0 p st : matches icase (Star p) st st
| M_StarS (p : char -> bool) x b a cp st' :
    p x = true ->
    matches icase (Star p) (MState (x :: b) a cp) st' ->
    matches icase (Star p) (MState b (x :: a) cp) st'
| M_Group r st st' :
    matches icase r st st' ->
    matches icase (Group r) st (MState (before st') (after st') (Some (consumed st st')))
| M_Bol a cp : matches icase Bol (MState [] a cp) (MState [] a cp)
| M_WordB st :
    xorb (word_before st) (word_after st) = true ->
    matches icase WordBoundary st st.

#[local] Hint Constructors matches : core.

(** A match only moves forward in the input. *)
Definition extends (st st' : mstate) (w : str) : Prop :=
  before st' = rev w ++ before st /\ after st = w ++ after st'.

(** ** Further definitions *)

(** A text with no whitespace at either end: what [trim] returns. *)
Definition trimmed (s : str) : Prop := drop_spaces s = s /\ drop_spaces (rev s) = rev s.

(** The text holds a placeholder: a colon right before an identifier start. *)
Definition has_placeholder (s : str) : Prop :=
  exists pre c post, s = pre ++ 58 :: c :: post /\ is_ident_start c = true.

(** What the placeholder rewriting may do to one character: keep it, or turn
    a colon into an at sign. *)
Definition rewritten (o c : char) : Prop := o = c \/ (c = 58 /\ o = 64).

(** The text ends with a whitespace character. *)
Definition ends_with_space (s : str) : Prop :=
  exists s0 c, s = s0 ++ [c] /\ is_space c = true.

Definition starts_with_space (s : str) : bool :=
  match s with c :: _ => is_space c | [] => false end.

(** ** sqlQuery.js: the rest of the handler *)

(** What [request.query] resolves to: the rows and, when the driver gives
    it, the keys of the [columns] metadata object. *)
Record recordset : Type :=
  Recordset { rs_columns : option (list (list N)); rs_rows : list (list (list N * json)) }.

(** [Object.keys] of a row. *)
Definition row_keys (r : list (list N * json)) : list (list N) := List.map fst r.

(** [result.recordset.columns ? Object.keys(result.recordset.columns)
     : (result.recordset[0] ? Object.keys(result.recordset[0]) : [])] *)
Definition result_columns (rs : recordset) : list (list N) :=
  match rs_columns rs with
  | Some keys => keys
  | None =>
      match rs_rows rs with
      | r :: _ => row_keys r
      | [] => []
      end
  end.

(** [const obj = {}; for (const c of columns) obj[c] = r[c]; return obj]:
    the own properties of [obj], as a finite map.  On a plain object the
    assignment [obj['__proto__'] = v] runs the inherited setter and stores
    no own property. *)
Definition shape_row (columns : list (list N)) (r : list (list N * json))
  : gmap (list N) json :=
  fold_left (fun obj c =>
               if decide (c = lit "__proto__") then obj else <[ c := field r c ]> obj)
            columns ∅.

(** [rows.length >= limit] *)
Definition reaches_limit (count : nat) (limit : num) : bool :=
  match limit with
  | NaN => false
  | Int z => (z <=? Z.of_nat count)%Z
  end.

(** The body of the 200 answer, without the elapsed time. *)
Record query_result : Type := QueryResult {
  qr_columns : list (list N);
  qr_rows : list (gmap (list N) json);
  qr_row_count : nat;
  qr_sql_used : str;
  qr_notes : option (list N)
}.

(** Lines 27 to 53 of the handler. *)
Definition shape_result (sql : str) (limit : num) (rs : recordset) : query_result :=
  let columns := result_columns rs in
  let rows := List.map (shape_row columns) (rs_rows rs) in
  QueryResult columns rows (length rows) sql
    (if reaches_limit (length rows) limit
     then Some (lit "Truncated to TOP(" ++ num_to_string limit ++ lit ").")
     else None).

Inductive query_response : Type :=
| QueryOk (r : query_result)
| QueryError (status : N) (error : str).

Section QueryHandler.

Variable date : Type.
Variable other : Type.
Variable ToString : jsval date other -> result str.
Variable refuses : list (binding date other) -> binding date other -> option str.

(** What the handler reads of the parsed body: the fields [sql] and
    [row_limit] of [body || {}] (undefined for a body that is no object) and
    the entries of [params || {}]. *)
Record query_body : Type := QueryBody {
  qb_sql : json;
  qb_params : list (list N * jsval date other);
  qb_row_limit : json
}.

(** One run of [request.query]: the statement and the inputs bound before. *)
Record db_call : Type := DbCall { dc_sql : str; dc_inputs : list (binding date other) }.

(** The [sql-query] handler: the answer and the calls made to the
    database.  [req_json] is what [await req.json()] gives, the body or the
    error it rejects with for a body that is no JSON text; [getPool] is the
    outcome of [getPool()] inside [runQuery]; [db] answers a call with a
    recordset or throws.  An error is kept as the text the [catch] block
    answers with, [err.message || String(err)]. *)
Definition sql_query_handler (default : num) (req_json : result query_body)
    (getPool : result (db_call -> result recordset))
  : query_response * list db_call :=
  match req_json with
  | Throw error => (QueryError 500 error, [])
  | Ok body =>
      match sql_query_statement default (qb_sql body) (qb_row_limit body) with
      | inl (status, error) => (QueryError status error, [])
      | inr (sql, limit) =>
          match getPool with
          | Throw error => (QueryError 500 error, [])
          | Ok db =>
              match bind_params ToString refuses (qb_params body) with
              | Throw error => (QueryError 500 error, [])
              | Ok inputs =>
                  let call := DbCall sql inputs in
                  match db call with
                  | Throw error => (QueryError 500 error, [call])
                  | Ok rs => (QueryOk (shape_result sql limit rs), [call])
                  end
              end
          end
      end
  end.

End QueryHandler.

Arguments QueryBody {date other} qb_sql qb_params qb_row_limit.
Arguments qb_sql {date other} q.
Arguments qb_params {date other} q.
Arguments qb_row_limit {date other} q.
Arguments DbCall {date other} dc_sql dc_inputs.
Arguments dc_sql {date other} d.
Arguments dc_inputs {date other} d.
Arguments sql_query_handler {date other} ToString refuses default req_json getPool.

(** The shaped row [obj] holds, under each of [columns] but [__proto__],
    the record's value for it, and nothing else. *)
Definition row_shaped (columns : list (list N)) (r : list (list N * json))
    (obj : gmap (list N) json) : Prop :=
  forall c : list N,
    (In c columns -> c <> lit "__proto__" -> obj !! c = Some (field r c)) /\
    (~ In c columns \/ c = lit "__proto__" -> obj !! c = None).

(** Every row has every listed column among its own keys, as the rows of
    one recordset have: [r[c]] then reads an own property of the row. *)
Definition rows_complete (columns : list (list N)) (rows : list (list (list N * json)))
  : Prop :=
  forall r c, In r rows -> In c columns -> In c (row_keys r).

(** A request for two columns of one view, answered by a database holding
    one row. *)
Definition example_query_body : query_body unit unit :=
  QueryBody (JString (lit "select Id, Name from dbo.vwUsers where Id = :id"))
            [(lit "id", VNumber (S754_finite false 21 1))] (JNumber 1).

Definition example_db (call : db_call unit unit) : result recordset :=
  Ok (Recordset None
        [[(lit "Id", JNumber 42); (lit "Name", JString (lit "Ada"))]]).

Definition example_ToString (v : jsval unit unit) : result str :=
  Ok (lit "[object Object]").

Definition example_refuses (request : list (binding unit unit)) (b : binding unit unit)
  : option str := None.

Definition example_query_run : query_response * list (db_call unit unit) :=
  sql_query_handler example_ToString example_refuses (Int 200)
    (Ok example_query_body) (Ok example_db).

Definition example_query_result : query_result :=
  match fst example_query_run with
  | QueryOk r => r
  | QueryError _ _ => QueryResult [] [] 0 [] None
  end.

(** ** The maps of the schema handler, by their rows *)

(** The edge a foreign-key row gives. *)
Definition edge_of_row (r : list (list N * json)) : fk_edge :=
  FkEdge (field r (lit "parent_col"))
         (json_to_string (field r (lit "ref_schema")) ++ lit "." ++
          json_to_string (field r (lit "ref_table")))
         (field r (lit "ref_col")).

(** The rows filed under [key]. *)
Definition rows_of (key : list (list N * json) -> str) (k : str)
    (rows : list (list (list N * json))) : list (list (list N * json)) :=
  List.filter (fun r => bool_decide (key r = k)) rows.

(** The names under which a query binds its inputs. *)
Definition input_names (q : query) : list str := List.map (fun x => fst (fst x)) (q_inputs q).

(** ** Runs of the schema handler *)









(** ** db.js: the cached pool *)

(** The settings [db.js] reads from [process.env]. *)
Record db_environment : Type := DbEnvironment {
  SQL_SERVER : option str;
  SQL_DATABASE : option str;
  SQL_CONNECTION_STRING : option str;
  NODE_ENV : option str
}.

(** The connection string of a local development run:
    [process.env.SQL_CONNECTION_STRING && process.env.NODE_ENV === 'development']. *)
Definition development_connection (env : db_environment) : option str :=
  match SQL_CONNECTION_STRING env with
  | Some ((_ :: _) as cs) =>
      if decide (NODE_ENV env = Some (lit "development")) then Some cs else None
  | _ => None
  end.

Section Pool.

Variable pool : Type.
Variable token : Type.

(** The configuration of a production pool. *)
Record pool_config : Type := PoolConfig {
  cfg_server : option str;
  cfg_database : option str;
  cfg_encrypt : bool;
  cfg_enableArithAbort : bool;
  cfg_authentication : str;
  cfg_token : token;
  cfg_pool_max : N;
  cfg_pool_min : N;
  cfg_idleTimeoutMillis : N
}.

Definition production_config (env : db_environment) (tok : token) : pool_config :=
  PoolConfig (SQL_SERVER env) (SQL_DATABASE env) true true
    (lit "azure-active-directory-access-token") tok 5 0 30000.

(** What the outside world does during one call: how [sql.connect], the
    credential's [getToken] and [ConnectionPool.connect] end. *)
Record outcomes : Type := Outcomes {
  sql_connect : str -> result pool;
  credential_getToken : result token;
  pool_connect : pool_config -> result pool
}.

(** [getPool], on the module's [poolPromise]: [None] while it is undefined,
    else the promise held, by how it settled.  Calls are taken one after
    the other, each settled before the next one starts.  The result is what
    awaiting the call gives, and the new [poolPromise]. *)
Definition getPool (env : db_environment) (w : outcomes) (poolPromise : option (result pool))
  : result pool * option (result pool) :=
  match poolPromise with
  | Some p => (p, poolPromise)
  | None =>
      match development_connection env with
      | Some cs =>
          let poolPromise := sql_connect w cs in
          (poolPromise, Some poolPromise)
      | None =>
          match credential_getToken w with
          | Throw err => (Throw err, None)
          | Ok tok =>
              match pool_connect w (production_config env tok) with
              | Ok p => (Ok p, Some (Ok p))
              | Throw err => (Throw err, None)
              end
          end
      end
  end.

(** Calls of [getPool] in a row, one world step each. *)
Fixpoint getPool_calls (env : db_environment) (ws : list outcomes)
    (poolPromise : option (result pool)) : list (result pool) * option (result pool) :=
  match ws with
  | [] => ([], poolPromise)
  | w :: ws' =>
      let '(r, poolPromise) := getPool env w poolPromise in
      let '(rs, poolPromise) := getPool_calls env ws' poolPromise in
      (r :: rs, poolPromise)
  end.

End Pool.

Arguments Outcomes {pool token}.
Arguments sql_connect {pool token}.
Arguments credential_getToken {pool token}.
Arguments pool_connect {pool token}.
Arguments getPool {pool token}.
Arguments getPool_calls {pool token}.
Arguments production_config {token}.

(** * Properties *)

(** ** The matcher *)

Lemma star_m_sound p k e : forall a b c,
  star_m p b a c k = Some e ->
  exists st', matches false (Star p) (MState b a c) st' /\ k st' = Some e.
Proof.
  induction a as [|x a IH]; intros b c H; simpl in H.
  - eauto.
  - destruct (p x) eqn:Hp; [|eauto].
    destruct (star_m p (x :: b) a c k) eqn:Hs.
    + injection H as <-. apply IH in Hs as (st' & Hm & Hk). eauto.
    + eauto.
Qed.

Lemma matches_star_icase ic p st st' :
  matches false (Star p) st st' -> matches ic (Star p) st st'.
Proof.
  remember (Star p) as r eqn:Hr. induction 1; inversion Hr; subst; eauto.
Qed.

(** Whatever the matcher returns comes from a match of [r] followed by a
    success of the continuation. *)
Lemma m_sound ic r : forall st k e,
  m ic r st k = Some e ->
  exists st', matches ic r st st' /\ k st' = Some e.
Proof.
  induction r; intros st k e H; simpl in H.
  - eauto.
  - destruct st as [b [|x a] cp]; simpl in H; [discriminate|].
    destruct (chr_eq ic c x) eqn:Hc; [|discriminate]. eauto.
  - destruct st as [b [|x a] cp]; simpl in H; [discriminate|].
    destruct (p x) eqn:Hp; [|discriminate]. eauto.
  - apply IHr1 in H as (st1 & H1 & H). apply IHr2 in H as (st2 & H2 & H). eauto.
  - destruct (m ic r1 st k) eqn:H1.
    + injection H as <-. apply IHr1 in H1 as (st' & ? & ?). eauto.
    + apply IHr2 in H as (st' & ? & ?). eauto.
  - destruct st as [b a cp]. apply star_m_sound in H as (st' & ? & ?).
    eauto using matches_star_icase.
  - apply IHr in H as (st' & ? & ?). eauto.
  - destruct st as [[|x b] a cp]; simpl in H; [eauto|discriminate].
  - destruct (xorb (word_before st) (word_after st)) eqn:Hx; [eauto|discriminate].
Qed.

(** Backtracking loses no match: if [r] can match up to a position where
    the continuation succeeds, the matcher succeeds. *)
Lemma m_complete ic r st st' :
  matches ic r st st' ->
  forall k e, k st' = Some e -> exists e', m ic r st k = Some e'.
Proof.
  induction 1; intros k e Hk; simpl.
  - eauto.
  - rewrite H. eauto.
  - rewrite H. eauto.
  - destruct (IHmatches2 k e Hk) as [e2 H2]. eapply IHmatches1. exact H2.
  - destruct (IHmatches k e Hk) as [e1 ->]. eauto.
  - destruct (m ic r1 st k); eauto.
  - destruct st as [b [|x a] cp]; simpl; [eauto|].
    destruct (p x); [|eauto]. destruct (star_m p (x :: b) a cp k); eauto.
  - rewrite H. destruct (IHmatches k e Hk) as [e1 He1]. simpl in He1. rewrite He1. eauto.
  - eapply IHmatches. exact Hk.
  - eauto.
  - rewrite H. eauto.
Qed.

Lemma matches_extends ic r st st' :
  matches ic r st st' -> exists w, extends st st' w.
Proof.
  unfold extends. induction 1; simpl.
  - exists []. auto.
  - exists [x]. auto.
  - exists [x]. auto.
  - destruct IHmatches1 as (w1 & B1 & A1), IHmatches2 as (w2 & B2 & A2).
    exists (w1 ++ w2). rewrite B2, B1, A1, A2, rev_app_distr, !app_assoc. auto.
  - auto.
  - auto.
  - exists []. auto.
  - destruct IHmatches as (w & B & A). simpl in *.
    exists (x :: w). simpl. rewrite B, A, <- app_assoc. auto.
  - auto.
  - exists []. auto.
  - exists []. auto.
Qed.

Lemma consumed_extends st st' w : extends st st' w -> consumed st st' = w.
Proof.
  intros [B A]. unfold consumed. rewrite B, length_app, length_rev.
  replace (length w + length (before st) - length (before st))%nat with (length (rev w))
    by (rewrite length_rev; lia).
  rewrite firstn_app, Nat.sub_diag, firstn_all. simpl.
  rewrite app_nil_r. apply rev_involutive.
Qed.

(** *** Searching *)

Lemma search_Some ic r : forall a b st e,
  search ic r b a = Some (st, e) ->
  exists pre a', a = pre ++ a' /\ st = MState (rev pre ++ b) a' None /\
                 match_at ic r st = Some e.
Proof.
  induction a as [|x a IH]; intros b st e H; simpl in H.
  - destruct (match_at ic r (MState b [] None)) eqn:Hm; [|discriminate].
    injection H as <- <-. exists [], []. auto.
  - destruct (match_at ic r (MState b (x :: a) None)) eqn:Hm.
    + injection H as <- <-. exists [], (x :: a). auto.
    + apply IH in H as (pre & a' & -> & -> & H).
      exists (x :: pre), a'. simpl. rewrite <- app_assoc. auto.
Qed.

Lemma search_None ic r : forall a b,
  search ic r b a = None ->
  forall pre a', a = pre ++ a' -> match_at ic r (MState (rev pre ++ b) a' None) = None.
Proof.
  induction a as [|x a IH]; intros b H pre a' E; simpl in H.
  - destruct (match_at ic r (MState b [] None)) eqn:Hm; [discriminate|].
    symmetry in E. apply app_eq_nil in E as [-> ->]. exact Hm.
  - destruct (match_at ic r (MState b (x :: a) None)) eqn:Hm; [discriminate|].
    destruct pre as [|y pre]; simpl in E.
    + subst a'. exact Hm.
    + injection E as <- ->. simpl. rewrite <- app_assoc. apply (IH _ H). reflexivity.
Qed.

(** [test] succeeds exactly when the pattern can match at some position. *)
Lemma test_true_iff ic r s :
  test ic r s = true <->
  exists pre a st', s = pre ++ a /\ matches ic r (MState (rev pre) a None) st'.
Proof.
  unfold test. split.
  - destruct (search ic r [] s) as [[st e]|] eqn:H; [intros _|discriminate].
    apply search_Some in H as (pre & a & -> & -> & H).
    apply m_sound in H as (st' & H & _). rewrite app_nil_r in H. eauto.
  - intros (pre & a & st' & -> & H).
    destruct (search ic r [] (pre ++ a)) eqn:Hs; [reflexivity|].
    eapply search_None in Hs; [|reflexivity]. rewrite app_nil_r in Hs.
    destruct (m_complete _ _ _ _ H Some st' eq_refl) as [e' He'].
    unfold match_at in Hs. congruence.
Qed.

(** *** Inversion, one lemma per construct *)

Lemma matches_Seq_inv ic r1 r2 st st' :
  matches ic (Seq r1 r2) st st' ->
  exists st1, matches ic r1 st st1 /\ matches ic r2 st1 st'.
Proof. inversion 1; subst; eauto. Qed.

Lemma matches_Alt_inv ic r1 r2 st st' :
  matches ic (Alt r1 r2) st st' -> matches ic r1 st st' \/ matches ic r2 st st'.
Proof. inversion 1; subst; eauto. Qed.

Lemma matches_Char_inv ic c st st' :
  matches ic (Char c) st st' ->
  exists x a, after st = x :: a /\ chr_eq ic c x = true /\
              st' = MState (x :: before st) a (cap st).
Proof. inversion 1; subst; simpl; eauto. Qed.

Lemma matches_Class_inv ic p st st' :
  matches ic (Class p) st st' ->
  exists x a, after st = x :: a /\ p x = true /\
              st' = MState (x :: before st) a (cap st).
Proof. inversion 1; subst; simpl; eauto. Qed.

Lemma matches_Bol_inv ic st st' :
  matches ic Bol st st' -> before st = [] /\ st' = st.
Proof. inversion 1; subst; simpl; eauto. Qed.

Lemma matches_WordB_inv ic st st' :
  matches ic WordBoundary st st' ->
  xorb (word_before st) (word_after st) = true /\ st' = st.
Proof. inversion 1; subst; simpl; eauto. Qed.

Lemma matches_Group_inv ic r st st' :
  matches ic (Group r) st st' ->
  exists st1, matches ic r st st1 /\
              st' = MState (before st1) (after st1) (Some (consumed st st1)).
Proof. inversion 1; subst; eauto. Qed.

Lemma matches_Star_inv ic p st st' :
  matches ic (Star p) st st' ->
  exists w, Forall (fun c => p c = true) w /\ after st = w ++ after st' /\
            before st' = rev w ++ before st /\ cap st' = cap st.
Proof.
  remember (Star p) as r eqn:Hr. induction 1; inversion Hr; subst.
  - exists []. repeat split. constructor.
  - destruct (IHmatches eq_refl) as (w & Hw & Ha & Hb & Hc). simpl in *.
    exists (x :: w). repeat split; simpl.
    + constructor; assumption.
    + congruence.
    + rewrite Hb, <- app_assoc. reflexivity.
    + assumption.
Qed.

Lemma matches_Star_intro ic p w : forall b a cp,
  Forall (fun c => p c = true) w ->
  matches ic (Star p) (MState b (w ++ a) cp) (MState (rev w ++ b) a cp).
Proof.
  induction w as [|x w IH]; intros b a cp H; simpl.
  - constructor.
  - inversion H; subst. apply M_StarS; [assumption|].
    rewrite <- app_assoc. apply IH. assumption.
Qed.

(** ** Characters *)

Ltac char_arith :=
  unfold is_space, is_word, is_ident_start, is_digit, is_upper, is_lower, in_range in *;
  rewrite ?orb_true_iff, ?orb_false_iff, ?andb_true_iff, ?andb_false_iff,
    ?N.leb_le, ?N.leb_gt, ?N.eqb_eq, ?N.eqb_neq in *;
  lia.

Lemma is_word_not_space x : is_word x = true -> is_space x = false.
Proof. intros H. destruct (is_space x) eqn:E; [|reflexivity]. exfalso. char_arith. Qed.

Lemma is_space_not_word x : is_space x = true -> is_word x = false.
Proof. intros H. destruct (is_word x) eqn:E; [|reflexivity]. apply is_word_not_space in E. congruence. Qed.

Lemma is_word_canon x : is_word (canon x) = is_word x.
Proof.
  unfold canon. destruct (is_lower x) eqn:E; [|reflexivity].
  assert (H : is_word x = true) by char_arith. rewrite H. char_arith.
Qed.

Lemma chr_eq_canon c x : chr_eq true c x = true <-> canon x = canon c.
Proof. unfold chr_eq. rewrite N.eqb_eq. split; congruence. Qed.

(** ** Trimming *)

Lemma drop_spaces_app pre x t :
  is_space x = false -> drop_spaces (pre ++ x :: t) = drop_spaces pre ++ x :: t.
Proof.
  intros Hx. induction pre as [|c pre IH]; simpl.
  - rewrite Hx. reflexivity.
  - destruct (is_space c); [exact IH|reflexivity].
Qed.

(** Trimming keeps an occurrence of a text without whitespace where it is. *)
Lemma trim_app pre w post :
  w <> [] -> Forall (fun c => is_space c = false) w ->
  trim (pre ++ w ++ post) = drop_spaces pre ++ w ++ rev (drop_spaces (rev post)).
Proof.
  intros Hne Hw. unfold trim.
  destruct w as [|x w]; [congruence|]. clear Hne.
  simpl app at 1. rewrite drop_spaces_app by (inversion Hw; assumption).
  change (x :: w ++ post) with ((x :: w) ++ post).
  rewrite !rev_app_distr.
  assert (Hr : Forall (fun c => is_space c = false) (rev (x :: w)))
    by (apply List.Forall_rev; exact Hw).
  assert (Hn : rev (x :: w) <> [])
    by (intros E; apply (f_equal (@length N)) in E; rewrite length_rev in E; discriminate).
  destruct (rev (x :: w)) as [|y t] eqn:E; [congruence|].
  rewrite <- app_assoc. simpl app at 2.
  rewrite drop_spaces_app by (inversion Hr; assumption).
  change (y :: t ++ rev (drop_spaces pre)) with ((y :: t) ++ rev (drop_spaces pre)).
  rewrite <- E, !rev_app_distr, !rev_involutive, <- app_assoc. reflexivity.
Qed.

Lemma drop_spaces_suffix s : exists ws, s = ws ++ drop_spaces s.
Proof.
  induction s as [|c s [ws IH]]; simpl.
  - exists []. reflexivity.
  - destruct (is_space c).
    + exists (c :: ws). simpl. congruence.
    + exists []. reflexivity.
Qed.

Lemma ends_with_word_drop_spaces pre :
  ends_with_word pre = false -> ends_with_word (drop_spaces pre) = false.
Proof.
  destruct (drop_spaces_suffix pre) as [ws E]. unfold ends_with_word.
  destruct (drop_spaces pre) as [|c t] eqn:D; [reflexivity|].
  rewrite E at 1. rewrite rev_app_distr.
  assert (Hn : rev (c :: t) <> [])
    by (intros F; apply (f_equal (@length N)) in F; rewrite length_rev in F; discriminate).
  destruct (rev (c :: t)); [congruence|]. simpl. auto.
Qed.

Lemma starts_with_word_trim_end post :
  starts_with_word post = false -> starts_with_word (rev (drop_spaces (rev post))) = false.
Proof.
  intros H. apply (ends_with_word_drop_spaces (rev post)).
  unfold ends_with_word. rewrite rev_involutive. exact H.
Qed.

(** ** Literal words and alternatives *)

Lemma matches_word w : forall kw b a cp,
  ci_eq w kw ->
  matches true (word kw) (MState b (w ++ a) cp) (MState (rev w ++ b) a cp).
Proof.
  unfold ci_eq. induction w as [|x w IH]; intros kw b a cp E.
  - destruct kw; [|discriminate]. simpl. constructor.
  - destruct kw as [|c kw]; [discriminate|]. simpl in E. injection E as Ec E.
    assert (Hc : chr_eq true c x = true) by (apply chr_eq_canon; exact Ec).
    simpl rev. rewrite <- app_assoc. simpl app.
    destruct kw as [|c' kw].
    + destruct w; [|discriminate]. simpl. constructor. exact Hc.
    + change (word (c :: c' :: kw)) with (Seq (Char c) (word (c' :: kw))).
      econstructor; [constructor; exact Hc|]. apply IH. exact E.
Qed.

Lemma matches_alts ic r rs st st' :
  In r rs -> matches ic r st st' -> matches ic (alts rs) st st'.
Proof.
  intros Hin Hm. induction rs as [|r0 rs IH]; [destruct Hin|].
  destruct rs as [|r1 rs].
  - destruct Hin as [->|[]]. exact Hm.
  - change (alts (r0 :: r1 :: rs)) with (Alt r0 (alts (r1 :: rs))).
    destruct Hin as [->|Hin]; [apply M_AltL; exact Hm|apply M_AltR; auto].
Qed.

Lemma ci_eq_length w kw : ci_eq w kw -> length w = length kw.
Proof. intros E. apply (f_equal (@length N)) in E. rewrite !length_map in E. exact E. Qed.

Lemma ci_eq_word w kw :
  ci_eq w kw -> Forall (fun c => is_word c = true) kw -> Forall (fun c => is_word c = true) w.
Proof.
  unfold ci_eq. revert kw. induction w as [|x w IH]; intros kw E H; [constructor|].
  destruct kw as [|c kw]; [discriminate|]. simpl in E. injection E as Ec E.
  inversion H; subst. constructor; [|eauto].
  rewrite <- is_word_canon, Ec, is_word_canon. assumption.
Qed.

(** ** validateSelectOnly *)

Lemma banned_keywords_words kw :
  In kw banned_keywords -> kw <> [] /\ Forall (fun c => is_word c = true) kw.
Proof.
  intros H. assert (F : Forall (fun kw => kw <> [] /\ Forall (fun c => is_word c = true) kw)
                          banned_keywords)
    by (repeat constructor; discriminate).
  revert kw H. apply List.Forall_forall. exact F.
Qed.

(** A banned keyword standing as a whole word is found by the pattern. *)
Lemma banned_keyword_found kw w pre post :
  In kw banned_keywords -> ci_eq w kw ->
  ends_with_word pre = false -> starts_with_word post = false ->
  test true re_banned (pre ++ w ++ post) = true.
Proof.
  intros Hin Hci Hpre Hpost.
  destruct (banned_keywords_words kw Hin) as [Hne Hkw].
  pose proof (ci_eq_word _ _ Hci Hkw) as Hw.
  pose proof (ci_eq_length _ _ Hci) as Hlen.
  apply test_true_iff. exists pre, (w ++ post). eexists. split; [reflexivity|].
  unfold re_banned. eapply matches_alts; [left; reflexivity|].
  eapply M_Seq; [apply M_WordB|eapply M_Seq; [apply M_Group|apply M_WordB]].
  - unfold word_before, word_after. simpl. fold (ends_with_word pre). rewrite Hpre.
    destruct w as [|x w]; [destruct kw; [congruence|discriminate]|].
    inversion Hw; subst. simpl. assumption.
  - apply (matches_alts true (word kw)); [apply in_map; exact Hin|].
    apply matches_word. exact Hci.
  - unfold word_before, word_after. simpl. rewrite Hpost.
    assert (Hr : Forall (fun c => is_word c = true) (rev w))
      by (apply List.Forall_rev; exact Hw).
    destruct (rev w) as [|y t] eqn:E.
    + apply (f_equal (@length N)) in E. rewrite length_rev in E.
      destruct kw; [congruence|]. simpl in *. lia.
    + inversion Hr; subst. simpl. rewrite H1. reflexivity.
Qed.

Lemma literal_found (i : nat) r tok pre post :
  nth_error [ Seq WordBoundary (Seq (Group (alts (List.map word banned_keywords))) WordBoundary);
              Char 59; word (lit "--"); word (lit "/*") ] i = Some r ->
  r = word tok ->
  test true re_banned (pre ++ tok ++ post) = true.
Proof.
  intros Hi ->. apply test_true_iff. exists pre, (tok ++ post). eexists.
  split; [reflexivity|].
  apply (matches_alts true (word tok)); [eapply nth_error_In; exact Hi|].
  apply matches_word. reflexivity.
Qed.

(** Every banned token of the text is still in the trimmed text, where the
    pattern finds it. *)
Lemma banned_token_found sql :
  contains_banned_token sql -> test true re_banned (trim sql) = true.
Proof.
  intros [(kw & w & Hin & Hci & pre & post & -> & Hpre & Hpost)
         |[Hsemi|[(pre & post & ->)|(pre & post & ->)]]].
  - destruct (banned_keywords_words kw Hin) as [Hne Hkw].
    pose proof (ci_eq_word _ _ Hci Hkw) as Hw.
    rewrite trim_app.
    + apply (banned_keyword_found kw); auto using ends_with_word_drop_spaces,
        starts_with_word_trim_end.
    + intros ->. apply ci_eq_length in Hci. destruct kw; [congruence|discriminate].
    + eapply List.Forall_impl; [|exact Hw]. intros c Hc. apply is_word_not_space, Hc.
  - apply in_split in Hsemi as (pre & post & ->).
    change (59 :: post) with ([59] ++ post).
    rewrite trim_app by (try discriminate; repeat constructor).
    apply (literal_found 1 (Char 59) [59]); reflexivity.
  - rewrite trim_app by (try discriminate; repeat constructor).
    apply (literal_found 2 (word (lit "--"))); reflexivity.
  - rewrite trim_app by (try discriminate; repeat constructor).
    apply (literal_found 3 (word (lit "/*"))); reflexivity.
Qed.

(** C1. Every SQL text that holds a banned keyword as a whole word in any
    case, a semicolon, a line-comment marker or a block-comment marker is
    rejected by [validateSelectOnly]: it throws instead of returning. *)
Theorem validateSelectOnly_rejects_banned (sql : str) :
  contains_banned_token sql -> exists msg, validateSelectOnly sql = Throw msg.
Proof.
  intros H. unfold validateSelectOnly.
  destruct (test true re_select_only (trim sql)); simpl; [|eauto].
  rewrite (banned_token_found sql H). eauto.
Qed.

Lemma validateSelectOnly_rejects_banned_witness :
  contains_banned_token (lit "SELECT 1; DROP TABLE X") /\
  exists msg, validateSelectOnly (lit "SELECT 1; DROP TABLE X") = Throw msg.
Proof.
  assert (H : contains_banned_token (lit "SELECT 1; DROP TABLE X")).
  { left. exists (lit "drop"), (lit "DROP"). split; [|split].
    - vm_compute. tauto.
    - reflexivity.
    - exists (lit "SELECT 1; "), (lit " TABLE X"). repeat split; reflexivity. }
  split; [exact H|]. apply (validateSelectOnly_rejects_banned _ H).
Defined.

(** What a match of a literal word consumes. *)
Lemma matches_word_inv kw : forall st st',
  matches true (word kw) st st' ->
  exists w, ci_eq w kw /\ after st = w ++ after st' /\
            before st' = rev w ++ before st /\ cap st' = cap st.
Proof.
  induction kw as [|c kw IH]; intros st st' H.
  - simpl in H. inversion H; subst. exists []. repeat split.
  - assert (Hc : forall st st', matches true (Char c) st st' ->
              exists x, canon x = canon c /\ after st = x :: after st' /\
                        before st' = x :: before st /\ cap st' = cap st).
    { intros s1 s2 Hm. apply matches_Char_inv in Hm as (x & a & Ha & Hx & ->).
      exists x. repeat split; [apply chr_eq_canon; assumption|assumption]. }
    destruct kw as [|c' kw].
    + apply Hc in H as (x & Hx & Ha & Hb & Hcp). exists [x]. repeat split; try assumption.
      unfold ci_eq. simpl. f_equal. assumption.
    + change (word (c :: c' :: kw)) with (Seq (Char c) (word (c' :: kw))) in H.
      apply matches_Seq_inv in H as (st1 & H1 & H2).
      apply Hc in H1 as (x & Hx & Ha1 & Hb1 & Hcp1).
      apply IH in H2 as (w & Hci & Ha & Hb & Hcp).
      exists (x :: w). repeat split.
      * unfold ci_eq in *. simpl. f_equal; assumption.
      * simpl. congruence.
      * simpl. rewrite Hb, Hb1, <- app_assoc. reflexivity.
      * congruence.
Qed.

Lemma rev_nil_inv (l : str) : rev l = [] -> l = [].
Proof. intros H. apply (f_equal (@rev N)) in H. rewrite rev_involutive in H. exact H. Qed.

(** [/^select\s/i] holds of exactly the texts that start with SELECT and a
    whitespace character. *)
Lemma test_select_only_iff s :
  test true re_select_only s = true <-> starts_with_select_ws s.
Proof.
  rewrite test_true_iff. unfold re_select_only, starts_with_select_ws. split.
  - intros (pre & a & st' & -> & H).
    apply matches_Seq_inv in H as (st1 & H1 & H).
    apply matches_Bol_inv in H1 as (Hb & ->). simpl in Hb.
    apply rev_nil_inv in Hb. subst pre. simpl.
    apply matches_Seq_inv in H as (st2 & H2 & H).
    apply matches_word_inv in H2 as (w & Hci & Ha & _). simpl in Ha.
    apply matches_Class_inv in H as (x & a' & Hx & Hp & _).
    exists w, x, a'. rewrite Ha, Hx. auto.
  - intros (w & c & rest & -> & Hci & Hc).
    exists [], (w ++ c :: rest). eexists. split; [reflexivity|].
    eapply M_Seq; [apply M_Bol|]. eapply M_Seq; [apply matches_word; exact Hci|].
    apply M_Class. exact Hc.
Qed.

Lemma validateSelectOnly_only_select sql :
  validateSelectOnly sql = Throw msg_only_select <->
  test true re_select_only (trim sql) = false.
Proof.
  unfold validateSelectOnly.
  destruct (test true re_select_only (trim sql)); simpl.
  - destruct (test true re_banned (trim sql)); split; discriminate.
  - split; reflexivity.
Qed.

Lemma starts_with_select_ws_wb s : starts_with_select_ws s -> starts_with_select_wb s.
Proof.
  intros (w & c & rest & -> & Hci & Hc). exists w, (c :: rest).
  repeat split; [assumption|]. simpl. apply is_space_not_word, Hc.
Qed.

(** C3, as the code has it. [validateSelectOnly] trims the text and throws
    its only-SELECT error exactly when the trimmed text does not start with
    the SELECT keyword (any case) followed by a whitespace character; in
    particular every text that does not start with the SELECT keyword at a
    word boundary is rejected. *)
Theorem validateSelectOnly_select_check (sql : str) :
  (validateSelectOnly sql = Throw msg_only_select <-> ~ starts_with_select_ws (trim sql)) /\
  (~ starts_with_select_wb (trim sql) -> validateSelectOnly sql = Throw msg_only_select).
Proof.
  assert (H : validateSelectOnly sql = Throw msg_only_select <->
              ~ starts_with_select_ws (trim sql)).
  { rewrite validateSelectOnly_only_select, <- test_select_only_iff.
    destruct (test true re_select_only (trim sql)); split; congruence. }
  split; [exact H|]. intros Hn. apply H. intros Hs. apply Hn, starts_with_select_ws_wb, Hs.
Qed.

Lemma validateSelectOnly_select_check_witness :
  ~ starts_with_select_wb (trim (lit "  DROP TABLE X ")) /\
  validateSelectOnly (lit "  DROP TABLE X ") = Throw msg_only_select.
Proof.
  assert (H : ~ starts_with_select_wb (trim (lit "  DROP TABLE X "))).
  { intros (w & rest & E & Hci & _). apply ci_eq_length in Hci as L.
    change (length (lit "select")) with 6%nat in L.
    destruct w as [|x1 [|x2 [|x3 [|x4 [|x5 [|x6 [|x7 w]]]]]]]; try discriminate L.
    vm_compute in E. injection E as ? ? ? ? ? ? ?; subst.
    vm_compute in Hci. discriminate Hci. }
  split; [exact H|].
  apply (proj2 (validateSelectOnly_select_check (lit "  DROP TABLE X ")) H).
Defined.

(** C3, as stated, fails: a text that starts with the SELECT keyword at a
    word boundary, but with no whitespace after it, does not pass the check. *)
Lemma validateSelectOnly_word_boundary_counterexample :
  starts_with_select_wb (trim (lit "SELECT*FROM t")) /\
  validateSelectOnly (lit "SELECT*FROM t") = Throw msg_only_select.
Proof.
  split; [|reflexivity].
  exists (lit "SELECT"), (lit "*FROM t"). repeat split; reflexivity.
Qed.

(** ** injectTopLimit *)

#[local] Arguments word : simpl never.
#[local] Arguments lit : simpl never.

Lemma ci_eq_select_head kw :
  ci_eq kw (lit "select") -> exists x kw', kw = x :: kw' /\ canon x = 83 /\ is_word x = true.
Proof.
  intros H. destruct kw as [|x kw']; [discriminate|]. exists x, kw'.
  injection H as Hx _. split; [reflexivity|]. split; [exact Hx|].
  rewrite <- is_word_canon, Hx. reflexivity.
Qed.

Lemma spaces_not_word_head ws :
  Forall (fun c => is_space c = true) ws -> starts_with_word ws = false.
Proof. destruct 1; simpl; auto using is_space_not_word. Qed.

Lemma spaces_not_word_last ws :
  Forall (fun c => is_space c = true) ws -> ends_with_word ws = false.
Proof. intros H. apply spaces_not_word_head, List.Forall_rev, H. Qed.

(** [select\s+top\s*(\(|\d)] matches exactly where the text reads so,
    whatever stands before. *)
Lemma matches_select_top_inv st st' :
  matches true re_select_top st st' -> select_top_prefix (after st).
Proof.
  unfold re_select_top, Plus. intros H.
  apply matches_Seq_inv in H as (st1 & H1 & H).
  apply matches_word_inv in H1 as (kw & Hkw & Ha1 & _).
  apply matches_Seq_inv in H as (st2 & H2 & H).
  apply matches_Seq_inv in H2 as (st3 & H3 & H2).
  apply matches_Class_inv in H3 as (x & a3 & Ha3 & Hx & ->).
  apply matches_Star_inv in H2 as (ws & Hws & Ha2 & _). simpl in Ha2.
  apply matches_Seq_inv in H as (st4 & H4 & H).
  apply matches_word_inv in H4 as (t & Ht & Ha4 & _).
  apply matches_Seq_inv in H as (st5 & H5 & H).
  apply matches_Star_inv in H5 as (ws2 & Hws2 & Ha5 & _).
  apply matches_Group_inv in H as (st6 & H & _).
  assert (Hc : exists c0 rest, after st5 = c0 :: rest /\
                 (chr_eq true 40 c0 = true \/ is_digit c0 = true)).
  { apply matches_Alt_inv in H as [H|H].
    - apply matches_Char_inv in H as (c0 & rest & ? & ? & _). eauto.
    - apply matches_Class_inv in H as (c0 & rest & ? & ? & _). eauto. }
  destruct Hc as (c0 & rest & Ha6 & Hc0).
  exists kw, x, ws, t, ws2, c0, rest.
  rewrite Ha1, Ha3, Ha2, Ha4, Ha5, Ha6. repeat split; assumption.
Qed.

Lemma matches_select_top b a cp :
  select_top_prefix a -> exists st', matches true re_select_top (MState b a cp) st'.
Proof.
  intros (kw & x & ws & t & ws2 & c0 & rest & -> & Hkw & Hx & Hws & Ht & Hws2 & Hc0).
  unfold re_select_top, Plus. eexists.
  eapply M_Seq; [apply matches_word; exact Hkw|].
  eapply M_Seq; [eapply M_Seq; [apply M_Class; exact Hx|apply matches_Star_intro; exact Hws]|].
  eapply M_Seq; [apply matches_word; exact Ht|].
  eapply M_Seq; [apply matches_Star_intro; exact Hws2|].
  apply M_Group. destruct Hc0 as [Hc|Hd].
  - apply M_AltL. constructor. exact Hc.
  - apply M_AltR. constructor. exact Hd.
Qed.

Lemma select_top_prefix_select a :
  select_top_prefix a -> exists kw rest, a = kw ++ rest /\ ci_eq kw (lit "select").
Proof. intros (kw & x & ws & t & ws2 & c0 & rest & -> & Hkw & _). eauto. Qed.

(** The detection pattern at one position: a word boundary, then the text
    reads SELECT ... TOP. *)
Lemma match_at_has_top_iff b a :
  match_at true re_has_top (MState b a None) <> None <->
  xorb (starts_with_word b) (starts_with_word a) = true /\ select_top_prefix a.
Proof.
  unfold match_at, re_has_top. split.
  - intros H. destruct (m true (Seq WordBoundary re_select_top) (MState b a None) Some)
      as [e|] eqn:Hm; [clear H|congruence].
    apply m_sound in Hm as (st' & H & _).
    apply matches_Seq_inv in H as (st1 & H1 & H).
    apply matches_WordB_inv in H1 as (Hx & ->).
    apply matches_select_top_inv in H. auto.
  - intros [Hx Hp]. destruct (matches_select_top b a None Hp) as [st' H].
    assert (Hm : matches true (Seq WordBoundary re_select_top) (MState b a None) st')
      by (eapply M_Seq; [apply M_WordB; exact Hx|exact H]).
    destruct (m_complete _ _ _ _ Hm Some st' eq_refl) as [e' ->]. discriminate.
Qed.

(** The word boundary before a SELECT that follows whitespace or starts the text. *)
Lemma boundary_before_select b kw a cp :
  b = [] \/ (exists y b', b = y :: b' /\ is_word y = false) ->
  ci_eq kw (lit "select") ->
  xorb (word_before (MState b (kw ++ a) cp)) (word_after (MState b (kw ++ a) cp)) = true.
Proof.
  intros Hb Hkw. apply ci_eq_select_head in Hkw as (x & kw' & -> & _ & Hx).
  unfold word_before, word_after. simpl. rewrite Hx.
  destruct Hb as [->|(y & b' & -> & Hy)]; simpl; [|rewrite Hy]; reflexivity.
Qed.

Lemma rev_spaces_head ws :
  Forall (fun c => is_space c = true) ws ->
  rev ws = [] \/ (exists y b', rev ws = y :: b' /\ is_word y = false).
Proof.
  intros H. apply List.Forall_rev in H. destruct H as [|y b' Hy _]; [auto|].
  right. exists y, b'. auto using is_space_not_word.
Qed.

(** A text with a TOP clause right after its leading SELECT has one
    somewhere. *)
Lemma has_leading_top_has_top s :
  has_leading_top s = true -> test true re_has_top s = true.
Proof.
  unfold has_leading_top. rewrite !test_true_iff.
  intros (pre & a & st' & -> & H). unfold re_leading_top in H.
  apply matches_Seq_inv in H as (st1 & H1 & H).
  apply matches_Bol_inv in H1 as (Hb & ->). simpl in Hb. apply rev_nil_inv in Hb. subst pre.
  apply matches_Seq_inv in H as ([b1 a1 c1] & H1 & H).
  apply matches_Star_inv in H1 as (ws & Hws & Ha & Hb & Hc). simpl in *.
  rewrite app_nil_r in Hb. subst.
  pose proof (matches_select_top_inv _ _ H) as Hp. simpl in Hp.
  destruct (select_top_prefix_select _ Hp) as (kw & rest & -> & Hkw).
  exists ws, (kw ++ rest), st'. split; [reflexivity|].
  eapply M_Seq; [apply M_WordB|exact H].
  apply boundary_before_select; [apply rev_spaces_head; exact Hws|exact Hkw].
Qed.

(** What replacing [^(\s*select\s+)] does: nothing, or the clause goes in
    right after the leading SELECT and the whitespace that follows it. *)
Lemma replace_leading_select_shape s n :
  (search true re_leading_select [] s = None /\
   replace_first true re_leading_select (top_template n) s = s) \/
  exists ws0 kw x ws1 rest,
    s = ws0 ++ kw ++ x :: ws1 ++ rest /\
    Forall (fun c => is_space c = true) ws0 /\ ci_eq kw (lit "select") /\
    is_space x = true /\ Forall (fun c => is_space c = true) ws1 /\
    replace_first true re_leading_select (top_template n) s =
      ws0 ++ kw ++ x :: ws1 ++ lit "TOP(" ++ num_to_string n ++ lit ") " ++ rest.
Proof.
  unfold replace_first.
  destruct (search true re_leading_select [] s) as [[st e]|] eqn:Hs; [right|left; split; reflexivity].
  apply search_Some in Hs as (pre & a & -> & -> & Hm).
  apply m_sound in Hm as (st' & H & [= <-]). unfold re_leading_select, Plus in H.
  apply matches_Seq_inv in H as (st1 & H1 & H).
  apply matches_Bol_inv in H1 as (Hb & ->). simpl in Hb. rewrite app_nil_r in Hb.
  apply rev_nil_inv in Hb. subst pre. simpl in *.
  apply matches_Group_inv in H as (st1 & H & ->).
  destruct (matches_extends _ _ _ _ H) as [w Hw].
  rewrite (consumed_extends _ _ _ Hw). destruct Hw as [_ Hw]. simpl in *.
  apply matches_Seq_inv in H as (st2 & H2 & H).
  apply matches_Star_inv in H2 as (ws0 & Hws0 & Ha2 & _).
  apply matches_Seq_inv in H as (st3 & H3 & H).
  apply matches_word_inv in H3 as (kw & Hkw & Ha3 & _).
  apply matches_Seq_inv in H as (st4 & H4 & H).
  apply matches_Class_inv in H4 as (x & a4 & Ha4 & Hx & ->).
  apply matches_Star_inv in H as (ws1 & Hws1 & Ha5 & _).
  simpl in *. subst a4.
  assert (E : a = (ws0 ++ kw ++ x :: ws1) ++ after st1)
    by (rewrite Ha2, Ha3, Ha4; repeat (rewrite <- app_assoc; simpl); reflexivity).
  assert (Ew : w = ws0 ++ kw ++ x :: ws1)
    by (apply (app_inv_tail (after st1)); congruence).
  exists ws0, kw, x, ws1, (after st1). subst w. unfold top_template.
  repeat split; try assumption.
  - rewrite E. repeat (rewrite <- app_assoc; simpl). reflexivity.
  - repeat (rewrite <- app_assoc; simpl). reflexivity.
Qed.

(** Once the clause is in, the detection pattern finds it. *)
Lemma select_top_prefix_inserted kw x ws1 t rest :
  ci_eq kw (lit "select") -> is_space x = true ->
  Forall (fun c => is_space c = true) ws1 ->
  select_top_prefix (kw ++ x :: ws1 ++ lit "TOP(" ++ t ++ rest).
Proof.
  intros Hkw Hx Hws1. exists kw, x, ws1, (lit "TOP"), [], 40, (t ++ rest).
  repeat split; auto.
Qed.

Lemma has_top_after_insert ws0 kw x ws1 t rest :
  Forall (fun c => is_space c = true) ws0 -> ci_eq kw (lit "select") ->
  is_space x = true -> Forall (fun c => is_space c = true) ws1 ->
  test true re_has_top (ws0 ++ kw ++ x :: ws1 ++ lit "TOP(" ++ t ++ rest) = true.
Proof.
  intros Hws0 Hkw Hx Hws1. apply test_true_iff.
  exists ws0, (kw ++ x :: ws1 ++ lit "TOP(" ++ t ++ rest).
  destruct (matches_select_top (rev ws0) _ None
              (select_top_prefix_inserted kw x ws1 t rest Hkw Hx Hws1)) as [st' H].
  exists st'. split; [reflexivity|].
  eapply M_Seq; [apply M_WordB|exact H].
  apply boundary_before_select; [apply rev_spaces_head; exact Hws0|exact Hkw].
Qed.

(** [injectTopLimit] returns its argument, or puts the clause in. *)
Lemma injectTopLimit_cases s n :
  injectTopLimit s n = s \/
  (test true re_has_top s = false /\
   exists ws0 kw x ws1 rest,
     s = ws0 ++ kw ++ x :: ws1 ++ rest /\
     Forall (fun c => is_space c = true) ws0 /\ ci_eq kw (lit "select") /\
     is_space x = true /\ Forall (fun c => is_space c = true) ws1 /\
     injectTopLimit s n =
       ws0 ++ kw ++ x :: ws1 ++ lit "TOP(" ++ num_to_string n ++ lit ") " ++ rest).
Proof.
  unfold injectTopLimit. destruct (test true re_has_top s) eqn:Htop; [left; reflexivity|].
  destruct (replace_leading_select_shape s n) as [[_ ->]|H]; [left; reflexivity|].
  right. split; [reflexivity|exact H].
Qed.

(** C7. [injectTopLimit] is idempotent: for every text and every limit,
    applying it to its own output changes nothing; and a text that already
    has a row-limiting clause (parenthesized or bare numeric) directly after
    its leading SELECT keyword is returned unchanged. *)
Theorem injectTopLimit_idempotent (sql : str) (n : num) :
  injectTopLimit (injectTopLimit sql n) n = injectTopLimit sql n /\
  (has_leading_top sql = true -> injectTopLimit sql n = sql).
Proof.
  split.
  - destruct (injectTopLimit_cases sql n)
      as [E|(_ & ws0 & kw & x & ws1 & rest & _ & Hws0 & Hkw & Hx & Hws1 & E)].
    + rewrite !E. reflexivity.
    + rewrite E. unfold injectTopLimit.
      rewrite (has_top_after_insert ws0 kw x ws1 _ _ Hws0 Hkw Hx Hws1). reflexivity.
  - intros H. unfold injectTopLimit. rewrite (has_leading_top_has_top _ H). reflexivity.
Qed.

Lemma injectTopLimit_idempotent_witness :
  has_leading_top (lit "SELECT TOP(5) * FROM vwUsers") = true /\
  injectTopLimit (lit "SELECT TOP(5) * FROM vwUsers") (Int 200) =
    lit "SELECT TOP(5) * FROM vwUsers".
Proof.
  split; [reflexivity|].
  apply (proj2 (injectTopLimit_idempotent (lit "SELECT TOP(5) * FROM vwUsers") (Int 200))).
  reflexivity.
Defined.

(** *** Exactly one clause *)

Lemma top_clause_here_head x s : canon x <> 84 -> top_clause_here (x :: s) = false.
Proof.
  intros Hx. unfold top_clause_here. destruct s as [|o [|p rest]]; try reflexivity.
  apply N.eqb_neq in Hx. rewrite Hx. reflexivity.
Qed.

Lemma top_clause_here_second x y s : canon y <> 79 -> top_clause_here (x :: y :: s) = false.
Proof.
  intros Hy. unfold top_clause_here. destruct s as [|p rest]; try reflexivity.
  apply N.eqb_neq in Hy. rewrite Hy, andb_false_r. reflexivity.
Qed.

(** No clause opens inside a run of characters other than T that ends
    with a character that is no word character. *)
Lemma count_row_limits_skip u c v : forall p,
  Forall (fun x => canon x <> 84) (u ++ [c]) -> is_word c = false ->
  count_row_limits_from p ((u ++ [c]) ++ v) = count_row_limits_from false v.
Proof.
  induction u as [|x u IH]; intros p H Hc.
  - inversion H; subst. cbn [app count_row_limits_from].
    rewrite top_clause_here_head by assumption. rewrite andb_false_r, Hc. reflexivity.
  - inversion H; subst. cbn [app count_row_limits_from].
    rewrite top_clause_here_head by assumption. rewrite andb_false_r.
    apply IH; assumption.
Qed.

Lemma space_not_letter c : is_space c = true -> canon c = c /\ c <> 84 /\ c <> 79.
Proof.
  intros H. unfold canon. destruct (is_lower c) eqn:E; [exfalso|]; char_arith.
Qed.

Lemma spaces_no_T ws :
  Forall (fun c => is_space c = true) ws -> Forall (fun x => canon x <> 84) ws.
Proof.
  intros H. eapply List.Forall_impl; [|exact H]. intros c Hc.
  destruct (space_not_letter c Hc) as (-> & H1 & _). exact H1.
Qed.

Lemma count_row_limits_spaces x ws v p :
  is_space x = true -> Forall (fun c => is_space c = true) ws ->
  count_row_limits_from p (x :: ws ++ v) = count_row_limits_from false v.
Proof.
  intros Hx Hws.
  assert (Hall : Forall (fun c => is_space c = true) (x :: ws)) by (constructor; assumption).
  destruct (exists_last (l := x :: ws) ltac:(discriminate)) as (u & c & E).
  change (x :: ws ++ v) with ((x :: ws) ++ v). rewrite E in *.
  apply Forall_app in Hall as [Hu Hc]. inversion Hc; subst.
  apply count_row_limits_skip.
  - apply Forall_app. split; apply spaces_no_T; [exact Hu|constructor; [assumption|constructor]].
  - apply is_space_not_word. assumption.
Qed.

(** The leading SELECT and the whitespace after it open no clause. *)
Lemma count_row_limits_select kw x ws v :
  ci_eq kw (lit "select") -> is_space x = true ->
  Forall (fun c => is_space c = true) ws ->
  count_row_limits (kw ++ x :: ws ++ v) = count_row_limits_from false v.
Proof.
  intros Hkw Hx Hws. unfold count_row_limits.
  destruct kw as [|c1 [|c2 [|c3 [|c4 [|c5 [|c6 [|c7 kw]]]]]]]; try discriminate Hkw.
  change (List.map canon [c1; c2; c3; c4; c5; c6] = [83; 69; 76; 69; 67; 84]) in Hkw.
  injection Hkw as H1 H2 H3 H4 H5 H6.
  cbn [app count_row_limits_from].
  rewrite (top_clause_here_head c1), (top_clause_here_head c2), (top_clause_here_head c3),
    (top_clause_here_head c4), (top_clause_here_head c5) by (intros E; congruence).
  rewrite (top_clause_here_second c6 x).
  2:{ destruct (space_not_letter x Hx) as (-> & _ & H). exact H. }
  rewrite !andb_false_r. cbn [Nat.add].
  apply count_row_limits_spaces; assumption.
Qed.

Lemma uint_digits_no_T u : Forall (fun c => canon c <> 84) (uint_digits u).
Proof. induction u; simpl; constructor; try assumption; discriminate. Qed.

Lemma num_to_string_no_T n : Forall (fun c => canon c <> 84) (num_to_string n).
Proof.
  destruct n as [|[|p|p]]; simpl.
  - repeat constructor; discriminate.
  - repeat constructor; discriminate.
  - apply uint_digits_no_T.
  - constructor; [discriminate|apply uint_digits_no_T].
Qed.

(** The clause put in counts for one, and hides none of those after it. *)
Lemma count_row_limits_clause n v :
  count_row_limits_from false (lit "TOP(" ++ num_to_string n ++ lit ") " ++ v) =
  S (count_row_limits_from false v).
Proof.
  change (lit "TOP(") with [84; 79; 80; 40]. change (lit ") ") with [41; 32].
  cbn [app count_row_limits_from].
  assert (Hh : top_clause_here (84 :: 79 :: 80 :: 40 :: num_to_string n ++ 41 :: 32 :: v) = true)
    by reflexivity.
  rewrite Hh. cbn [negb andb].
  rewrite !top_clause_here_head by discriminate. rewrite !andb_false_r. cbn [Nat.add].
  f_equal.
  replace (num_to_string n ++ 41 :: 32 :: v) with (((num_to_string n ++ [41]) ++ [32]) ++ v)
    by (rewrite <- !app_assoc; reflexivity).
  apply count_row_limits_skip; [|reflexivity].
  apply Forall_app. split; [|repeat constructor; discriminate].
  apply Forall_app. split; [apply num_to_string_no_T|repeat constructor; discriminate].
Qed.

(** A clause after a character that is no word character is counted. *)
Lemma count_row_limits_found u c v : forall p,
  is_word c = false -> top_clause_here v = true ->
  (1 <= count_row_limits_from p (u ++ c :: v))%nat.
Proof.
  induction u as [|x u IH]; intros p Hc Hv.
  - cbn [app count_row_limits_from]. rewrite Hc.
    destruct v as [|y v]; [discriminate|].
    cbn [count_row_limits_from]. rewrite Hv. simpl. lia.
  - cbn [app count_row_limits_from]. specialize (IH (is_word x) Hc Hv). lia.
Qed.

Lemma top_clause_here_top t ws2 c0 rest :
  ci_eq t (lit "top") -> Forall (fun c => is_space c = true) ws2 ->
  chr_eq true 40 c0 = true \/ is_digit c0 = true ->
  top_clause_here (t ++ ws2 ++ c0 :: rest) = true.
Proof.
  intros Ht Hws Hc.
  destruct t as [|t1 [|t2 [|t3 [|t4 t]]]]; try discriminate Ht.
  change (List.map canon [t1; t2; t3] = [84; 79; 80]) in Ht.
  injection Ht as H1 H2 H3. cbn [app top_clause_here].
  rewrite H1, H2, H3. cbn [N.eqb Pos.eqb andb].
  assert (Hs : is_space c0 = false).
  { destruct Hc as [Hc|Hc].
    - apply chr_eq_canon in Hc. unfold canon in Hc at 2. simpl in Hc.
      destruct (is_space c0) eqn:E; [|reflexivity].
      destruct (space_not_letter c0 E) as (Ec & _). rewrite Ec in Hc. subst c0. discriminate.
    - destruct (is_space c0) eqn:E; [|reflexivity]. exfalso. char_arith. }
  rewrite drop_spaces_app by exact Hs.
  assert (Hd : drop_spaces ws2 = []).
  { clear -Hws. induction Hws as [|c ws Hc _ IH]; [reflexivity|]. simpl. rewrite Hc. exact IH. }
  rewrite Hd. cbn [app].
  destruct Hc as [Hc|Hc]; [|rewrite Hc; apply orb_true_r].
  apply chr_eq_canon in Hc. unfold canon in Hc.
  destruct (is_lower c0) eqn:E; simpl in Hc.
  - exfalso. char_arith.
  - subst c0. reflexivity.
Qed.

(** A text with no row-limiting clause has no SELECT ... TOP either. *)
Lemma no_row_limit_no_select_top s :
  count_row_limits s = 0%nat -> test true re_has_top s = false.
Proof.
  intros Hc. destruct (test true re_has_top s) eqn:Ht; [exfalso|reflexivity].
  apply test_true_iff in Ht as (pre & a & st' & -> & H). unfold re_has_top in H.
  apply matches_Seq_inv in H as (st1 & H1 & H).
  apply matches_WordB_inv in H1 as (_ & ->).
  apply matches_select_top_inv in H. cbn [after] in H.
  destruct H as (kw & x & ws & t & ws2 & c0 & rest & -> & Hkw & Hx & Hws & Ht & Hws2 & Hc0).
  assert (Hall : Forall (fun c => is_space c = true) (x :: ws)) by (constructor; assumption).
  destruct (exists_last (l := x :: ws) ltac:(discriminate)) as (u & c & E).
  rewrite E in Hall. apply Forall_app in Hall as [_ Hl]. inversion Hl; subst.
  pose proof (count_row_limits_found (pre ++ kw ++ u) c (t ++ ws2 ++ c0 :: rest) false
                (is_space_not_word _ ltac:(eassumption))
                (top_clause_here_top t ws2 c0 rest Ht Hws2 Hc0)) as Hone.
  unfold count_row_limits in Hc.
  replace (pre ++ kw ++ x :: ws ++ t ++ ws2 ++ c0 :: rest)
    with ((pre ++ kw ++ u) ++ c :: t ++ ws2 ++ c0 :: rest) in Hc.
  - lia.
  - change (x :: ws ++ t ++ ws2 ++ c0 :: rest) with ((x :: ws) ++ t ++ ws2 ++ c0 :: rest).
    rewrite E. repeat (rewrite <- app_assoc; cbn [app]). reflexivity.
Qed.

Lemma validateSelectOnly_Ok sql s :
  validateSelectOnly sql = Ok s ->
  s = trim sql /\ starts_with_select_ws s /\ test true re_banned s = false.
Proof.
  unfold validateSelectOnly.
  destruct (test true re_select_only (trim sql)) eqn:Hsel; simpl; [|discriminate].
  destruct (test true re_banned (trim sql)) eqn:Hban; [discriminate|].
  intros [= <-]. repeat split; [apply test_select_only_iff; exact Hsel|exact Hban].
Qed.

(** A text that starts with SELECT and whitespace is matched by [^(\s*select\s+)]. *)
Lemma leading_select_found s :
  starts_with_select_ws s -> search true re_leading_select [] s <> None.
Proof.
  intros (w & c & rest & -> & Hw & Hc) Hs.
  pose proof (search_None _ _ _ _ Hs [] _ eq_refl) as Hn. simpl in Hn.
  assert (Hm : matches true re_leading_select (MState [] (w ++ c :: rest) None)
                 (MState (c :: rev w ++ []) rest
                    (Some (consumed (MState [] (w ++ c :: rest) None)
                                    (MState (c :: rev w ++ []) rest None))))).
  { unfold re_leading_select, Plus. eapply M_Seq; [apply M_Bol|].
    apply (M_Group true _ _ (MState (c :: rev w ++ []) rest None)).
    eapply M_Seq; [apply M_Star0|]. eapply M_Seq; [apply matches_word; exact Hw|].
    eapply M_Seq; [apply M_Class; exact Hc|apply M_Star0]. }
  destruct (m_complete _ _ _ _ Hm Some _ eq_refl) as [e' He']. unfold match_at in Hn.
  congruence.
Qed.

(** On a validated statement without SELECT ... TOP, the clause goes in
    right after the leading SELECT and its whitespace. *)
Lemma injectTopLimit_inserts s n :
  starts_with_select_ws s -> test true re_has_top s = false ->
  exists kw x ws1 rest,
    s = kw ++ x :: ws1 ++ rest /\ ci_eq kw (lit "select") /\
    is_space x = true /\ Forall (fun c => is_space c = true) ws1 /\
    injectTopLimit s n = kw ++ x :: ws1 ++ lit "TOP(" ++ num_to_string n ++ lit ") " ++ rest.
Proof.
  intros Hsel Htop. unfold injectTopLimit. rewrite Htop.
  destruct (replace_leading_select_shape s n)
    as [[Hs _]|(ws0 & kw & x & ws1 & rest & E & Hws0 & Hkw & Hx & Hws1 & R)].
  - destruct (leading_select_found s Hsel Hs).
  - destruct ws0 as [|c ws0].
    + exists kw, x, ws1, rest. auto.
    + exfalso. destruct Hsel as (w & c' & rest' & E' & Hw & _).
      apply ci_eq_select_head in Hw as (y & w' & -> & _ & Hy).
      rewrite E' in E. injection E as -> _. inversion Hws0; subst.
      apply is_space_not_word in H1. congruence.
Qed.

Lemma has_leading_top_inserted kw x ws1 t rest :
  ci_eq kw (lit "select") -> is_space x = true ->
  Forall (fun c => is_space c = true) ws1 ->
  has_leading_top (kw ++ x :: ws1 ++ lit "TOP(" ++ t ++ rest) = true.
Proof.
  intros Hkw Hx Hws1. apply test_true_iff.
  exists [], (kw ++ x :: ws1 ++ lit "TOP(" ++ t ++ rest).
  destruct (matches_select_top [] _ None
              (select_top_prefix_inserted kw x ws1 t rest Hkw Hx Hws1)) as [st' H].
  exists st'. split; [reflexivity|]. unfold re_leading_top.
  eapply M_Seq; [apply M_Bol|]. eapply M_Seq; [apply M_Star0|exact H].
Qed.

(** C2, as the code has it. For a validated statement and a limit in
    [1, 5000]: when the statement holds no row-limiting clause at all,
    [injectTopLimit] puts [TOP(n)] right after the leading SELECT and its
    whitespace, and the output holds exactly one row-limiting clause, the
    one directly after the leading SELECT; when the statement already has
    the clause directly after its leading SELECT, it is returned as it is,
    with the clauses it had. *)
Theorem injectTopLimit_one_clause (sql s : str) (z : Z) :
  validateSelectOnly sql = Ok s -> (1 <= z <= 5000)%Z ->
  (count_row_limits s = 0%nat ->
   exists kw ws rest,
     s = kw ++ ws ++ rest /\ ci_eq kw (lit "select") /\
     ws <> [] /\ Forall (fun c => is_space c = true) ws /\
     injectTopLimit s (Int z) =
       kw ++ ws ++ lit "TOP(" ++ int_to_string z ++ lit ") " ++ rest /\
     has_leading_top (injectTopLimit s (Int z)) = true /\
     count_row_limits (injectTopLimit s (Int z)) = 1%nat) /\
  (has_leading_top s = true ->
   injectTopLimit s (Int z) = s /\ has_leading_top (injectTopLimit s (Int z)) = true /\
   count_row_limits (injectTopLimit s (Int z)) = count_row_limits s).
Proof.
  intros Hv _. apply validateSelectOnly_Ok in Hv as (_ & Hsel & _). split.
  - intros Hnone. pose proof (no_row_limit_no_select_top s Hnone) as Htop.
    destruct (injectTopLimit_inserts s (Int z) Hsel Htop)
      as (kw & x & ws1 & rest & E & Hkw & Hx & Hws1 & R).
    exists kw, (x :: ws1), rest. rewrite R. simpl num_to_string.
    split; [exact E|]. split; [exact Hkw|]. split; [discriminate|].
    split; [constructor; assumption|]. split; [reflexivity|]. split.
    + apply (has_leading_top_inserted kw x ws1 (int_to_string z) (lit ") " ++ rest));
        assumption.
    + rewrite E in Hnone. rewrite (count_row_limits_select kw x ws1 _ Hkw Hx Hws1) in Hnone.
      rewrite (count_row_limits_select kw x ws1 _ Hkw Hx Hws1).
      change (int_to_string z) with (num_to_string (Int z)).
      rewrite (count_row_limits_clause (Int z) rest), Hnone. reflexivity.
  - intros H. unfold injectTopLimit. rewrite (has_leading_top_has_top _ H). auto.
Qed.

Lemma injectTopLimit_one_clause_witness :
  validateSelectOnly (lit "SELECT * FROM SalesLT.Customer WHERE CustomerID = :id") =
    Ok (lit "SELECT * FROM SalesLT.Customer WHERE CustomerID = :id") /\
  (1 <= 10 <= 5000)%Z /\
  count_row_limits (lit "SELECT * FROM SalesLT.Customer WHERE CustomerID = :id") = 0%nat /\
  injectTopLimit (lit "SELECT * FROM SalesLT.Customer WHERE CustomerID = :id") (Int 10) =
    lit "SELECT TOP(10) * FROM SalesLT.Customer WHERE CustomerID = :id" /\
  count_row_limits
    (injectTopLimit (lit "SELECT * FROM SalesLT.Customer WHERE CustomerID = :id") (Int 10))
    = 1%nat.
Proof.
  split; [reflexivity|]. split; [lia|]. split; [reflexivity|]. split; [reflexivity|].
  destruct (injectTopLimit_one_clause
              (lit "SELECT * FROM SalesLT.Customer WHERE CustomerID = :id")
              (lit "SELECT * FROM SalesLT.Customer WHERE CustomerID = :id") 10
              eq_refl ltac:(lia)) as [H _].
  destruct (H eq_refl) as (kw & ws & rest & _ & _ & _ & _ & _ & _ & Hc). exact Hc.
Defined.

(** C2, as stated, fails, in both ways it rules out.  Never zero: a
    validated statement whose only SELECT ... TOP sits in a subquery is sent
    on as it is, with no row-limiting clause after its leading SELECT.
    Never duplicated: a validated statement whose TOP follows DISTINCT gets
    a second clause in front of its own. *)
Lemma injectTopLimit_nested_top_counterexample :
  (validateSelectOnly (lit "SELECT * FROM (SELECT TOP 5 * FROM t) x") =
     Ok (lit "SELECT * FROM (SELECT TOP 5 * FROM t) x") /\
   (1 <= 10 <= 5000)%Z /\
   injectTopLimit (lit "SELECT * FROM (SELECT TOP 5 * FROM t) x") (Int 10) =
     lit "SELECT * FROM (SELECT TOP 5 * FROM t) x" /\
   has_leading_top
     (injectTopLimit (lit "SELECT * FROM (SELECT TOP 5 * FROM t) x") (Int 10)) = false) /\
  (validateSelectOnly (lit "SELECT DISTINCT TOP 5 name FROM t") =
     Ok (lit "SELECT DISTINCT TOP 5 name FROM t") /\
   injectTopLimit (lit "SELECT DISTINCT TOP 5 name FROM t") (Int 10) =
     lit "SELECT TOP(10) DISTINCT TOP 5 name FROM t" /\
   count_row_limits
     (injectTopLimit (lit "SELECT DISTINCT TOP 5 name FROM t") (Int 10)) = 2%nat).
Proof.
  split.
  - split; [reflexivity|]. split; [lia|]. split; reflexivity.
  - split; [reflexivity|]. split; reflexivity.
Qed.

(** The same statement through the handler: it reaches [runQuery] as it came. *)
Lemma sql_query_statement_nested_top :
  sql_query_statement (Int 200)
    (JString (lit "SELECT * FROM (SELECT TOP 5 * FROM t) x")) (JNumber 10) =
  inr (lit "SELECT * FROM (SELECT TOP 5 * FROM t) x", Int 10).
Proof. reflexivity. Qed.

(** ** toTediousNamedParams *)

Lemma colons_to_ats_app l a :
  Forall (fun c => c <> 58) l -> colons_to_ats (l ++ a) = l ++ colons_to_ats a.
Proof.
  induction 1 as [|c l Hc _ IH]; [reflexivity|]. simpl. rewrite IH.
  apply N.eqb_neq in Hc. rewrite Hc. reflexivity.
Qed.

Lemma is_word_not_colon c : is_word c = true -> c <> 58.
Proof. intros H ->. discriminate H. Qed.

Lemma is_ident_start_word c : is_ident_start c = true -> is_word c = true.
Proof. unfold is_word. intros ->. reflexivity. Qed.

(** Where the placeholder pattern matches: a colon, an identifier start,
    word characters; capture 1 is the identifier. *)
Lemma matches_named_param_inv b a st' :
  matches false re_named_param (MState b a None) st' ->
  exists c w a',
    a = 58 :: c :: w ++ a' /\ is_ident_start c = true /\
    Forall (fun x => is_word x = true) w /\
    after st' = a' /\ cap st' = Some (c :: w).
Proof.
  unfold re_named_param. intros H.
  apply matches_Seq_inv in H as (st1 & H1 & H).
  apply matches_Char_inv in H1 as (x & a1 & Ha & Hx & ->). simpl in Ha.
  unfold chr_eq in Hx. apply N.eqb_eq in Hx. subst x a.
  apply matches_Group_inv in H as (st2 & H & ->).
  destruct (matches_extends _ _ _ _ H) as [w' Hw'].
  rewrite (consumed_extends _ _ _ Hw'). destruct Hw' as [_ Hw']. simpl in Hw'.
  apply matches_Seq_inv in H as (st3 & H3 & H).
  apply matches_Class_inv in H3 as (c & a3 & Ha3 & Hc & ->). simpl in Ha3. subst a1.
  apply matches_Star_inv in H as (w & Hw & Ha & _). simpl in Ha. subst a3.
  change (c :: w ++ after st2) with ((c :: w) ++ after st2) in Hw'.
  apply app_inv_tail in Hw'. subst w'.
  exists c, w, (after st2). auto.
Qed.

Lemma match_at_named_param b c a :
  is_ident_start c = true -> match_at false re_named_param (MState b (58 :: c :: a) None) <> None.
Proof.
  intros Hc Hn.
  assert (Hm : matches false re_named_param (MState b (58 :: c :: a) None)
                 (MState (c :: 58 :: b) a
                    (Some (consumed (MState (58 :: b) (c :: a) None)
                                    (MState (c :: 58 :: b) a None))))).
  { unfold re_named_param. eapply M_Seq; [constructor; reflexivity|].
    apply (M_Group false _ _ (MState (c :: 58 :: b) a None)).
    eapply M_Seq; [constructor; exact Hc|constructor]. }
  destruct (m_complete _ _ _ _ Hm Some _ eq_refl) as [e' He']. unfold match_at in Hn.
  congruence.
Qed.

(** The left-to-right replacement, with enough steps, is the
    character-by-character rewriting. *)
Lemma replace_all_named_params fuel : forall b a,
  (length a < fuel)%nat ->
  replace_all_from false re_named_param at_template fuel b a = colons_to_ats a.
Proof.
  induction fuel as [|fuel IH]; intros b a Hlen; [lia|]. simpl.
  destruct (match_at false re_named_param (MState b a None)) as [e|] eqn:Hm.
  - apply m_sound in Hm as (st' & H & [= <-]).
    apply matches_named_param_inv in H as (c & w & a' & -> & Hc & Hw & <- & ->).
    assert (L : Nat.ltb (length (after st')) (length (58 :: c :: w ++ after st')) = true)
      by (apply Nat.ltb_lt; simpl; rewrite length_app; lia).
    rewrite L, IH by (simpl in Hlen; rewrite length_app in Hlen; lia).
    unfold at_template.
    assert (Hcw : Forall (fun x => x <> 58) (c :: w)).
    { constructor; [apply is_word_not_colon, is_ident_start_word, Hc|].
      eapply List.Forall_impl; [|exact Hw]. intros x. apply is_word_not_colon. }
    change ((64 :: c :: w) ++ colons_to_ats (after st'))
      with (64 :: (c :: w) ++ colons_to_ats (after st')).
    rewrite <- (colons_to_ats_app _ _ Hcw). simpl. rewrite Hc. reflexivity.
  - destruct a as [|x a]; [reflexivity|]. simpl.
    rewrite IH by (simpl in Hlen; lia). f_equal.
    destruct (x =? 58) eqn:Hx; [|reflexivity]. apply N.eqb_eq in Hx. subst x.
    destruct a as [|c a]; [reflexivity|]. simpl.
    destruct (is_ident_start c) eqn:Hc; [|reflexivity].
    destruct (match_at_named_param b c a Hc Hm).
Qed.

(** The character-by-character rewriting, position by position. *)
Lemma colons_to_ats_nth s : forall i,
  nth_error (colons_to_ats s) i =
  match nth_error s i with
  | Some c =>
      Some (if (c =? 58) && starts_with_ident (skipn (S i) s) then 64 else c)
  | None => None
  end.
Proof.
  induction s as [|c s IH]; intros [|i]; try reflexivity. simpl. apply IH.
Qed.

(** C6. [toTediousNamedParams] rewrites every [:identifier] (a colon right
    before a letter or an underscore, then letters, digits, underscores)
    into [@identifier] and leaves every other character as it is, whether or
    not the occurrence stands inside a quoted literal: position by position,
    a colon followed by an identifier start becomes an at sign and nothing
    else changes. *)
Theorem toTediousNamedParams_rewrites (sql : str) :
  toTediousNamedParams sql = colons_to_ats sql /\
  length (toTediousNamedParams sql) = length sql /\
  forall i, nth_error (toTediousNamedParams sql) i =
            match nth_error sql i with
            | Some c =>
                Some (if (c =? 58) && starts_with_ident (skipn (S i) sql) then 64 else c)
            | None => None
            end.
Proof.
  assert (E : toTediousNamedParams sql = colons_to_ats sql)
    by (apply replace_all_named_params; lia).
  rewrite E. split; [reflexivity|]. split; [|apply colons_to_ats_nth].
  clear E. induction sql as [|c s IH]; simpl; congruence.
Qed.

(** ** The effective row limit *)

Lemma uint_digits_digits u : Forall (fun c => is_digit c = true) (uint_digits u).
Proof. induction u; simpl; constructor; auto. Qed.

Lemma take_digits_all ds : Forall (fun c => is_digit c = true) ds -> take_digits ds = ds.
Proof. induction 1 as [|c ds Hc _ IH]; simpl; [reflexivity|]. rewrite Hc, IH. reflexivity. Qed.

Lemma digits_value_uint u : forall u',
  fold_left (fun acc c => (10 * acc + Z.of_N (c - 48))%Z) (uint_digits u)
            (Z.of_N (Unsigned.of_lu u')) =
  Z.of_N (Unsigned.of_lu (Decimal.revapp u u')).
Proof.
  induction u; intros u'; simpl fold_left; simpl Decimal.revapp;
    [reflexivity|rewrite <- IHu; f_equal; cbn [Unsigned.of_lu]; lia ..].
Qed.

(** Printing a positive number and reading it back. *)
Lemma parseInt_digits p :
  take_digits (uint_digits (Pos.to_uint p)) <> [] /\
  digits_value (take_digits (uint_digits (Pos.to_uint p))) = Z.pos p.
Proof.
  rewrite take_digits_all by apply uint_digits_digits. split.
  - pose proof (Unsigned.to_uint_nonnil p). destruct (Pos.to_uint p); simpl; congruence.
  - unfold digits_value.
    change 0%Z with (Z.of_N (Unsigned.of_lu Decimal.Nil)).
    rewrite digits_value_uint. fold (Decimal.rev (Pos.to_uint p)).
    rewrite <- Unsigned.of_uint_alt, Unsigned.of_to. reflexivity.
Qed.

Lemma parseInt_digit_head c ds :
  is_digit c = true ->
  parseInt (c :: ds) =
  match take_digits (c :: ds) with [] => NaN | d => Int (digits_value d) end.
Proof.
  intros H.
  assert (Hc : c = 48 \/ c = 49 \/ c = 50 \/ c = 51 \/ c = 52 \/
               c = 53 \/ c = 54 \/ c = 55 \/ c = 56 \/ c = 57)
    by (unfold is_digit, in_range in H; rewrite andb_true_iff, !N.leb_le in H; lia).
  repeat (destruct Hc as [->|Hc]; [reflexivity|]). subst c. reflexivity.
Qed.

Lemma parseInt_minus ds :
  parseInt (45 :: ds) =
  match take_digits ds with [] => NaN | d => Int (- digits_value d) end.
Proof. reflexivity. Qed.

Lemma parseInt_int_to_string z : parseInt (int_to_string z) = Int z.
Proof.
  destruct z as [|p|p]; [reflexivity| |]; destruct (parseInt_digits p) as [Hne Hv];
    simpl int_to_string.
  - pose proof (uint_digits_digits (Pos.to_uint p)) as Hd.
    destruct (uint_digits (Pos.to_uint p)) as [|c ds] eqn:E; [simpl in Hne; congruence|].
    inversion Hd; subst. rewrite parseInt_digit_head by assumption.
    destruct (take_digits (c :: ds)); [congruence|]. rewrite Hv. reflexivity.
  - rewrite parseInt_minus.
    destruct (take_digits (uint_digits (Pos.to_uint p))); [congruence|].
    rewrite Hv. reflexivity.
Qed.

(** With an integer default, an omitted or falsy [row_limit] gives the
    default clamped into [1, 5000], and an integer [row_limit] is clamped. *)
Lemma effective_limit_default d row_limit :
  truthy row_limit = false ->
  effective_limit (Int d) row_limit = Int (Z.max 1 (Z.min d 5000)).
Proof.
  intros H. unfold effective_limit. rewrite H. simpl num_to_string.
  rewrite parseInt_int_to_string. reflexivity.
Qed.

Lemma effective_limit_integer default z :
  z <> 0%Z -> effective_limit default (JNumber z) = Int (Z.max 1 (Z.min z 5000)).
Proof.
  intros H. unfold effective_limit. simpl truthy. apply Z.eqb_neq in H. rewrite H.
  simpl negb. cbv iota. simpl json_to_string. rewrite parseInt_int_to_string. reflexivity.
Qed.

Lemma valid_limit_clamp z : valid_limit (Int (Z.max 1 (Z.min z 5000))).
Proof. eexists. split; [reflexivity|lia]. Qed.

(** C4 at a request whose [row_limit] is a text without digits: [parseInt]
    gives [NaN], which [Math.min] and [Math.max] pass on, so the effective
    limit is not an integer of [1, 5000]. *)
Theorem effective_limit_not_a_number :
  effective_limit (ROW_LIMIT_DEFAULT None) (JString (lit "abc")) = NaN /\
  ~ valid_limit (effective_limit (ROW_LIMIT_DEFAULT None) (JString (lit "abc"))) /\
  sql_query_statement (ROW_LIMIT_DEFAULT None)
    (JString (lit "SELECT 1 AS x")) (JString (lit "abc")) =
    inr (lit "SELECT TOP(NaN) 1 AS x", NaN).
Proof.
  split; [reflexivity|]. split; [|reflexivity]. intros (z & H & _). discriminate H.
Qed.

(** ** Binding the parameters *)

Section BindingFacts.

Variable date : Type.
Variable other : Type.
Variable ToString : jsval date other -> result str.
Variable refuses : list (binding date other) -> binding date other -> option str.

Abbreviation jsv := (jsval date other).
Abbreviation bnd := (binding date other).

(** One turn of the loop: nothing for a null or undefined value; else the
    value has a wire type, and the turn is the driver call with that type
    and the value bound, or the throw of the string conversion. *)
Lemma bind_entry_spec (request : list bnd) (k : str) (v : jsv) :
  (nullish v = true /\ bind_entry ToString refuses request (k, v) = Ok request) \/
  (nullish v = false /\
   exists t p, wire ToString v t p /\
     bind_entry ToString refuses request (k, v) =
       match p with
       | Ok val => request_input refuses request k t val
       | Throw err => Throw err
       end).
Proof.
  destruct v as [| |f|d|b|s|o]; [left; split; reflexivity ..| | | | |];
    (right; split; [reflexivity|]).
  - unfold bind_entry. cbn [nullish typeof is_number andb].
    destruct (Number_isInteger (VNumber f : jsv)) eqn:E.
    + exists SqlInt, (Ok (VNumber f)). split; [constructor; exact E|reflexivity].
    + exists SqlFloat, (Ok (VNumber f)). split; [constructor; exact E|reflexivity].
  - exists SqlDateTime2, (Ok (VDate d)). split; [constructor|reflexivity].
  - exists SqlBit, (Ok (VBoolean b)). split; [constructor|reflexivity].
  - exists (SqlNVarChar None), (Ok (VString s)). split; [constructor|reflexivity].
  - unfold bind_entry. cbn [nullish typeof is_number is_boolean andb instanceof_Date String_of].
    destruct (ToString (VOther o)) as [s|err] eqn:E.
    + exists (SqlNVarChar None), (Ok (VString s)). split; [constructor; exact E|reflexivity].
    + exists (SqlNVarChar None), (Throw err). split; [constructor; exact E|reflexivity].
Qed.

(** The loop from any request: it adds one call per entry with a value, in
    order, up to the entry at which it stops, if it stops. *)
Lemma bind_loop_from (params : list (str * jsv)) : forall request,
  exists bs made rest,
    fst (bind_loop ToString refuses params request) = request ++ bs /\
    bound_entries params = made ++ rest /\
    Forall2 (binds ToString) made bs /\
    match snd (bind_loop ToString refuses params request) with
    | None => rest = []
    | Some err =>
        exists entry rest', rest = entry :: rest' /\
          stops ToString refuses (request ++ bs) entry err
    end.
Proof.
  induction params as [|[k v] params IH]; intros request.
  - exists [], [], []. cbn. rewrite app_nil_r. repeat split. constructor.
  - cbn [bind_loop]. unfold bound_entries in *. cbn [List.filter snd].
    destruct (bind_entry_spec request k v) as [[Hn E]|(Hn & t & p & Hw & E)];
      rewrite Hn, E; cbn [negb].
    + apply IH.
    + destruct p as [val|err].
      * unfold request_input. destruct (refuses request (Binding k t val)) as [err|] eqn:Hr.
        -- exists [], [], ((k, v) :: List.filter (fun e => negb (nullish (snd e))) params).
           cbn. rewrite app_nil_r. repeat split; [constructor|].
           exists (k, v), (List.filter (fun e => negb (nullish (snd e))) params).
           split; [reflexivity|]. exists t, (Ok val). split; [exact Hw|].
           right. exists val. split; [reflexivity|exact Hr].
        -- destruct (IH (request ++ [Binding k t val])) as (bs & made & rest & E1 & E2 & HF & Hs).
           exists (Binding k t val :: bs), ((k, v) :: made), rest.
           rewrite E1, E2, <- app_assoc. repeat split.
           ++ constructor; [split; [reflexivity|exact Hw]|exact HF].
           ++ rewrite <- app_assoc in Hs. exact Hs.
      * exists [], [], ((k, v) :: List.filter (fun e => negb (nullish (snd e))) params).
        cbn. rewrite app_nil_r. repeat split; [constructor|].
        exists (k, v), (List.filter (fun e => negb (nullish (snd e))) params).
        split; [reflexivity|]. exists t, (Throw err). split; [exact Hw|]. left. reflexivity.
Qed.

(** A value that is neither null nor undefined has one wire type and one
    outcome of its conversion. *)
Lemma wire_exists_unique (v : jsv) :
  nullish v = false ->
  exists t p, wire ToString v t p /\
              forall t' p', wire ToString v t' p' -> t' = t /\ p' = p.
Proof.
  destruct v as [| |f|d|b|s|o]; try discriminate; intros _.
  - destruct (@whole_number date other f) eqn:E.
    + exists SqlInt, (Ok (VNumber f)). split; [constructor; exact E|].
      inversion 1; subst; [auto|congruence].
    + exists SqlFloat, (Ok (VNumber f)). split; [constructor; exact E|].
      inversion 1; subst; [congruence|auto].
  - exists SqlDateTime2, (Ok (VDate d)). split; [constructor|]. inversion 1; auto.
  - exists SqlBit, (Ok (VBoolean b)). split; [constructor|]. inversion 1; auto.
  - exists (SqlNVarChar None), (Ok (VString s)). split; [constructor|]. inversion 1; auto.
  - destruct (ToString (VOther o)) as [s|err] eqn:E.
    + exists (SqlNVarChar None), (Ok (VString s)). split; [constructor; exact E|].
      inversion 1; subst; split; congruence.
    + exists (SqlNVarChar None), (Throw err). split; [constructor; exact E|].
      inversion 1; subst; split; congruence.
Qed.

Lemma Forall2_binds_name (entries : list (str * jsv)) : forall (bs : list bnd) (b : bnd),
  Forall2 (binds ToString) entries bs -> In b bs ->
  exists v, In (b_name b, v) entries.
Proof.
  induction entries as [|[k v] entries IH]; intros bs b HF Hin;
    inversion HF; subst; [destruct Hin|].
  destruct Hin as [<-|Hin].
  - exists v. left. destruct H1 as [-> _]. reflexivity.
  - destruct (IH _ _ H3 Hin) as [v' Hv']. exists v'. right. exact Hv'.
Qed.

Lemma NoDup_keys_value (l : list (str * jsv)) k v v' :
  List.NoDup (List.map fst l) -> In (k, v) l -> In (k, v') l -> v = v'.
Proof.
  induction l as [|[k0 v0] l IH]; intros Hnd H1 H2; [destruct H1|].
  inversion Hnd as [|? ? Hnot Hnd']; subst.
  destruct H1 as [H1|H1], H2 as [H2|H2]; [congruence| | |auto].
  - exfalso. apply Hnot. apply (in_map fst) in H2. simpl in H2. congruence.
  - exfalso. apply Hnot. apply (in_map fst) in H1. simpl in H1. congruence.
Qed.

(** C5, as the code has it. For every params mapping, the binding loop of
    [runQuery] goes through the entries in order and makes one call per
    entry whose value is neither null nor undefined, under the entry's key,
    until the string conversion of a value throws or the driver refuses a
    call: the loop ends there with that error, and [runQuery] with it, the
    entries after it unbound; when nothing throws, every such entry is
    bound.  Each value is classified into exactly one of five wire types: a
    whole number as [Int], another number as [Float], a [Date] as
    [DateTime2], a boolean as [Bit], anything else as [NVarChar(MAX)] bound
    to its string conversion; and a key whose value is null or undefined
    gets no binding at all. *)
Theorem bind_params_wire_types (params : list (str * jsv)) :
  (exists made rest,
     bound_entries params = made ++ rest /\
     Forall2 (binds ToString) made (fst (bind_loop ToString refuses params [])) /\
     match snd (bind_loop ToString refuses params []) with
     | None =>
         rest = [] /\
         bind_params ToString refuses params =
           Ok (fst (bind_loop ToString refuses params []))
     | Some err =>
         bind_params ToString refuses params = Throw err /\
         exists entry rest', rest = entry :: rest' /\
           stops ToString refuses (fst (bind_loop ToString refuses params [])) entry err
     end) /\
  (forall v : jsv, nullish v = false ->
     exists t p, wire ToString v t p /\
                 forall t' p', wire ToString v t' p' -> t' = t /\ p' = p) /\
  (forall k v, List.NoDup (List.map fst params) -> In (k, v) params -> nullish v = true ->
     forall b : bnd, In b (fst (bind_loop ToString refuses params [])) -> b_name b <> k).
Proof.
  destruct (bind_loop_from params []) as (bs & made & rest & E & Em & HF & Hs).
  cbn [app] in E, Hs.
  split; [|split].
  - exists made, rest. split; [exact Em|]. rewrite E. split; [exact HF|].
    unfold bind_params. destruct (bind_loop ToString refuses params []) as [request [err|]];
      cbn [fst snd] in *; subst request.
    + split; [reflexivity|exact Hs].
    + split; [exact Hs|reflexivity].
  - apply wire_exists_unique.
  - intros k v Hnd Hin Hn b Hb <-. rewrite E in Hb.
    destruct (Forall2_binds_name _ _ _ HF Hb) as [v' Hv'].
    assert (Hv : In (b_name b, v') (bound_entries params))
      by (rewrite Em; apply in_or_app; left; exact Hv').
    unfold bound_entries in Hv. apply filter_In in Hv as [Hin' Hn']. simpl in Hn'.
    rewrite (NoDup_keys_value _ _ _ _ Hnd Hin Hin') in Hn. rewrite Hn in Hn'. discriminate.
Qed.

End BindingFacts.

Lemma bind_params_wire_types_witness :
  List.NoDup (List.map fst
    [(lit "id", VNumber (S754_finite false 21 1)); (lit "note", @VNull unit unit)]) /\
  In (lit "note", VNull)
    [(lit "id", VNumber (S754_finite false 21 1)); (lit "note", @VNull unit unit)] /\
  nullish (@VNull unit unit) = true /\
  forall b : binding unit unit,
    In b (fst (bind_loop (fun _ : jsval unit unit => Ok (lit "[object Object]"))
                 (fun _ _ => None)
                 [(lit "id", VNumber (S754_finite false 21 1)); (lit "note", VNull)] [])) ->
    b_name b <> lit "note".
Proof.
  assert (Hnd : List.NoDup (List.map fst
            [(lit "id", VNumber (S754_finite false 21 1)); (lit "note", @VNull unit unit)])).
  { repeat constructor; simpl; intros H; repeat destruct H as [H|H]; try discriminate H;
      exact H. }
  assert (Hin : In (lit "note", @VNull unit unit)
            [(lit "id", VNumber (S754_finite false 21 1)); (lit "note", VNull)])
    by (right; left; reflexivity).
  repeat split; try assumption.
  exact (proj2 (proj2 (bind_params_wire_types unit unit
                         (fun _ => Ok (lit "[object Object]")) (fun _ _ => None) _))
           _ _ Hnd Hin eq_refl).
Defined.

(** C5, as stated, fails: a value that is no text and whose string
    conversion throws (the parsed JSON object [{"toString": 1}], from the
    body [{"params": {"a": {"toString": 1}, "c": 2}}]) ends the loop; neither
    it nor the entry after it is bound to any wire type. *)
Lemma bind_params_throwing_conversion_counterexample :
  bound_entries [(lit "a", @VOther unit unit tt); (lit "c", VNumber (S754_finite false 1 1))] =
    [(lit "a", VOther tt); (lit "c", VNumber (S754_finite false 1 1))] /\
  bind_loop (fun _ : jsval unit unit => Throw (lit "Cannot convert object to primitive value"))
    (fun _ _ => None)
    [(lit "a", VOther tt); (lit "c", VNumber (S754_finite false 1 1))] [] =
    ([], Some (lit "Cannot convert object to primitive value")) /\
  bind_params (fun _ : jsval unit unit => Throw (lit "Cannot convert object to primitive value"))
    (fun _ _ => None)
    [(lit "a", VOther tt); (lit "c", VNumber (S754_finite false 1 1))] =
    Throw (lit "Cannot convert object to primitive value") /\
  ~ Forall2 (binds (fun _ : jsval unit unit =>
                      Throw (lit "Cannot convert object to primitive value")))
      (bound_entries [(lit "a", @VOther unit unit tt);
                      (lit "c", VNumber (S754_finite false 1 1))])
      (fst (bind_loop (fun _ : jsval unit unit =>
                         Throw (lit "Cannot convert object to primitive value"))
              (fun _ _ => None)
              [(lit "a", VOther tt); (lit "c", VNumber (S754_finite false 1 1))] [])).
Proof.
  split; [reflexivity|]. split; [reflexivity|]. split; [reflexivity|].
  cbn. intros H. inversion H.
Qed.

(** ** getSampleJoins *)

(** C8. For a relation with [k] outgoing foreign-key edges, [getSampleJoins]
    gives exactly [min k 2] templates, the [i]-th one built from the [i]-th
    edge: a two-alias inner join of the relation with the referenced table
    on the edge's column pair; with no edge, or no entry at all, it gives
    the empty list. *)
Theorem getSampleJoins_capped (tableName : str) (fks : list fk_edge) :
  length (getSampleJoins tableName (Some fks)) = Nat.min (length fks) 2 /\
  (forall i fk, (i < 2)%nat -> nth_error fks i = Some fk ->
     nth_error (getSampleJoins tableName (Some fks)) i = Some (sample_join tableName fk) /\
     qt_template (sample_join tableName fk) =
       lit "SELECT t1.*, t2.* FROM " ++ tableName ++ lit " t1 INNER JOIN " ++
       refTableWithSchema fk ++ lit " t2 ON t1." ++ json_to_string (fk_column fk) ++
       lit " = t2." ++ json_to_string (fk_ref_column fk)) /\
  getSampleJoins tableName (Some []) = [] /\
  getSampleJoins tableName None = [].
Proof.
  split; [|split; [|split; reflexivity]].
  - destruct fks as [|fk fks]; [reflexivity|].
    unfold getSampleJoins. cbn [length Nat.eqb].
    rewrite length_map, length_firstn. apply Nat.min_comm.
  - intros i fk Hi Hnth. split; [|reflexivity].
    destruct fks as [|fk0 fks]; [destruct i; discriminate|].
    unfold getSampleJoins. cbn [length Nat.eqb].
    rewrite nth_error_map, nth_error_firstn.
    destruct (Nat.ltb_spec i 2) as [_|Hge]; [|lia]. rewrite Hnth. reflexivity.
Qed.

Lemma getSampleJoins_capped_witness :
  (1 < 2)%nat /\
  nth_error [ FkEdge (JString (lit "CustomerID")) (lit "SalesLT.Customer") (JString (lit "CustomerID"));
              FkEdge (JString (lit "AddressID")) (lit "Address") (JString (lit "AddressID"));
              FkEdge (JString (lit "ShipMethodID")) (lit "dbo.ShipMethod") (JString (lit "ID")) ] 1
  = Some (FkEdge (JString (lit "AddressID")) (lit "Address") (JString (lit "AddressID"))) /\
  nth_error
    (getSampleJoins (lit "SalesLT.SalesOrderHeader")
       (Some [ FkEdge (JString (lit "CustomerID")) (lit "SalesLT.Customer") (JString (lit "CustomerID"));
               FkEdge (JString (lit "AddressID")) (lit "Address") (JString (lit "AddressID"));
               FkEdge (JString (lit "ShipMethodID")) (lit "dbo.ShipMethod") (JString (lit "ID")) ])) 1
  = Some (sample_join (lit "SalesLT.SalesOrderHeader")
            (FkEdge (JString (lit "AddressID")) (lit "Address") (JString (lit "AddressID")))).
Proof.
  split; [lia|]. split; [reflexivity|].
  exact (proj1 (proj1 (proj2 (getSampleJoins_capped (lit "SalesLT.SalesOrderHeader")
           [ FkEdge (JString (lit "CustomerID")) (lit "SalesLT.Customer") (JString (lit "CustomerID"));
             FkEdge (JString (lit "AddressID")) (lit "Address") (JString (lit "AddressID"));
             FkEdge (JString (lit "ShipMethodID")) (lit "dbo.ShipMethod") (JString (lit "ID")) ]))
           1%nat (FkEdge (JString (lit "AddressID")) (lit "Address") (JString (lit "AddressID")))
           ltac:(lia) eq_refl)).
Defined.

(** ** The schema handler *)

Section SchemaFacts.

Variable toLowerCase : str -> str.
Variable TypeError : string -> receiver -> str.
Variable inherited : str -> bool.
Variable now : str.
Variable env : environment.

Abbreviation rows := (list (list (list N * json))).

Lemma bind_Ok {A B} (c : M A) (k : A -> M B) log a log' :
  c log = (Ok a, log') -> bind c k log = k a log'.
Proof. unfold bind. intros ->. reflexivity. Qed.

Lemma bind_Throw {A B} (c : M A) (k : A -> M B) log msg log' :
  c log = (Throw msg, log') -> bind c k log = (Throw msg, log').
Proof. unfold bind. intros ->. reflexivity. Qed.

(** A run of a computation ends in a value or in a throw. *)
Lemma run_cases {A} (c : M A) log :
  (exists a log', c log = (Ok a, log')) \/ (exists msg log', c log = (Throw msg, log')).
Proof. destruct (c log) as [[a|msg] log']; eauto. Qed.

(** A catalog in the response comes from a successful resolution, and
    lists the resolved relations by their qualified names. *)
Lemma sql_schema_try_catalog (getPool : result (query -> result rows)) req r log :
  sql_schema_try toLowerCase TypeError inherited now env getPool req [] = (Ok r, log) ->
  exists db mode objects fallback log0 c,
    getPool = Ok db /\ effective_mode toLowerCase TypeError env req = Ok mode /\
    resolve_objects toLowerCase TypeError env db mode (body_tables req) [] =
      (Ok (objects, fallback), log0) /\
    r = Response 200 (CatalogBody c) /\
    List.map t_name (tables c) = List.map qname objects.
Proof.
  unfold sql_schema_try.
  destruct (effective_mode toLowerCase TypeError env req) as [mode|e] eqn:Hmode;
    [|discriminate].
  rewrite (bind_Ok _ _ [] mode []) by reflexivity.
  destruct getPool as [db|e]; [|discriminate].
  rewrite (bind_Ok _ _ [] db []) by reflexivity.
  destruct (run_cases (resolve_objects toLowerCase TypeError env db mode (body_tables req)) [])
    as [([objects fallback] & log0 & Hres)|(msg & log0 & Hres)].
  2:{ rewrite (bind_Throw _ _ _ _ _ Hres). discriminate. }
  rewrite (bind_Ok _ _ _ _ _ Hres).
  destruct (length objects =? 0)%nat eqn:Hlen.
  - intros [= <- <-]. apply Nat.eqb_eq in Hlen. destruct objects; [|discriminate].
    exists db, mode, [], fallback, log0. eexists. repeat split; try eassumption; reflexivity.
  - unfold bind, run_query.
    destruct (db (columns_query _)) as [columns|?]; [|discriminate].
    destruct (db (pk_query _)) as [pkRows|?]; [|discriminate].
    destruct (db (fk_query _)) as [fkRows|?]; [|discriminate].
    unfold filed, throw, ret.
    destruct (filing_error TypeError inherited "add" pk_key pkRows); [discriminate|].
    destruct (filing_error TypeError inherited "push" fk_key fkRows); [discriminate|].
    destruct (filing_error TypeError inherited "push" col_key columns); [discriminate|].
    intros [= <- <-].
    exists db, mode, objects, fallback, log0. eexists.
    repeat split; try eassumption; try reflexivity.
    simpl. rewrite !List.map_map. apply List.map_ext. intros o. reflexivity.
Qed.

(** C9. For every schema request, every relation of the catalog in the
    response belongs to the set the resolution gave for that request: the
    [tables] array names exactly the resolved relations, in order, by their
    schema-qualified names, and so none outside the resolved set. *)
Theorem catalog_within_resolved (getPool : result (query -> result rows))
    (req : schema_request) (st : N) (c : catalog) (log : list query) :
  sql_schema_handler toLowerCase TypeError inherited now env getPool req =
    (Response st (CatalogBody c), log) ->
  exists db mode objects fallback log0,
    getPool = Ok db /\ effective_mode toLowerCase TypeError env req = Ok mode /\
    resolve_objects toLowerCase TypeError env db mode (body_tables req) [] =
      (Ok (objects, fallback), log0) /\
    List.map t_name (tables c) = List.map qname objects /\
    forall t, In t (tables c) -> exists o, In o objects /\ t_name t = qname o.
Proof.
  unfold sql_schema_handler.
  destruct (sql_schema_try toLowerCase TypeError inherited now env
      getPool req []) as [[r|msg] log'] eqn:H;
    [|discriminate].
  intros [= -> ->].
  apply sql_schema_try_catalog in H
    as (db & mode & objects & fallback & log0 & c' & Hp & Hm & Hr & [= -> ->] & Hn).
  exists db, mode, objects, fallback, log0. repeat split; try assumption.
  intros t Ht. apply (in_map t_name) in Ht. rewrite Hn in Ht.
  apply in_map_iff in Ht as (o & Ho & Hin). eauto.
Qed.



End SchemaFacts.

Lemma catalog_within_resolved_witness :
  sql_schema_handler lower_ascii example_TypeError example_inherited example_now example_env
      (Ok example_pool) example_request =
    (Response 200 (CatalogBody example_catalog), snd example_run) /\
  exists db mode objects fallback log0,
    Ok example_pool = Ok db /\
    effective_mode lower_ascii example_TypeError example_env example_request = Ok mode /\
    resolve_objects lower_ascii example_TypeError example_env db mode
        (body_tables example_request) [] =
      (Ok (objects, fallback), log0) /\
    List.map t_name (tables example_catalog) = List.map qname objects /\
    forall t, In t (tables example_catalog) -> exists o, In o objects /\ t_name t = qname o.
Proof.
  assert (H : sql_schema_handler lower_ascii example_TypeError example_inherited example_now example_env
      (Ok example_pool)
                example_request =
              (Response 200 (CatalogBody example_catalog), snd example_run))
    by (vm_compute; reflexivity).
  split; [exact H|].
  exact (catalog_within_resolved lower_ascii example_TypeError example_inherited
           example_now example_env (Ok example_pool)
           example_request 200 example_catalog (snd example_run) H).
Defined.



(** * Further properties *)

(** ** validateSelectOnly, both ways *)

Lemma matches_alts_inv ic rs st st' :
  matches ic (alts rs) st st' -> exists r, In r rs /\ matches ic r st st'.
Proof.
  induction rs as [|r0 rs IH]; intros H.
  - simpl in H. apply matches_Class_inv in H as (x & a & _ & Hf & _). discriminate.
  - destruct rs as [|r1 rs].
    + exists r0. split; [left; reflexivity|exact H].
    + change (alts (r0 :: r1 :: rs)) with (Alt r0 (alts (r1 :: rs))) in H.
      apply matches_Alt_inv in H as [H|H].
      * exists r0. split; [left; reflexivity|exact H].
      * destruct (IH H) as (r & Hin & Hr). exists r. split; [right; exact Hin|exact Hr].
Qed.

Lemma canon_not_upper x c : canon x = c -> is_upper c = false -> x = c.
Proof.
  unfold canon. destruct (is_lower x) eqn:E; [|auto].
  intros <- H. exfalso. char_arith.
Qed.

(** A text equal up to case to a text without letters is that text. *)
Lemma ci_eq_no_letters w kw :
  ci_eq w kw -> Forall (fun c => is_upper c = false /\ is_lower c = false) kw -> w = kw.
Proof.
  unfold ci_eq. revert kw. induction w as [|x w IH]; intros [|c kw] E H; try discriminate;
    [reflexivity|].
  simpl in E. injection E as Ec E. inversion H as [|? ? [Hu Hl] H']; subst.
  f_equal; [|apply IH; assumption].
  apply canon_not_upper; [|exact Hu]. rewrite Ec. unfold canon. rewrite Hl. reflexivity.
Qed.

(** The banned pattern finds nothing but banned tokens. *)
Lemma banned_found_token s :
  test true re_banned s = true -> contains_banned_token s.
Proof.
  intros H. apply test_true_iff in H as (pre & a & st' & -> & H).
  unfold re_banned in H. apply matches_alts_inv in H as (r & Hin & H).
  destruct Hin as [<-|[<-|[<-|[<-|[]]]]].
  - left. apply matches_Seq_inv in H as (st1 & H1 & H).
    apply matches_WordB_inv in H1 as (Hb1 & ->).
    apply matches_Seq_inv in H as (st2 & H2 & H).
    apply matches_WordB_inv in H as (Hb2 & _).
    apply matches_Group_inv in H2 as (st3 & H2 & ->).
    apply matches_alts_inv in H2 as (r & Hin & H2).
    apply in_map_iff in Hin as (kw & <- & Hin).
    apply matches_word_inv in H2 as (w & Hci & Ha & Hb & _). simpl in Ha, Hb.
    destruct (banned_keywords_words kw Hin) as [Hne Hkw].
    pose proof (ci_eq_word _ _ Hci Hkw) as Hw.
    exists kw, w. split; [exact Hin|]. split; [exact Hci|].
    exists pre, (after st3). split; [rewrite Ha; reflexivity|].
    unfold word_before, word_after in Hb1, Hb2. simpl in Hb1, Hb2.
    rewrite Hb in Hb2. rewrite Ha in Hb1.
    destruct w as [|x w]; [apply ci_eq_length in Hci; destruct kw; [congruence|discriminate]|].
    split.
    + inversion Hw; subst. simpl in Hb1. unfold ends_with_word.
      destruct (starts_with_word (rev pre)); [|reflexivity].
      rewrite H1 in Hb1. discriminate.
    + assert (Hr : Forall (fun c => is_word c = true) (rev (x :: w)))
        by (apply List.Forall_rev; exact Hw).
      destruct (rev (x :: w)) as [|y t] eqn:E;
        [apply rev_nil_inv in E; discriminate|].
      inversion Hr; subst. simpl in Hb2. rewrite H1 in Hb2.
      destruct (starts_with_word (after st3)); [discriminate|reflexivity].
  - right; left. apply matches_Char_inv in H as (x & a' & Ha & Hx & _). simpl in Ha.
    apply chr_eq_canon in Hx. apply canon_not_upper in Hx; [|reflexivity].
    subst. apply in_or_app. right. left. reflexivity.
  - right; right; left. apply matches_word_inv in H as (w & Hci & Ha & _). simpl in Ha.
    apply ci_eq_no_letters in Hci; [|repeat constructor]. subst.
    exists pre, (after st'). reflexivity.
  - right; right; right. apply matches_word_inv in H as (w & Hci & Ha & _). simpl in Ha.
    apply ci_eq_no_letters in Hci; [|repeat constructor]. subst.
    exists pre, (after st'). reflexivity.
Qed.

(** A banned token of a text is found by the pattern (no trimming involved). *)
Lemma token_found_banned s :
  contains_banned_token s -> test true re_banned s = true.
Proof.
  intros [(kw & w & Hin & Hci & pre & post & -> & Hpre & Hpost)
         |[Hsemi|[(pre & post & ->)|(pre & post & ->)]]].
  - apply (banned_keyword_found kw); assumption.
  - apply in_split in Hsemi as (pre & post & ->).
    change (59 :: post) with ([59] ++ post).
    apply (literal_found 1 (Char 59) [59]); reflexivity.
  - apply (literal_found 2 (word (lit "--"))); reflexivity.
  - apply (literal_found 3 (word (lit "/*"))); reflexivity.
Qed.

Lemma test_banned_iff s : test true re_banned s = true <-> contains_banned_token s.
Proof. split; [apply banned_found_token|apply token_found_banned]. Qed.

(** X1. [validateSelectOnly] returns, and returns the trimmed text, exactly
    when the trimmed text starts with SELECT and a whitespace character and
    holds no banned token. *)
Theorem validateSelectOnly_accepts_iff (sql s : str) :
  validateSelectOnly sql = Ok s <->
  s = trim sql /\ starts_with_select_ws s /\ ~ contains_banned_token s.
Proof.
  split.
  - intros H. apply validateSelectOnly_Ok in H as (-> & Hs & Hb).
    repeat split; [exact Hs|]. intros Hc. apply token_found_banned in Hc. congruence.
  - intros (-> & Hs & Hb). unfold validateSelectOnly.
    apply test_select_only_iff in Hs. rewrite Hs. simpl.
    destruct (test true re_banned (trim sql)) eqn:E; [|reflexivity].
    apply banned_found_token in E. contradiction.
Qed.

Lemma validateSelectOnly_accepts_iff_witness :
  validateSelectOnly (lit "  select a, b from t where c = :p  ") =
    Ok (lit "select a, b from t where c = :p") /\
  ~ contains_banned_token (lit "select a, b from t where c = :p").
Proof.
  assert (H : validateSelectOnly (lit "  select a, b from t where c = :p  ") =
              Ok (lit "select a, b from t where c = :p")) by reflexivity.
  split; [exact H|].
  exact (proj2 (proj2 (proj1 (validateSelectOnly_accepts_iff _ _) H))).
Defined.

(** ** Trimming *)

Lemma drop_spaces_head s c t : drop_spaces s = c :: t -> is_space c = false.
Proof.
  induction s as [|x s IH]; simpl; [discriminate|].
  destruct (is_space x) eqn:E; [exact IH|]. intros [= <- _]. exact E.
Qed.

Lemma drop_spaces_fixed c t : is_space c = false -> drop_spaces (c :: t) = c :: t.
Proof. intros H. simpl. rewrite H. reflexivity. Qed.

Lemma drop_spaces_idem s : drop_spaces (drop_spaces s) = drop_spaces s.
Proof.
  destruct (drop_spaces s) as [|c t] eqn:E; [reflexivity|].
  apply drop_spaces_fixed. eapply drop_spaces_head. exact E.
Qed.

(** [trim] gives a text with no whitespace at either end. *)
Lemma trim_trimmed s : trimmed (trim s).
Proof.
  unfold trimmed, trim. rewrite rev_involutive, drop_spaces_idem. split; [|reflexivity].
  destruct (drop_spaces_suffix (rev (drop_spaces s))) as [ws E].
  destruct (rev (drop_spaces (rev (drop_spaces s)))) as [|c t] eqn:R; [reflexivity|].
  apply drop_spaces_fixed.
  assert (Hu : drop_spaces s = (c :: t) ++ rev ws).
  { rewrite <- R, <- rev_app_distr, <- E. symmetry. apply rev_involutive. }
  simpl in Hu. eapply drop_spaces_head. exact Hu.
Qed.

Lemma trimmed_trim s : trimmed s -> trim s = s.
Proof. intros [H1 H2]. unfold trim. rewrite H1, H2. apply rev_involutive. Qed.

(** X2. What [validateSelectOnly] returns has no whitespace at either end,
    and validating it again returns it unchanged. *)
Theorem validateSelectOnly_stable (sql s : str) :
  validateSelectOnly sql = Ok s -> trimmed s /\ validateSelectOnly s = Ok s.
Proof.
  intros H. apply validateSelectOnly_Ok in H as (-> & Hs & Hb).
  pose proof (trim_trimmed sql) as Ht. split; [exact Ht|].
  unfold validateSelectOnly. rewrite (trimmed_trim _ Ht).
  apply test_select_only_iff in Hs. rewrite Hs, Hb. reflexivity.
Qed.

Lemma validateSelectOnly_stable_witness :
  validateSelectOnly (lit "  SELECT 1 AS x ") = Ok (lit "SELECT 1 AS x") /\
  validateSelectOnly (lit "SELECT 1 AS x") = Ok (lit "SELECT 1 AS x").
Proof.
  assert (H : validateSelectOnly (lit "  SELECT 1 AS x ") = Ok (lit "SELECT 1 AS x"))
    by reflexivity.
  split; [exact H|]. exact (proj2 (validateSelectOnly_stable _ _ H)).
Defined.

(** ** toTediousNamedParams, once more *)

Lemma toTediousNamedParams_eq s : toTediousNamedParams s = colons_to_ats s.
Proof. apply replace_all_named_params. lia. Qed.

Lemma colons_to_ats_head s :
  starts_with_ident (colons_to_ats s) = starts_with_ident s.
Proof.
  destruct s as [|c s]; [reflexivity|]. simpl.
  destruct ((c =? 58) && starts_with_ident s) eqn:E; [|reflexivity].
  apply andb_true_iff in E as [E _]. apply N.eqb_eq in E. subst. reflexivity.
Qed.

Lemma colons_to_ats_idem s : colons_to_ats (colons_to_ats s) = colons_to_ats s.
Proof.
  induction s as [|c s IH]; [reflexivity|]. simpl. rewrite IH, colons_to_ats_head.
  f_equal. destruct (c =? 58) eqn:Ec; simpl.
  - destruct (starts_with_ident s) eqn:Es; simpl; [reflexivity|].
    rewrite Ec. reflexivity.
  - rewrite Ec. reflexivity.
Qed.

Lemma colons_to_ats_no_placeholder s : ~ has_placeholder (colons_to_ats s).
Proof.
  intros (pre & c & post & E & Hc). revert s E.
  induction pre as [|p pre IH]; intros [|x s] E; cbn [colons_to_ats app] in E;
    try discriminate.
  - injection E as Ex E.
    assert (Hs : starts_with_ident s = false).
    { destruct (starts_with_ident s); [|reflexivity].
      rewrite andb_true_r in Ex. destruct (x =? 58) eqn:Ex'; [discriminate Ex|].
      subst x. discriminate Ex'. }
    rewrite <- colons_to_ats_head, E in Hs. simpl in Hs. congruence.
  - injection E as _ E. exact (IH s E).
Qed.

(** X3. After [toTediousNamedParams] no placeholder is left: the output
    holds no colon right before a letter or an underscore, and rewriting it
    again changes nothing. *)
Theorem toTediousNamedParams_no_placeholder (sql : str) :
  ~ has_placeholder (toTediousNamedParams sql) /\
  toTediousNamedParams (toTediousNamedParams sql) = toTediousNamedParams sql.
Proof.
  rewrite !toTediousNamedParams_eq. split.
  - apply colons_to_ats_no_placeholder.
  - apply colons_to_ats_idem.
Qed.

(** ** Where a banned token can stand *)

Lemma starts_with_word_app l t : l <> [] -> starts_with_word (l ++ t) = starts_with_word l.
Proof. destruct l; [congruence|reflexivity]. Qed.

Lemma rev_not_nil (l : str) : l <> [] -> rev l <> [].
Proof. intros H E. apply rev_nil_inv in E. contradiction. Qed.

Lemma ends_with_word_app x l : l <> [] -> ends_with_word (x ++ l) = ends_with_word l.
Proof.
  intros H. unfold ends_with_word. rewrite rev_app_distr.
  apply starts_with_word_app, rev_not_nil, H.
Qed.

Lemma ends_with_space_not_word a : ends_with_space a -> ends_with_word a = false.
Proof.
  intros (a0 & c & -> & Hc). unfold ends_with_word. rewrite rev_app_distr. simpl.
  apply is_space_not_word, Hc.
Qed.

(** After a text that ends with whitespace, only what follows decides
    whether a word character stands right before. *)
Lemma ends_with_word_after_space a l :
  ends_with_space a -> ends_with_word (a ++ l) = ends_with_word l.
Proof.
  intros Ha. destruct l as [|x l].
  - rewrite app_nil_r. apply ends_with_space_not_word, Ha.
  - apply ends_with_word_app. discriminate.
Qed.

Lemma rewritten_word o c : rewritten o c -> is_word o = is_word c.
Proof. intros [->|[-> ->]]; reflexivity. Qed.

Lemma colons_to_ats_rewritten s : Forall2 rewritten (colons_to_ats s) s.
Proof.
  induction s as [|c s IH]; simpl; constructor; [|exact IH].
  destruct ((c =? 58) && starts_with_ident s) eqn:E; [|left; reflexivity].
  apply andb_true_iff in E as [E _]. apply N.eqb_eq in E. right. auto.
Qed.

Lemma rewritten_same w' w :
  Forall2 rewritten w' w -> Forall (fun c => c <> 64) w' -> w' = w.
Proof.
  induction 1 as [|o c w' w Hr _ IH]; intros H; [reflexivity|].
  inversion H; subst. f_equal; [|auto].
  destruct Hr as [->|[_ ->]]; [reflexivity|congruence].
Qed.

Lemma rewritten_starts o s :
  Forall2 rewritten o s -> starts_with_word o = starts_with_word s.
Proof. destruct 1; [reflexivity|]. simpl. apply rewritten_word. assumption. Qed.

Lemma rewritten_rev o s : Forall2 rewritten o s -> Forall2 rewritten (rev o) (rev s).
Proof.
  induction 1; simpl; [constructor|]. apply List.Forall2_app; [assumption|].
  constructor; [assumption|constructor].
Qed.

Lemma rewritten_ends o s :
  Forall2 rewritten o s -> ends_with_word o = ends_with_word s.
Proof. intros H. apply rewritten_starts, rewritten_rev, H. Qed.

(** An occurrence, in the rewritten text, of a text without at signs was in
    the text before the rewriting, between the same kind of neighbours. *)
Lemma rewritten_occurrence o s pre' w post' :
  Forall2 rewritten o s -> o = pre' ++ w ++ post' -> Forall (fun c => c <> 64) w ->
  exists pre post, s = pre ++ w ++ post /\
                   ends_with_word pre = ends_with_word pre' /\
                   starts_with_word post = starts_with_word post'.
Proof.
  intros H -> Hw.
  apply List.Forall2_app_inv_l in H as (pre & r & Hpre & H & ->).
  apply List.Forall2_app_inv_l in H as (w0 & post & Hw0 & Hpost & ->).
  apply rewritten_same in Hw0; [|exact Hw]. subst w0.
  exists pre, post. split; [reflexivity|].
  split; symmetry; [apply rewritten_ends|apply rewritten_starts]; assumption.
Qed.

Lemma is_word_not_at c : is_word c = true -> c <> 64.
Proof. intros H ->. discriminate H. Qed.

(** The placeholder rewriting brings no banned token in. *)
Lemma rewritten_banned_token o s :
  Forall2 rewritten o s -> contains_banned_token o -> contains_banned_token s.
Proof.
  intros H [(kw & w & Hin & Hci & pre' & post' & E & Hpre & Hpost)
           |[Hsemi|[(pre' & post' & E)|(pre' & post' & E)]]].
  - destruct (banned_keywords_words kw Hin) as [_ Hkw].
    pose proof (ci_eq_word _ _ Hci Hkw) as Hw.
    destruct (rewritten_occurrence _ _ _ _ _ H E) as (pre & post & -> & Hp & Hq).
    { eapply List.Forall_impl; [|exact Hw]. intros c. apply is_word_not_at. }
    left. exists kw, w. repeat split; try assumption.
    exists pre, post. repeat split; congruence.
  - apply in_split in Hsemi as (pre' & post' & E).
    destruct (rewritten_occurrence _ _ pre' [59] post' H E) as (pre & post & -> & _).
    { repeat constructor; discriminate. }
    right; left. apply in_or_app. right. left. reflexivity.
  - destruct (rewritten_occurrence _ _ _ _ _ H E) as (pre & post & -> & _).
    { repeat constructor; discriminate. }
    right; right; left. exists pre, post. reflexivity.
  - destruct (rewritten_occurrence _ _ _ _ _ H E) as (pre & post & -> & _).
    { repeat constructor; discriminate. }
    right; right; right. exists pre, post. reflexivity.
Qed.

(** A text without whitespace that occurs in [b ++ c], where [b] ends with
    whitespace, lies in [b] and ends before its last character, or lies in [c]. *)
Lemma occurrence_across_space (b c pre w post : str) :
  ends_with_space b -> w <> [] -> Forall (fun x => is_space x = false) w ->
  pre ++ w ++ post = b ++ c ->
  (exists m, m <> [] /\ b = pre ++ w ++ m /\ post = m ++ c) \/
  (exists l, pre = b ++ l /\ c = l ++ w ++ post).
Proof.
  intros (b0 & sp & -> & Hsp) Hne Hw E.
  assert (Hlast : forall (p l : str), b0 ++ [sp] = p ++ l -> l <> [] -> In sp l).
  { intros p l El Hl. destruct (exists_last Hl) as (l0 & y & ->).
    rewrite app_assoc in El. apply app_inj_tail in El as [_ <-].
    apply in_or_app. right. left. reflexivity. }
  assert (Hnot : ~ In sp w).
  { intros Hin. rewrite List.Forall_forall in Hw. rewrite (Hw _ Hin) in Hsp. discriminate. }
  apply app_eq_app in E as [l [[-> ->]|[El E]]]; [right; exists l; auto|].
  destruct l as [|x l].
  { right. exists []. rewrite app_nil_r in El. simpl in E.
    split; [rewrite app_nil_r; congruence|simpl; congruence]. }
  apply app_eq_app in E as [m [[-> _]|[Em ->]]].
  - exfalso. apply Hnot. apply in_or_app. left. apply (Hlast pre); [exact El|discriminate].
  - left. exists m. rewrite Em in El. split; [|auto].
    intros ->. rewrite app_nil_r in El. apply Hnot.
    apply (Hlast pre); [exact El|exact Hne].
Qed.

(** An occurrence in [a ++ t ++ rest], where [a] and [t] end with
    whitespace, lies in [t] or is an occurrence in [a ++ rest]; either way
    between the same kind of neighbours. *)
Lemma occurrence_without_block (a t rest pre w post : str) :
  ends_with_space a -> ends_with_space t ->
  w <> [] -> Forall (fun x => is_space x = false) w ->
  pre ++ w ++ post = a ++ t ++ rest ->
  (exists l m, t = l ++ w ++ m /\
               ends_with_word l = ends_with_word pre /\
               starts_with_word m = starts_with_word post) \/
  (exists pre2 post2, a ++ rest = pre2 ++ w ++ post2 /\
                      ends_with_word pre2 = ends_with_word pre /\
                      starts_with_word post2 = starts_with_word post).
Proof.
  intros Ha Ht Hne Hw E.
  destruct (occurrence_across_space a (t ++ rest) pre w post Ha Hne Hw E)
    as [(m & Hm & -> & ->)|(l & -> & E2)].
  - right. exists pre, (m ++ rest). split; [rewrite <- !app_assoc; reflexivity|].
    split; [reflexivity|]. rewrite !starts_with_word_app by assumption. reflexivity.
  - symmetry in E2.
    destruct (occurrence_across_space t rest l w post Ht Hne Hw E2)
      as [(m & Hm & -> & ->)|(l' & -> & ->)].
    + left. exists l, m. split; [reflexivity|].
      split; [symmetry; apply ends_with_word_after_space, Ha|].
      rewrite starts_with_word_app by assumption. reflexivity.
    + right. exists (a ++ l'), post. split; [rewrite <- app_assoc; reflexivity|].
      split; [|reflexivity].
      rewrite ends_with_word_after_space by exact Ha.
      rewrite app_assoc.
      assert (Hat : ends_with_space (a ++ t)).
      { destruct Ht as (t0 & c & -> & Hc). exists (a ++ t0), c.
        rewrite app_assoc. auto. }
      rewrite ends_with_word_after_space by exact Hat. reflexivity.
Qed.

(** Taking a block that ends with whitespace and holds no banned token out
    of a text, after whitespace, removes no banned token from around it. *)
Lemma banned_token_without_block a t rest :
  ends_with_space a -> ends_with_space t -> ~ contains_banned_token t ->
  contains_banned_token (a ++ t ++ rest) -> contains_banned_token (a ++ rest).
Proof.
  intros Ha Ht Hclean H.
  assert (Hlit : forall tok : str, tok <> [] -> Forall (fun x => is_space x = false) tok ->
            occurs_in tok (a ++ t ++ rest) -> occurs_in tok t \/ occurs_in tok (a ++ rest)).
  { intros tok Hne Htok (pre & post & E). symmetry in E.
    destruct (occurrence_without_block a t rest pre tok post Ha Ht Hne Htok E)
      as [(l & m & E' & _)|(pre2 & post2 & E' & _)].
    - left. exists l, m. exact E'.
    - right. exists pre2, post2. exact E'. }
  destruct H as [(kw & w & Hin & Hci & pre & post & E & Hpre & Hpost)|[Hsemi|[H|H]]].
  - destruct (banned_keywords_words kw Hin) as [Hkne Hkw].
    pose proof (ci_eq_word _ _ Hci Hkw) as Hw.
    assert (Hne : w <> [])
      by (intros ->; apply ci_eq_length in Hci; destruct kw; [congruence|discriminate]).
    assert (Hns : Forall (fun x => is_space x = false) w)
      by (eapply List.Forall_impl; [|exact Hw]; intros c; apply is_word_not_space).
    symmetry in E.
    destruct (occurrence_without_block a t rest pre w post Ha Ht Hne Hns E)
      as [(l & m & E' & Hl & Hm)|(pre2 & post2 & E' & Hl & Hm)].
    + exfalso. apply Hclean. left. exists kw, w. repeat split; try assumption.
      exists l, m. repeat split; congruence.
    + left. exists kw, w. repeat split; try assumption.
      exists pre2, post2. repeat split; congruence.
  - apply in_split in Hsemi as (pre & post & E).
    destruct (Hlit [59]) as [(l & m & E')|(l & m & E')];
      [discriminate|repeat constructor|exists pre, post; exact E| |].
    + exfalso. apply Hclean. right; left. rewrite E'. apply in_or_app. right. left.
      reflexivity.
    + right; left. rewrite E'. apply in_or_app. right. left. reflexivity.
  - destruct (Hlit (lit "--")) as [H'|H']; [discriminate|repeat constructor|exact H| |].
    + exfalso. apply Hclean. right; right; left. exact H'.
    + right; right; left. exact H'.
  - destruct (Hlit (lit "/*")) as [H'|H']; [discriminate|repeat constructor|exact H| |].
    + exfalso. apply Hclean. right; right; right. exact H'.
    + right; right; right. exact H'.
Qed.

(** ** The inserted clause is clean *)

Lemma is_ident_start_canon x : is_ident_start (canon x) = is_ident_start x.
Proof.
  unfold canon. destruct (is_lower x) eqn:E; [|reflexivity].
  assert (H : is_ident_start x = true) by char_arith. rewrite H. char_arith.
Qed.

Lemma ci_eq_ident w kw :
  ci_eq w kw -> Forall (fun c => is_ident_start c = true) kw ->
  Forall (fun c => is_ident_start c = true) w.
Proof.
  unfold ci_eq. revert kw. induction w as [|x w IH]; intros kw E H; [constructor|].
  destruct kw as [|c kw]; [discriminate|]. simpl in E. injection E as Ec E.
  inversion H; subst. constructor; [|eauto].
  rewrite <- is_ident_start_canon, Ec, is_ident_start_canon. assumption.
Qed.

(** The banned keywords are made of letters and underscores, have three
    characters or more, and none reads TOP or starts with O or P. *)
Lemma banned_keyword_shape kw w :
  In kw banned_keywords -> ci_eq w kw ->
  Forall (fun c => is_ident_start c = true) w /\
  exists w1 w2 w3 w', w = w1 :: w2 :: w3 :: w' /\
    ~ (canon w1 = 84 /\ canon w2 = 79) /\ canon w1 <> 79 /\ canon w1 <> 80.
Proof.
  intros Hin Hci. split.
  - apply (ci_eq_ident _ _ Hci).
    clear Hci. revert kw Hin. apply List.Forall_forall. repeat constructor.
  - pose proof (ci_eq_length _ _ Hci) as L.
    assert (H3 : forall k, In k banned_keywords ->
              exists c1 c2 c3 k', List.map canon k = c1 :: c2 :: c3 :: k' /\
                ~ (c1 = 84 /\ c2 = 79) /\ c1 <> 79 /\ c1 <> 80).
    { apply List.Forall_forall.
      repeat (constructor;
              [do 4 eexists; split; [reflexivity|];
               split; [intros [? ?]|split]; discriminate|]).
      constructor. }
    destruct (H3 kw Hin) as (c1 & c2 & c3 & k' & E & Hn). unfold ci_eq in Hci.
    rewrite E in Hci. destruct w as [|w1 [|w2 [|w3 w']]]; try discriminate Hci.
    injection Hci as E1 E2 E3 _. exists w1, w2, w3, w'. rewrite E1, E2.
    split; [reflexivity|exact Hn].
Qed.

Lemma uint_digits_not_ident u :
  Forall (fun c => is_ident_start c = false) (uint_digits u).
Proof. induction u; simpl; constructor; auto. Qed.

Lemma int_to_string_chars z :
  Forall (fun c => is_ident_start c = false /\ c <> 59 /\ c <> 47) (int_to_string z) /\
  (count_occ N.eq_dec (int_to_string z) 45%N <= 1)%nat.
Proof.
  assert (Hd : forall u, Forall (fun c => is_ident_start c = false /\ c <> 59 /\ c <> 47)
                           (uint_digits u) /\
                         count_occ N.eq_dec (uint_digits u) 45 = 0%nat).
  { induction u; simpl; [split; [constructor|reflexivity]|..];
      destruct IHu as [IH1 IH2];
      (split; [constructor; [repeat split; discriminate|exact IH1]|exact IH2]). }
  destruct z as [|p|p]; simpl.
  - split; [repeat constructor; discriminate|lia].
  - destruct (Hd (Pos.to_uint p)) as [H1 H2]. split; [exact H1|lia].
  - destruct (Hd (Pos.to_uint p)) as [H1 H2].
    split; [constructor; [repeat split; discriminate|exact H1]|lia].
Qed.

(** The inserted clause, [TOP(n) ], holds no banned token. *)
Lemma top_clause_clean n :
  ~ contains_banned_token (lit "TOP(" ++ num_to_string n ++ lit ") ").
Proof.
  destruct n as [|z].
  { intros H. apply token_found_banned in H. vm_compute in H. discriminate. }
  simpl num_to_string. destruct (int_to_string_chars z) as [Hch Hcount].
  set (ds := int_to_string z) in *.
  assert (Hrest : Forall (fun c => is_ident_start c = false /\ c <> 59 /\ c <> 47)
                    (40 :: ds ++ lit ") ")).
  { constructor; [repeat split; discriminate|]. apply Forall_app. split; [exact Hch|].
    repeat constructor; discriminate. }
  change (lit "TOP(" ++ ds ++ lit ") ") with (84 :: 79 :: 80 :: 40 :: ds ++ lit ") ").
  assert (Hall : forall c, In c (84 :: 79 :: 80 :: 40 :: ds ++ lit ") ") ->
                           c <> 59 /\ c <> 47).
  { intros c [<-|[<-|[<-|Hc]]]; try (split; discriminate).
    rewrite List.Forall_forall in Hrest. apply Hrest in Hc. tauto. }
  intros [(kw & w & Hin & Hci & l & m & E & _)|[Hsemi|[(l & m & E)|(l & m & E)]]].
  - destruct (banned_keyword_shape kw w Hin Hci)
      as (Hid & w1 & w2 & w3 & w' & -> & Hto & Ho & Hp).
    assert (Hhead : forall l' t, 40 :: ds ++ lit ") " = l' ++ (w1 :: t) -> False).
    { intros l' t E'. inversion Hid as [|? ? Hw1 _]; subst.
      rewrite List.Forall_forall in Hrest.
      destruct (Hrest w1) as [Hf _]; [rewrite E'; apply in_or_app; right; left; reflexivity|].
      congruence. }
    destruct l as [|l1 [|l2 [|l3 l']]]; simpl in E; injection E as E; subst.
    + apply Hto. split; reflexivity.
    + apply Ho. reflexivity.
    + apply Hp. reflexivity.
    + apply (Hhead l' (w2 :: w3 :: w' ++ m)). assumption.
  - apply Hall in Hsemi. tauto.
  - assert (C : (count_occ N.eq_dec (l ++ lit "--" ++ m) 45%N >= 2)%nat).
    { rewrite !count_occ_app. change (count_occ N.eq_dec (lit "--") 45) with 2%nat. lia. }
    rewrite <- E in C. change (84 :: 79 :: 80 :: 40 :: ds ++ lit ") ")
      with (lit "TOP(" ++ ds ++ lit ") ") in C.
    rewrite !count_occ_app in C.
    change (count_occ N.eq_dec (lit "TOP(") 45) with 0%nat in C.
    change (count_occ N.eq_dec (lit ") ") 45) with 0%nat in C. lia.
  - destruct (Hall 47) as [_ H]; [|congruence].
    rewrite E. apply in_or_app. right. left. reflexivity.
Qed.

(** ** The pipeline keeps a statement valid *)

Lemma trimmed_iff s :
  trimmed s <-> starts_with_space s = false /\ starts_with_space (rev s) = false.
Proof.
  assert (H : forall t, drop_spaces t = t <-> starts_with_space t = false).
  { intros [|c t]; simpl; [tauto|]. destruct (is_space c) eqn:E; split; try congruence.
    intros Hd. exfalso. destruct (drop_spaces_suffix t) as [ws Hws].
    apply (f_equal (@length N)) in Hd. rewrite Hws in Hd at 2.
    simpl in Hd. rewrite length_app in Hd. lia. }
  unfold trimmed. rewrite !H. tauto.
Qed.

Lemma rewritten_space o c : rewritten o c -> is_space o = is_space c.
Proof. intros [->|[-> ->]]; reflexivity. Qed.

Lemma rewritten_starts_space o s :
  Forall2 rewritten o s -> starts_with_space o = starts_with_space s.
Proof. destruct 1; [reflexivity|]. simpl. apply rewritten_space. assumption. Qed.

Lemma rewritten_trimmed o s : Forall2 rewritten o s -> trimmed s -> trimmed o.
Proof.
  intros H. rewrite !trimmed_iff.
  rewrite (rewritten_starts_space _ _ H), (rewritten_starts_space _ _ (rewritten_rev _ _ H)).
  tauto.
Qed.

Lemma ci_eq_no_colon w kw :
  ci_eq w kw -> Forall (fun c => is_word c = true) kw -> Forall (fun c => c <> 58) w.
Proof.
  intros Hci Hkw. eapply List.Forall_impl; [|exact (ci_eq_word _ _ Hci Hkw)].
  intros c. apply is_word_not_colon.
Qed.

Lemma starts_with_select_ws_rewritten s :
  starts_with_select_ws s -> starts_with_select_ws (colons_to_ats s).
Proof.
  intros (w & c & rest & -> & Hw & Hc). exists w, c, (colons_to_ats rest).
  repeat split; try assumption.
  rewrite colons_to_ats_app by (apply (ci_eq_no_colon _ _ Hw); repeat constructor).
  simpl. destruct (c =? 58) eqn:E; [|reflexivity].
  apply N.eqb_eq in E. subst. discriminate Hc.
Qed.

Lemma validated_facts sql s :
  validateSelectOnly sql = Ok s ->
  trimmed s /\ starts_with_select_ws s /\ ~ contains_banned_token s.
Proof.
  intros H. apply validateSelectOnly_Ok in H as (-> & Hs & Hb).
  split; [apply trim_trimmed|]. split; [exact Hs|].
  intros Hc. apply token_found_banned in Hc. congruence.
Qed.

Lemma validate_trimmed s :
  trimmed s -> starts_with_select_ws s -> ~ contains_banned_token s ->
  validateSelectOnly s = Ok s.
Proof.
  intros Ht Hs Hb. unfold validateSelectOnly. rewrite (trimmed_trim _ Ht).
  apply test_select_only_iff in Hs. rewrite Hs. simpl.
  destruct (test true re_banned s) eqn:E; [|reflexivity].
  apply banned_found_token in E. contradiction.
Qed.

(** The placeholder rewriting keeps a valid statement valid. *)
Lemma toTediousNamedParams_keeps_valid s :
  validateSelectOnly s = Ok s ->
  validateSelectOnly (toTediousNamedParams s) = Ok (toTediousNamedParams s).
Proof.
  intros H. apply validated_facts in H as (Ht & Hs & Hb).
  rewrite toTediousNamedParams_eq.
  pose proof (colons_to_ats_rewritten s) as Hr. apply validate_trimmed.
  - exact (rewritten_trimmed _ _ Hr Ht).
  - apply starts_with_select_ws_rewritten, Hs.
  - intros Hc. apply Hb. exact (rewritten_banned_token _ _ Hr Hc).
Qed.

Lemma top_clause_ends_with_space n :
  ends_with_space (lit "TOP(" ++ num_to_string n ++ lit ") ").
Proof.
  exists (lit "TOP(" ++ num_to_string n ++ [41]), 32. split; [|reflexivity].
  rewrite <- !app_assoc. reflexivity.
Qed.

Lemma spaces_end_with_space (h : str) x ws :
  is_space x = true -> Forall (fun c => is_space c = true) ws ->
  ends_with_space (h ++ x :: ws).
Proof.
  intros Hx Hws. destruct (@exists_last _ (x :: ws)) as (l & y & E); [discriminate|].
  exists (h ++ l), y. rewrite E, app_assoc. split; [reflexivity|].
  assert (Hin : In y (x :: ws)) by (rewrite E; apply in_or_app; right; left; reflexivity).
  destruct Hin as [<-|Hin]; [exact Hx|].
  rewrite List.Forall_forall in Hws. auto.
Qed.

(** With the clause in, a statement that was trimmed, started with SELECT
    and held no banned token is still so. *)
Lemma injectTopLimit_valid s n :
  trimmed s -> starts_with_select_ws s -> ~ contains_banned_token s ->
  validateSelectOnly (injectTopLimit s n) = Ok (injectTopLimit s n).
Proof.
  intros Ht Hs Hb.
  destruct (test true re_has_top s) eqn:Htop.
  { unfold injectTopLimit. rewrite Htop. apply validate_trimmed; assumption. }
  destruct (injectTopLimit_inserts s n Hs Htop)
    as (kw & x & ws1 & rest & E & Hkw & Hx & Hws1 & ->).
  set (T := lit "TOP(" ++ num_to_string n ++ lit ") ").
  assert (Ha : ends_with_space (kw ++ x :: ws1))
    by (apply spaces_end_with_space; assumption).
  assert (Es : s = (kw ++ x :: ws1) ++ rest)
    by (rewrite E; repeat (rewrite <- app_assoc; simpl); reflexivity).
  assert (Eo : kw ++ x :: ws1 ++ lit "TOP(" ++ num_to_string n ++ lit ") " ++ rest =
               (kw ++ x :: ws1) ++ T ++ rest)
    by (unfold T; repeat (rewrite <- app_assoc; simpl); reflexivity).
  rewrite Eo. apply validate_trimmed.
  - apply trimmed_iff in Ht as [Ht1 Ht2]. apply trimmed_iff.
    destruct (ci_eq_select_head kw Hkw) as (k0 & kw' & -> & _ & _).
    split; [rewrite Es in Ht1; exact Ht1|].
    destruct rest as [|r0 rest].
    + exfalso. rewrite Es, app_nil_r in Ht2.
      destruct Ha as (a0 & c & Ea & Hc). rewrite Ea, rev_app_distr in Ht2. simpl in Ht2.
      congruence.
    + rewrite Es in Ht2. rewrite !app_assoc, rev_app_distr in *.
      destruct (rev (r0 :: rest)) eqn:R; [apply rev_nil_inv in R; discriminate|].
      exact Ht2.
  - exists kw, x, (ws1 ++ T ++ rest). repeat split; try assumption.
    repeat (rewrite <- app_assoc; simpl). reflexivity.
  - intros Hc. apply Hb. rewrite Es.
    apply (banned_token_without_block _ T rest Ha (top_clause_ends_with_space n)
             (top_clause_clean n) Hc).
Qed.

(** X4. [injectTopLimit] keeps a validated statement valid: whatever the
    limit, its output still passes [validateSelectOnly] unchanged, so the
    inserted clause brings in no banned token and joins none across its ends. *)
Theorem injectTopLimit_keeps_valid (sql s : str) (n : num) :
  validateSelectOnly sql = Ok s ->
  validateSelectOnly (injectTopLimit s n) = Ok (injectTopLimit s n).
Proof.
  intros H. apply validated_facts in H as (Ht & Hs & Hb).
  apply injectTopLimit_valid; assumption.
Qed.

Lemma injectTopLimit_keeps_valid_witness :
  validateSelectOnly (lit " SELECT name FROM t WHERE id = :id ") =
    Ok (lit "SELECT name FROM t WHERE id = :id") /\
  validateSelectOnly (injectTopLimit (lit "SELECT name FROM t WHERE id = :id") (Int 25)) =
    Ok (injectTopLimit (lit "SELECT name FROM t WHERE id = :id") (Int 25)).
Proof.
  assert (H : validateSelectOnly (lit " SELECT name FROM t WHERE id = :id ") =
              Ok (lit "SELECT name FROM t WHERE id = :id")) by reflexivity.
  split; [exact H|]. exact (injectTopLimit_keeps_valid _ _ (Int 25) H).
Defined.

Lemma sql_query_statement_valid_parts default sql row_limit stmt limit :
  sql_query_statement default sql row_limit = inr (stmt, limit) ->
  validateSelectOnly stmt = Ok stmt /\ ~ has_placeholder stmt.
Proof.
  unfold sql_query_statement. destruct sql as [| | | |[|c text]]; try discriminate.
  destruct (validateSelectOnly (c :: text)) as [s|msg] eqn:Hv; [|discriminate].
  intros [= <- <-]. split.
  - apply toTediousNamedParams_keeps_valid.
    apply validated_facts in Hv as (Ht & Hs & Hb).
    apply injectTopLimit_valid; assumption.
  - rewrite toTediousNamedParams_eq. apply colons_to_ats_no_placeholder.
Qed.

(** X5. Whatever statement the [sql-query] handler hands to [runQuery] would
    itself pass [validateSelectOnly] unchanged: it starts with SELECT and
    whitespace and holds no banned keyword, semicolon or comment marker, also
    after the TOP clause went in and the placeholders were rewritten; and no
    placeholder is left in it. *)
Theorem sql_query_statement_valid (default : num) (sql row_limit : json)
    (stmt : str) (limit : num) :
  sql_query_statement default sql row_limit = inr (stmt, limit) ->
  validateSelectOnly stmt = Ok stmt /\ ~ has_placeholder stmt /\
  limit = effective_limit default row_limit.
Proof.
  intros H. destruct (sql_query_statement_valid_parts _ _ _ _ _ H) as [Hv Hp].
  split; [exact Hv|]. split; [exact Hp|].
  unfold sql_query_statement in H. destruct sql as [| | | |[|c text]]; try discriminate.
  destruct (validateSelectOnly (c :: text)); [|discriminate]. congruence.
Qed.

Lemma sql_query_statement_valid_witness :
  sql_query_statement (Int 200)
    (JString (lit "SELECT * FROM SalesLT.Customer WHERE CustomerID = :id")) (JNumber 10) =
    inr (lit "SELECT TOP(10) * FROM SalesLT.Customer WHERE CustomerID = @id", Int 10) /\
  validateSelectOnly (lit "SELECT TOP(10) * FROM SalesLT.Customer WHERE CustomerID = @id") =
    Ok (lit "SELECT TOP(10) * FROM SalesLT.Customer WHERE CustomerID = @id").
Proof.
  assert (H : sql_query_statement (Int 200)
                (JString (lit "SELECT * FROM SalesLT.Customer WHERE CustomerID = :id"))
                (JNumber 10) =
              inr (lit "SELECT TOP(10) * FROM SalesLT.Customer WHERE CustomerID = @id",
                   Int 10)) by reflexivity.
  split; [exact H|]. exact (proj1 (sql_query_statement_valid _ _ _ _ _ H)).
Defined.

(** ** The effective row limit, in general *)

Lemma clamp_valid z : valid_limit (Math_max (Int 1) (Math_min (Int z) (Int 5000))).
Proof. exists (Z.max 1 (Z.min z 5000)). split; [reflexivity|lia]. Qed.

(** X6. Whatever the request and the configured default, the effective row
    limit is [NaN] or an integer within [1, 5000]: never an integer out of
    range. *)
Theorem effective_limit_nan_or_valid (default : num) (row_limit : json) :
  effective_limit default row_limit = NaN \/
  valid_limit (effective_limit default row_limit).
Proof.
  unfold effective_limit.
  destruct (parseInt (if truthy row_limit then json_to_string row_limit
                      else num_to_string default)) as [|z].
  - left. reflexivity.
  - right. apply clamp_valid.
Qed.

Lemma int_to_string_truthy z : truthy (JString (int_to_string z)) = true.
Proof.
  destruct z as [|p|p]; simpl; try reflexivity.
  pose proof (Unsigned.to_uint_nonnil p) as H.
  destruct (Pos.to_uint p); simpl; congruence.
Qed.

(** X7. An integer [row_limit] other than 0 and below 10^21 in magnitude,
    or a text of decimal digits, is clamped into [1, 5000]; an omitted or
    falsy [row_limit] gives the integer default, when below 10^21 in
    magnitude, clamped the same way.  (From 10^21 on a number prints in
    exponent form and [parseInt] reads its first digits only.) *)
Theorem effective_limit_clamps (default : num) (d z : Z) (row_limit : json) :
  (z <> 0%Z -> (Z.abs z < 10 ^ 21)%Z ->
   effective_limit default (JNumber z) = Int (Z.max 1 (Z.min z 5000))) /\
  effective_limit default (JString (int_to_string z)) = Int (Z.max 1 (Z.min z 5000)) /\
  (truthy row_limit = false -> (Z.abs d < 10 ^ 21)%Z ->
   effective_limit (Int d) row_limit = Int (Z.max 1 (Z.min d 5000))).
Proof.
  split; [|split].
  - intros Hz _. unfold effective_limit. simpl truthy.
    apply Z.eqb_neq in Hz. rewrite Hz. simpl negb. cbv iota.
    simpl json_to_string. rewrite parseInt_int_to_string. reflexivity.
  - unfold effective_limit. rewrite int_to_string_truthy. simpl json_to_string.
    rewrite parseInt_int_to_string. reflexivity.
  - intros Hf _. unfold effective_limit. rewrite Hf. simpl num_to_string.
    rewrite parseInt_int_to_string. reflexivity.
Qed.

Lemma effective_limit_clamps_witness :
  (7000 <> 0)%Z /\ (Z.abs 7000 < 10 ^ 21)%Z /\ truthy JNull = false /\
  (Z.abs 200 < 10 ^ 21)%Z /\
  effective_limit (Int 200) (JNumber 7000) = Int 5000 /\
  effective_limit (Int 200) JNull = Int 200.
Proof.
  assert (H7 : (Z.abs 7000 < 10 ^ 21)%Z) by reflexivity.
  assert (H2 : (Z.abs 200 < 10 ^ 21)%Z) by reflexivity.
  split; [discriminate|]. split; [exact H7|]. split; [reflexivity|]. split; [exact H2|].
  destruct (effective_limit_clamps (Int 200) 200 7000 JNull) as (H1 & _ & H3).
  split; [exact (H1 ltac:(discriminate) H7)|exact (H3 eq_refl H2)].
Defined.

(** ** The sql-query handler *)

Lemma shape_row_lookup columns r : forall (obj : gmap (list N) json) (c : list N),
  fold_left (fun obj c =>
               if decide (c = lit "__proto__") then obj else <[ c := field r c ]> obj)
    columns obj !! c =
  if decide (c ∈ columns /\ c <> lit "__proto__") then Some (field r c) else obj !! c.
Proof.
  induction columns as [|k columns IH]; intros obj c; cbn [fold_left].
  - rewrite decide_False; [reflexivity|]. intros [H _]. inversion H.
  - rewrite IH. destruct (decide (c ∈ columns /\ c <> lit "__proto__")) as [[Hin Hc]|Hn].
    + rewrite decide_True; [reflexivity|]. split; [right; exact Hin|exact Hc].
    + destruct (decide (k = lit "__proto__")) as [Hk|Hk].
      * rewrite decide_False; [reflexivity|].
        intros [H Hc]. apply elem_of_cons in H as [->|H]; [congruence|tauto].
      * destruct (decide (k = c)) as [->|Hkc].
        -- rewrite lookup_insert_eq. rewrite decide_True; [reflexivity|].
           split; [left|exact Hk].
        -- rewrite lookup_insert_ne by exact Hkc.
           rewrite decide_False; [reflexivity|].
           intros [H Hc]. apply elem_of_cons in H as [->|H]; [congruence|tauto].
Qed.

Lemma shape_row_shaped columns r : row_shaped columns r (shape_row columns r).
Proof.
  intros c. unfold shape_row. rewrite shape_row_lookup.
  destruct (decide (c ∈ columns /\ c <> lit "__proto__")) as [[H Hc]|H];
    rewrite ?list_elem_of_In in H; split; intros; try tauto; apply lookup_empty.
Qed.

Section QueryHandlerFacts.

Variable date : Type.
Variable other : Type.
Variable ToString : jsval date other -> result str.
Variable refuses : list (binding date other) -> binding date other -> option str.

(** X8. The [sql-query] handler calls the database at most once, and only
    with a statement that itself passes [validateSelectOnly] and has no
    placeholder left, together with the inputs the binding loop makes of
    the request's params, the loop having ended without a throw. *)
Theorem sql_query_handler_calls (default : num) (req_json : result (query_body date other))
    (getPool : result (db_call date other -> result recordset)) :
  (length (snd (sql_query_handler ToString refuses default req_json getPool)) <= 1)%nat /\
  forall call,
    In call (snd (sql_query_handler ToString refuses default req_json getPool)) ->
    validateSelectOnly (dc_sql call) = Ok (dc_sql call) /\
    ~ has_placeholder (dc_sql call) /\
    exists body, req_json = Ok body /\
      bind_params ToString refuses (qb_params body) = Ok (dc_inputs call).
Proof.
  unfold sql_query_handler.
  destruct req_json as [body|error]; [|split; [simpl; lia|intros ? []]].
  destruct (sql_query_statement default (qb_sql body) (qb_row_limit body))
    as [[status error]|[sql limit]] eqn:Hs; [split; [simpl; lia|intros ? []]|].
  destruct getPool as [db|error]; [|split; [simpl; lia|intros ? []]].
  destruct (bind_params ToString refuses (qb_params body)) as [inputs|error] eqn:Hb;
    [|split; [simpl; lia|intros ? []]].
  apply sql_query_statement_valid_parts in Hs as [Hv Hp].
  destruct (db _); (split; [simpl; lia|]); intros call [<-|[]]; simpl; eauto.
Qed.

(** X10. In a 200 answer, [row_count] is the number of rows the database
    returned, [sql_used] is the statement that was run, and the truncation
    note is there exactly when the effective limit is an integer that the
    row count reaches.  When every row holds every listed column, every
    row of the answer is keyed by exactly the listed columns, with the
    record's values, but for a column named [__proto__], which is left
    out. *)
Theorem sql_query_handler_result (default : num) (req_json : result (query_body date other))
    (getPool : result (db_call date other -> result recordset))
    (r : query_result) (log : list (db_call date other)) :
  sql_query_handler ToString refuses default req_json getPool = (QueryOk r, log) ->
  exists body db call rs,
    req_json = Ok body /\ getPool = Ok db /\ log = [call] /\ db call = Ok rs /\
    qr_sql_used r = dc_sql call /\
    qr_row_count r = length (rs_rows rs) /\
    length (qr_rows r) = length (rs_rows rs) /\
    (rows_complete (qr_columns r) (rs_rows rs) ->
     Forall2 (row_shaped (qr_columns r)) (rs_rows rs) (qr_rows r)) /\
    (qr_notes r <> None <->
     exists z, effective_limit default (qb_row_limit body) = Int z /\
               (z <= Z.of_nat (length (rs_rows rs)))%Z).
Proof.
  unfold sql_query_handler.
  destruct req_json as [body|error]; [|discriminate].
  destruct (sql_query_statement default (qb_sql body) (qb_row_limit body))
    as [[status error]|[sql limit]] eqn:Hs; [discriminate|].
  destruct getPool as [db|error]; [|discriminate].
  destruct (bind_params ToString refuses (qb_params body)) as [inputs|error];
    [|discriminate].
  destruct (db _) as [rs|error] eqn:Hdb; [|discriminate].
  assert (Hl : limit = effective_limit default (qb_row_limit body)).
  { unfold sql_query_statement in Hs.
    destruct (qb_sql body) as [| | | |[|c text]]; try discriminate.
    destruct (validateSelectOnly (c :: text)); [|discriminate]. congruence. }
  intros [= <- <-]. eexists body, db, _, rs.
  split; [reflexivity|]. split; [reflexivity|]. split; [reflexivity|].
  split; [exact Hdb|]. split; [reflexivity|]. cbn [shape_result qr_row_count qr_rows
    qr_columns qr_notes]. rewrite !length_map.
  split; [reflexivity|]. split; [reflexivity|]. split; [|split].
  - intros _. induction (rs_rows rs) as [|x l IH]; simpl; constructor; [|exact IH].
    apply shape_row_shaped.
  - rewrite <- Hl. destruct limit as [|z]; simpl.
    + intros H. congruence.
    + destruct (Z.leb_spec z (Z.of_nat (length (rs_rows rs)))); [eauto|congruence].
  - rewrite <- Hl. intros (z & -> & Hz). simpl.
    apply Z.leb_le in Hz. rewrite Hz. discriminate.
Qed.

End QueryHandlerFacts.

Lemma sql_query_handler_result_witness :
  example_query_run = (QueryOk example_query_result, snd example_query_run) /\
  qr_row_count example_query_result = 1%nat /\
  qr_notes example_query_result <> None.
Proof.
  assert (E : example_query_run = (QueryOk example_query_result, snd example_query_run))
    by (vm_compute; reflexivity).
  split; [exact E|].
  destruct (sql_query_handler_result unit unit example_ToString example_refuses (Int 200)
              (Ok example_query_body) (Ok example_db) _ _ E)
    as (body & db & call & rs & Hb & Hdb & _ & Hrs & _ & Hc & _ & _ & Hn).
  injection Hb as <-. injection Hdb as <-. injection Hrs as <-. split; [exact Hc|].
  apply Hn. exists 1%Z. split; [reflexivity|simpl; lia].
Defined.

(** ** Splitting and joining *)

Lemma split_on_not_nil sep s : split_on sep s <> [].
Proof.
  destruct s as [|c s]; simpl; [discriminate|].
  destruct (c =? sep); [discriminate|]. destruct (split_on sep s); discriminate.
Qed.

Lemma split_on_no_sep sep s w : In w (split_on sep s) -> ~ In sep w.
Proof.
  revert w. induction s as [|c s IH]; simpl; intros w Hw.
  - destruct Hw as [<-|[]]. intros [].
  - destruct (N.eqb_spec c sep) as [->|Hc].
    + destruct Hw as [<-|Hw]; [intros []|]. apply IH. exact Hw.
    + destruct (split_on sep s) as [|w0 ws] eqn:E.
      * destruct Hw as [<-|[]]. intros [H|[]]. congruence.
      * destruct Hw as [<-|Hw].
        -- intros [H|H]; [congruence|]. apply (IH w0); [left; reflexivity|exact H].
        -- apply IH. right. exact Hw.
Qed.

Lemma split_on_cons_sep sep s : split_on sep (sep :: s) = [] :: split_on sep s.
Proof. simpl. rewrite N.eqb_refl. reflexivity. Qed.

Lemma split_on_app sep a b :
  ~ In sep a -> split_on sep (a ++ sep :: b) = a :: split_on sep b.
Proof.
  induction a as [|c a IH]; intros Ha.
  - apply split_on_cons_sep.
  - cbn [app split_on]. destruct (N.eqb_spec c sep) as [->|Hc].
    + destruct Ha. left. reflexivity.
    + rewrite IH by (intros H; apply Ha; right; exact H). reflexivity.
Qed.

Lemma split_on_whole sep a : ~ In sep a -> split_on sep a = [a].
Proof.
  induction a as [|c a IH]; intros Ha; [reflexivity|].
  cbn [split_on]. destruct (N.eqb_spec c sep) as [->|Hc].
  - destruct Ha. left. reflexivity.
  - rewrite IH by (intros H; apply Ha; right; exact H). reflexivity.
Qed.

Lemma join_cons sep x y l : join sep (x :: y :: l) = x ++ sep ++ join sep (y :: l).
Proof. reflexivity. Qed.

Lemma join_split_on sep s : join [sep] (split_on sep s) = s.
Proof.
  induction s as [|c s IH]; [reflexivity|].
  cbn [split_on]. destruct (N.eqb_spec c sep) as [->|Hc].
  - pose proof (split_on_not_nil sep s) as Hn.
    destruct (split_on sep s) as [|w ws]; [congruence|].
    rewrite join_cons, IH. reflexivity.
  - pose proof (split_on_not_nil sep s) as Hn.
    destruct (split_on sep s) as [|w ws]; [congruence|].
    destruct ws as [|w' ws].
    + simpl in IH |- *. congruence.
    + rewrite join_cons in IH |- *. rewrite <- IH. reflexivity.
Qed.

Lemma split_on_join sep l :
  l <> [] -> (forall w, In w l -> ~ In sep w) -> split_on sep (join [sep] l) = l.
Proof.
  induction l as [|x l IH]; [congruence|]. intros _ Hl.
  destruct l as [|y l].
  - simpl. apply split_on_whole. apply Hl. left. reflexivity.
  - rewrite join_cons. cbn [app]. rewrite split_on_app by (apply Hl; left; reflexivity).
    rewrite IH; [reflexivity|discriminate|]. intros w Hw. apply Hl. right. exact Hw.
Qed.

Lemma in_drop_spaces c s : In c (drop_spaces s) -> In c s.
Proof.
  destruct (drop_spaces_suffix s) as [ws E]. intros H. rewrite E.
  apply in_or_app. right. exact H.
Qed.

Lemma in_trim c s : In c (trim s) -> In c s.
Proof.
  unfold trim. intros H. apply in_rev in H. apply in_drop_spaces in H.
  apply in_rev in H. apply in_drop_spaces in H. exact H.
Qed.

(** X11. Every entry of a comma-separated setting ([OBJECT_ALLOWLIST],
    [SCHEMA_EXCLUDE_SCHEMAS]) is non-empty, has no whitespace at either end
    and holds no comma; and a list of such entries, joined with commas, is
    read back as it was. *)
Theorem comma_list_entries (s : str) (l : list str) :
  (forall x, In x (comma_list s) -> x <> [] /\ trimmed x /\ ~ In 44 x) /\
  ((forall x, In x l -> x <> [] /\ trimmed x /\ ~ In 44 x) ->
   comma_list (join (lit ",") l) = l).
Proof.
  unfold comma_list. split.
  - intros x Hx. apply List.filter_In in Hx as [Hx Hne].
    apply List.in_map_iff in Hx as (w & <- & Hw). split; [|split].
    + destruct (trim w); [discriminate|discriminate].
    + apply trim_trimmed.
    + intros H. apply in_trim in H. exact (split_on_no_sep _ _ _ Hw H).
  - intros Hl. destruct l as [|x0 l0]; [reflexivity|].
    change (lit ",") with [44]. rewrite split_on_join;
      [|discriminate|intros w Hw; apply (Hl w Hw)].
    remember (x0 :: l0) as l eqn:El. clear El.
    induction l as [|x l IH]; [reflexivity|].
    cbn [List.map List.filter].
    destruct (Hl x (or_introl eq_refl)) as (Hne & Ht & _).
    rewrite (trimmed_trim x Ht). destruct x as [|c x]; [congruence|].
    f_equal. apply IH. intros y Hy. apply Hl. right. exact Hy.
Qed.

Lemma comma_list_entries_witness :
  (forall x, In x [lit "SalesLT.*"; lit "dbo.Orders"] ->
     x <> [] /\ trimmed x /\ ~ In 44 x) /\
  comma_list (lit "SalesLT.*,dbo.Orders") = [lit "SalesLT.*"; lit "dbo.Orders"].
Proof.
  assert (H : forall x, In x [lit "SalesLT.*"; lit "dbo.Orders"] ->
                x <> [] /\ trimmed x /\ ~ In 44 x).
  { intros x [<-|[<-|[]]]; (split; [discriminate|]); (split; [split; reflexivity|]);
      vm_compute; intros H; repeat destruct H as [H|H]; try discriminate H; exact H. }
  split; [exact H|].
  exact (proj2 (comma_list_entries [] [lit "SalesLT.*"; lit "dbo.Orders"]) H).
Defined.

(** X12. The qualified name of a relation whose schema holds no dot splits
    back into the schema and the parts of the name: [qn.split('.')] recovers
    the schema, and the name itself when it holds no dot, but only the part
    of the name before its first dot otherwise. *)
Theorem qname_split (sch nm : str) (ty : str) :
  ~ In 46 sch ->
  split_on 46 (qname (Object (JString sch) (JString nm) ty)) = sch :: split_on 46 nm /\
  schema_part (qname (Object (JString sch) (JString nm) ty)) = sch /\
  name_part (qname (Object (JString sch) (JString nm) ty)) = Some (schema_part nm) /\
  (~ In 46 nm -> name_part (qname (Object (JString sch) (JString nm) ty)) = Some nm).
Proof.
  intros Hs.
  assert (E : split_on 46 (qname (Object (JString sch) (JString nm) ty)) =
              sch :: split_on 46 nm).
  { unfold qname. cbn [o_schema o_name json_to_string].
    change (lit ".") with [46]. cbn [app]. apply split_on_app. exact Hs. }
  unfold schema_part, name_part. rewrite E. split; [reflexivity|]. split; [reflexivity|].
  split.
  - pose proof (split_on_not_nil 46 nm) as Hn.
    destruct (split_on 46 nm); [congruence|reflexivity].
  - intros Hn. rewrite (split_on_whole _ _ Hn). reflexivity.
Qed.

Lemma qname_split_witness :
  ~ In 46 (lit "SalesLT") /\
  name_part (qname (Object (JString (lit "SalesLT")) (JString (lit "v1.Orders")) (lit "TABLE")))
    = Some (lit "v1").
Proof.
  assert (H : ~ In 46 (lit "SalesLT")).
  { vm_compute. intros H. repeat destruct H as [H|H]; try discriminate H; exact H. }
  split; [exact H|].
  exact (proj1 (proj2 (proj2 (qname_split (lit "SalesLT") (lit "v1.Orders") (lit "TABLE") H)))).
Defined.

(** ** The maps of the schema handler *)

Lemma fold_upsert_append {V} (key : list (list N * json) -> str)
    (g : list (list N * json) -> V) rows : forall (mp : gmap (list N) (list V)) k,
  fold_left (fun mp r => upsert [] (fun l => l ++ [g r]) (key r) mp) rows mp !! k =
  match rows_of key k rows with
  | [] => mp !! k
  | hits => Some (default [] (mp !! k) ++ List.map g hits)
  end.
Proof.
  induction rows as [|r rows IH]; intros mp k; [reflexivity|].
  cbn [fold_left]. rewrite IH. unfold rows_of. cbn [List.filter].
  unfold upsert. destruct (decide (key r = k)) as [E|E].
  - rewrite (bool_decide_eq_true_2 _ E). subst k. rewrite lookup_insert_eq.
    cbn [default List.map]. unfold id.
    destruct (List.filter _ rows); [reflexivity|]. rewrite <- app_assoc. reflexivity.
  - rewrite (bool_decide_eq_false_2 _ E). rewrite lookup_insert_ne by exact E.
    reflexivity.
Qed.

Lemma build_fkMap_lookup rows k :
  build_fkMap rows !! k =
  match rows_of fk_key k rows with
  | [] => None
  | hits => Some (List.map edge_of_row hits)
  end.
Proof.
  unfold build_fkMap.
  rewrite (fold_upsert_append fk_key edge_of_row rows ∅ k). rewrite lookup_empty.
  reflexivity.
Qed.

Lemma build_colMap_lookup rows k :
  build_colMap rows !! k =
  match rows_of col_key k rows with
  | [] => None
  | hits => Some (List.map column_of_row hits)
  end.
Proof.
  unfold build_colMap.
  rewrite (fold_upsert_append col_key column_of_row rows ∅ k). rewrite lookup_empty.
  reflexivity.
Qed.

Lemma json_eqb_eq a b : json_eqb a b = true <-> a = b.
Proof.
  destruct a as [| |x|x|x], b as [| |y|y|y]; simpl; split; try congruence; try reflexivity.
  - intros H. apply Bool.eqb_prop in H. congruence.
  - intros [= ->]. apply Bool.eqb_reflx.
  - intros H. apply Z.eqb_eq in H. congruence.
  - intros [= ->]. apply Z.eqb_refl.
  - destruct (decide (x = y)); congruence.
  - intros [= ->]. destruct (decide (y = y)); congruence.
Qed.

Lemma set_has_add s x v : set_has (set_add s x) v = set_has s v || json_eqb v x.
Proof.
  unfold set_add. destruct (set_has s x) eqn:E.
  - destruct (json_eqb v x) eqn:Ev; [|rewrite orb_false_r; reflexivity].
    apply json_eqb_eq in Ev. subst v. rewrite E. reflexivity.
  - unfold set_has. rewrite existsb_app. simpl. rewrite orb_false_r. reflexivity.
Qed.

Lemma fold_upsert_set (key col : list (list N * json) -> _) rows :
  forall (mp : gmap (list N) (list json)) k v,
  match fold_left (fun mp r => upsert [] (fun s => set_add s (col r)) (key r) mp) rows mp !! k
  with Some s => set_has s v | None => false end =
  match mp !! k with Some s => set_has s v | None => false end ||
  existsb (fun r => json_eqb v (col r)) (rows_of key k rows).
Proof.
  induction rows as [|r rows IH]; intros mp k v.
  - simpl. rewrite orb_false_r. reflexivity.
  - cbn [fold_left]. rewrite IH. unfold rows_of. cbn [List.filter].
    unfold upsert. destruct (decide (key r = k)) as [E|E].
    + rewrite (bool_decide_eq_true_2 _ E). subst k. rewrite lookup_insert_eq.
      rewrite set_has_add. cbn [existsb]. rewrite orb_assoc.
      destruct (mp !! key r); reflexivity.
    + rewrite (bool_decide_eq_false_2 _ E). rewrite lookup_insert_ne by exact E.
      reflexivity.
Qed.

Lemma build_pkMap_has rows k v :
  match build_pkMap rows !! k with Some s => set_has s v | None => false end =
  existsb (fun r => json_eqb v (field r (lit "column_name"))) (rows_of pk_key k rows).
Proof.
  unfold build_pkMap.
  rewrite (fold_upsert_set pk_key (fun r => field r (lit "column_name")) rows ∅ k v).
  rewrite lookup_empty. reflexivity.
Qed.

Lemma build_colMap_default rows k :
  default [] (build_colMap rows !! k) = List.map column_of_row (rows_of col_key k rows).
Proof. rewrite build_colMap_lookup. destruct (rows_of col_key k rows); reflexivity. Qed.

Lemma build_fkMap_default rows k :
  default [] (build_fkMap rows !! k) = List.map edge_of_row (rows_of fk_key k rows).
Proof. rewrite build_fkMap_lookup. destruct (rows_of fk_key k rows); reflexivity. Qed.

(** X13. The columns of a catalog entry are the column rows filed under the
    relation's qualified name, in the order the database returned them, and
    a column is flagged as primary key exactly when some primary-key row of
    that relation names it. *)
Theorem table_of_columns (pkRows fkRows columns : list (list (list N * json))) (qn : str) :
  let t := table_of (build_pkMap pkRows) (build_fkMap fkRows) (build_colMap columns) qn in
  t_name t = qn /\
  List.map c_name (t_columns t) =
    List.map (fun r => field r (lit "COLUMN_NAME")) (rows_of col_key qn columns) /\
  forall c, In c (t_columns t) ->
    (c_pk c = true <->
     exists r, In r pkRows /\ pk_key r = qn /\ field r (lit "column_name") = c_name c).
Proof.
  cbn zeta. unfold table_of. cbn [t_name t_columns]. split; [reflexivity|].
  rewrite build_colMap_default. split.
  - rewrite !List.map_map. reflexivity.
  - intros c Hc. apply List.in_map_iff in Hc as (c0 & <- & _). cbn [c_pk c_name].
    rewrite build_pkMap_has. rewrite existsb_exists. split.
    + intros (r & Hr & He). apply List.filter_In in Hr as [Hr Hk].
      apply bool_decide_eq_true_1 in Hk. apply json_eqb_eq in He. eauto.
    + intros (r & Hr & Hk & He). exists r. split.
      * apply List.filter_In. split; [exact Hr|]. apply bool_decide_eq_true_2. exact Hk.
      * apply json_eqb_eq. congruence.
Qed.

Lemma includes_app sub pre post : includes sub (pre ++ sub ++ post) = true.
Proof.
  assert (Hp : forall s, is_prefix sub (sub ++ s) = true).
  { induction sub as [|c sub IH]; intros s; simpl; [reflexivity|].
    rewrite N.eqb_refl. apply IH. }
  induction pre as [|c pre IH]; cbn [app].
  - destruct (sub ++ post) eqn:E; simpl; rewrite <- E, Hp; reflexivity.
  - simpl. rewrite IH. apply orb_true_r.
Qed.

(** X14. The foreign keys of a catalog entry are the edges of the
    foreign-key rows whose parent is that relation, in order; every such
    edge names its referenced table with a schema, so [getSampleJoins] never
    falls back to the [SalesLT] schema there, and the sample joins are those
    of the first two edges. *)
Theorem table_of_fks (pkMap : gmap (list N) (list json))
    (colMap : gmap (list N) (list column)) (fkRows : list (list (list N * json))) (qn : str) :
  let t := table_of pkMap (build_fkMap fkRows) colMap qn in
  t_fks t = List.map edge_of_row (rows_of fk_key qn fkRows) /\
  (forall fk, In fk (t_fks t) -> refTableWithSchema fk = fk_ref_table fk) /\
  t_sample_joins t = List.map (sample_join qn) (firstn 2 (t_fks t)).
Proof.
  cbn zeta. unfold table_of. cbn [t_fks t_sample_joins].
  rewrite build_fkMap_default. split; [reflexivity|]. split.
  - intros fk Hfk. apply List.in_map_iff in Hfk as (r & <- & _).
    unfold refTableWithSchema, edge_of_row. cbn [fk_ref_table].
    rewrite includes_app. reflexivity.
  - rewrite build_fkMap_lookup.
    destruct (rows_of fk_key qn fkRows) as [|r hits]; reflexivity.
Qed.

(** X15. Whatever the edge, the table [getSampleJoins] joins with is named
    with a schema: a referenced table that holds a dot is used as it is,
    and any other is prefixed with [SalesLT.]. *)
Theorem refTableWithSchema_qualified (fk : fk_edge) :
  includes (lit ".") (refTableWithSchema fk) = true /\
  (includes (lit ".") (fk_ref_table fk) = true -> refTableWithSchema fk = fk_ref_table fk) /\
  (includes (lit ".") (fk_ref_table fk) = false ->
   refTableWithSchema fk = lit "SalesLT." ++ fk_ref_table fk).
Proof.
  unfold refTableWithSchema.
  destruct (includes (lit ".") (fk_ref_table fk)) eqn:E.
  - split; [exact E|]. split; [reflexivity|discriminate].
  - split; [|split; [discriminate|reflexivity]].
    change (lit "SalesLT." ++ fk_ref_table fk)
      with (lit "SalesLT" ++ lit "." ++ fk_ref_table fk).
    apply includes_app.
Qed.

Lemma refTableWithSchema_qualified_witness :
  includes (lit ".") (fk_ref_table (FkEdge JNull (lit "Customer") JNull)) = false /\
  refTableWithSchema (FkEdge JNull (lit "Customer") JNull) = lit "SalesLT.Customer".
Proof.
  split; [reflexivity|].
  exact (proj2 (proj2 (refTableWithSchema_qualified (FkEdge JNull (lit "Customer") JNull)))
           eq_refl).
Defined.

(** ** The queries of the schema handler *)





Lemma nat_to_string_inj i j : nat_to_string i = nat_to_string j -> i = j.
Proof.
  unfold nat_to_string. intros E. apply (f_equal parseInt) in E.
  rewrite !parseInt_int_to_string in E. injection E as E. lia.
Qed.

Lemma NoDup_indexed (f : nat -> str) (l : list nat) :
  (forall i j, f i = f j -> i = j) -> List.NoDup l -> List.NoDup (List.map f l).
Proof.
  intros Hf Hl. induction Hl as [|a l Ha Hl IH]; simpl; constructor; [|exact IH].
  intros H. apply List.in_map_iff in H as (i & E & Hi). apply Hf in E. subst i. tauto.
Qed.

Lemma NoDup_indexed_pairs (f g : nat -> str) (l : list nat) :
  (forall i j, f i = f j -> i = j) -> (forall i j, g i = g j -> i = j) ->
  (forall i j, f i <> g j) -> List.NoDup l ->
  List.NoDup (List.concat (List.map (fun i => [f i; g i]) l)).
Proof.
  intros Hf Hg Hfg Hl.
  assert (Hin : forall l x, In x (List.concat (List.map (fun i => [f i; g i]) l)) ->
                  exists i, In i l /\ (x = f i \/ x = g i)).
  { clear. intros l x H. apply List.in_concat in H as (ys & Hys & Hx).
    apply List.in_map_iff in Hys as (i & <- & Hi). exists i. split; [exact Hi|].
    destruct Hx as [<-|[<-|[]]]; auto. }
  induction Hl as [|a l Ha Hl IH]; simpl; [constructor|].
  constructor; [|constructor; [|exact IH]].
  - intros [H|H]; [exact (Hfg a a (eq_sym H))|].
    apply Hin in H as (i & Hi & [E|E]); [apply Hf in E; subst i; tauto|exact (Hfg _ _ E)].
  - intros H. apply Hin in H as (i & Hi & [E|E]);
      [exact (Hfg _ _ (eq_sym E))|apply Hg in E; subst i; tauto].
Qed.

Lemma names_imap_pairs {A} (F : nat -> A -> list (str * sqltype * json))
    (f g : nat -> str) (l : list A) :
  (forall i x, List.map (fun x => fst (fst x)) (F i x) = [f i; g i]) ->
  List.map (fun x => fst (fst x)) (List.concat (imap F l)) =
  List.concat (List.map (fun i => [f i; g i]) (seq 0 (length l))).
Proof.
  intros HF. rewrite List.concat_map. f_equal.
  change (List.map (List.map (fun x => fst (fst x))) (imap F l))
    with (List.map (fun x : str * sqltype * json => fst (fst x)) <$> imap F l).
  rewrite fmap_imap.
  rewrite (imap_ext _ (fun i _ => [f i; g i])) by (intros; apply HF).
  apply imap_seq_0.
Qed.

Lemma prefixed_inj (pre : str) i j :
  pre ++ nat_to_string i = pre ++ nat_to_string j -> i = j.
Proof. intros E. apply app_inv_head in E. apply nat_to_string_inj. exact E. Qed.

Lemma length_concat_imap_pairs {A B} (F : nat -> A -> list B) (l : list A) :
  (forall i x, length (F i x) = 2%nat) ->
  length (List.concat (imap F l)) = (2 * length l)%nat.
Proof.
  revert F. induction l as [|x l IH]; intros F HF; [reflexivity|].
  cbn [imap List.concat]. rewrite List.length_app, HF, IH by (intros; apply HF).
  simpl. lia.
Qed.

Lemma split_inputs_names (p : string) qnames :
  List.NoDup (List.map (fun x => fst (fst x)) (split_inputs p qnames)) /\
  length (split_inputs p qnames) = (2 * length qnames)%nat.
Proof.
  split.
  - unfold split_inputs.
    rewrite (names_imap_pairs _ (fun i => lit p ++ lit "s" ++ nat_to_string i)
               (fun i => lit p ++ lit "n" ++ nat_to_string i)) by reflexivity.
    apply NoDup_indexed_pairs; [| | |apply List.seq_NoDup].
    + intros i j E. apply app_inv_head in E. exact (prefixed_inj _ _ _ E).
    + intros i j E. apply app_inv_head in E. exact (prefixed_inj _ _ _ E).
    + intros i j E. apply app_inv_head in E. discriminate E.
  - apply length_concat_imap_pairs. reflexivity.
Qed.

Section QueryInputs.

Variable toLowerCase : str -> str.
Variable env : environment.

(** X17. Within each query of the schema handler every input has a name
    of its own, so no input replaces another: one input per relation for
    the columns, two per relation for the primary and the foreign keys, two
    per entry of the allow-list, one per excluded schema. *)
Theorem query_inputs_distinct (qnames allow : list str) :
  (List.NoDup (input_names (columns_query qnames)) /\
   length (q_inputs (columns_query qnames)) = length qnames) /\
  (List.NoDup (input_names (pk_query qnames)) /\
   length (q_inputs (pk_query qnames)) = (2 * length qnames)%nat) /\
  (List.NoDup (input_names (fk_query qnames)) /\
   length (q_inputs (fk_query qnames)) = (2 * length qnames)%nat) /\
  (List.NoDup (input_names (tables_query allow)) /\
   length (q_inputs (tables_query allow)) = (2 * length allow)%nat) /\
  (List.NoDup (input_names (catalog_query toLowerCase env)) /\
   length (q_inputs (catalog_query toLowerCase env)) = length (EXCLUDE_SCHEMAS env)).
Proof.
  assert (Hone : forall (pre : str) (l : list str) (F : nat -> str -> str * sqltype * json),
            (forall i x, fst (fst (F i x)) = pre ++ nat_to_string i) ->
            List.NoDup (List.map (fun x => fst (fst x)) (imap F l)) /\
            length (imap F l) = length l).
  { intros pre l F HF. split; [|apply length_imap].
    change (List.map (fun x => fst (fst x)) (imap F l))
      with ((fun x : str * sqltype * json => fst (fst x)) <$> imap F l).
    rewrite fmap_imap.
    rewrite (imap_ext _ (fun i _ => pre ++ nat_to_string i)) by (intros; apply HF).
    rewrite imap_seq_0. apply NoDup_indexed; [apply prefixed_inj|apply List.seq_NoDup]. }
  split; [|split; [|split; [|split]]].
  - apply (Hone (lit "q")). reflexivity.
  - apply split_inputs_names.
  - apply split_inputs_names.
  - unfold input_names, tables_query. cbn [q_inputs]. split.
    + rewrite (names_imap_pairs _ (fun i => lit "s" ++ nat_to_string i)
                 (fun i => lit "n" ++ nat_to_string i)) by reflexivity.
      apply NoDup_indexed_pairs; [| | |apply List.seq_NoDup].
      * apply prefixed_inj.
      * apply prefixed_inj.
      * intros i j E. discriminate E.
    + apply length_concat_imap_pairs. reflexivity.
  - apply (Hone (lit "xs")). reflexivity.
Qed.

End QueryInputs.

(** ** Runs of the schema handler *)








Section SchemaRuns.

Variable toLowerCase : str -> str.
Variable TypeError : string -> receiver -> str.
Variable inherited : str -> bool.
Variable now : str.
Variable env : environment.






(** The rest of the [try] block, once the mode is known and the pool is
    connected. *)
Lemma sql_schema_try_connected db req mode :
  effective_mode toLowerCase TypeError env req = Ok mode ->
  sql_schema_try toLowerCase TypeError inherited now env (Ok db) req [] =
  bind (resolve_objects toLowerCase TypeError env db mode (body_tables req))
    (fun resolved =>
       let '(objects, usingCatalogFallback) := resolved in
       if (length objects =? 0)%nat then
         ret (Response 200
                (CatalogBody (Catalog [] getCommonQueryTemplates now (note_mode env mode))))
       else
         let qnames := List.map qname objects in
         let! columns := run_query db (columns_query qnames) in
         let! pkRows := run_query db (pk_query qnames) in
         let! fkRows := run_query db (fk_query qnames) in
         let! _ := filed TypeError inherited "add" pk_key pkRows in
         let! _ := filed TypeError inherited "push" fk_key fkRows in
         let! _ := filed TypeError inherited "push" col_key columns in
         ret (Response 200
                (CatalogBody
                   (Catalog (List.map (table_of (build_pkMap pkRows) (build_fkMap fkRows)
                                         (build_colMap columns)) qnames)
                      getCommonQueryTemplates now
                      (if usingCatalogFallback then note_fallback toLowerCase env
                       else note_mode env mode))))) [].
Proof.
  intros Hmode. unfold sql_schema_try. rewrite Hmode.
  rewrite (bind_Ok _ _ [] mode []) by reflexivity.
  rewrite (bind_Ok _ _ [] db []) by reflexivity.
  reflexivity.
Qed.










(** X20. In mode [views] the allow-list is never read and its query never
    issued, and in mode [tables] the view whitelist query is never issued:
    the queries of the resolution are the mode's own query, the catalog
    fallback, or the one followed by the other; but that in mode [tables]
    an allow-list with an entry that is no text ends the resolution with the
    [TypeError] before any query. *)
Theorem resolve_objects_single_mode (db : query -> result (list (list (list N * json))))
    (clientFilter : option (list json)) :
  (forall r log,
     resolve_objects toLowerCase TypeError env db (lit "views") clientFilter [] = (r, log) ->
     log = [views_query env] \/
     log = [views_query env; catalog_query toLowerCase env]) /\
  (forall r log,
     resolve_objects toLowerCase TypeError env db (lit "tables") clientFilter [] = (r, log) ->
     (log = [] /\ exists e, r = Throw e /\
        allow_texts TypeError (allow_list env clientFilter) = Throw e) \/
     log = [catalog_query toLowerCase env] \/
     (exists allow, allow_texts TypeError (allow_list env clientFilter) = Ok allow /\
        (log = [tables_query allow] \/
         log = [tables_query allow; catalog_query toLowerCase env]))).
Proof.
  assert (Hv : is_mode (lit "views") "views" = true /\ is_mode (lit "views") "both" = false /\
               is_mode (lit "views") "tables" = false) by (vm_compute; auto).
  assert (Ht : is_mode (lit "tables") "views" = false /\ is_mode (lit "tables") "both" = false /\
               is_mode (lit "tables") "tables" = true) by (vm_compute; auto).
  destruct Hv as (Hv1 & Hv2 & Hv3), Ht as (Ht1 & Ht2 & Ht3).
  unfold resolve_objects. rewrite Hv1, Hv2, Hv3, Ht1, Ht2, Ht3. cbn [orb andb].
  split; intros r log; unfold bind, run_query, ret; cbn [app].
  - repeat match goal with
    | |- context [db ?q] => destruct (db q) as [?rows|?e] eqn:?; cbn [app]
    end;
    cbn [length Nat.eqb];
    try match goal with
    | |- context [(length ?X =? 0)%nat] => destruct (length X =? 0)%nat
    end;
    intros [= <- <-]; auto.
  - destruct (has_allow_list env clientFilter); cbn [app].
    + destruct (allow_texts TypeError (allow_list env clientFilter)) as [allow|e] eqn:Ea;
        cbn [lift ret throw].
      * repeat match goal with
        | |- context [db ?q] => destruct (db q) as [?rows|?e] eqn:?; cbn [app]
        end;
        cbn [length Nat.eqb];
        try match goal with
        | |- context [(length ?X =? 0)%nat] => destruct (length X =? 0)%nat
        end;
        intros [= <- <-]; right; right; exists allow; auto.
      * intros [= <- <-]. left. split; [reflexivity|]. exists e. auto.
    + repeat match goal with
      | |- context [db ?q] => destruct (db q) as [?rows|?e] eqn:?; cbn [app]
      end;
      cbn [length Nat.eqb]; intros [= <- <-]; auto.
Qed.

Lemma resolve_objects_log (db : query -> result (list (list (list N * json))))
    (mode : str) (clientFilter : option (list json)) r log :
  resolve_objects toLowerCase TypeError env db mode clientFilter [] = (r, log) ->
  (length log <= 3)%nat.
Proof.
  unfold resolve_objects.
  destruct (is_mode mode "views" || is_mode mode "both"),
    ((is_mode mode "tables" || is_mode mode "both") && has_allow_list env clientFilter),
    (is_mode mode "tables" || is_mode mode "both" || is_mode mode "views");
    cbn [andb]; unfold bind, run_query, ret; cbn [app];
    try (destruct (allow_texts TypeError (allow_list env clientFilter)) as [?allow|?e];
         cbn [lift ret throw]);
    repeat match goal with
    | |- context [db ?q] => destruct (db q) as [?rows|?e] eqn:?; cbn [app]
    end;
    try match goal with
    | |- context [(length ?X =? 0)%nat] => destruct (length X =? 0)%nat
    end;
    intros [= <- <-]; simpl; lia.
Qed.

(** X21. A catalog with relations is answered after exactly three more
    queries, for the columns, the primary keys and the foreign keys of the
    relations it lists, in this order, following the at most three queries
    of the resolution; an empty catalog is answered without them. *)
Theorem sql_schema_handler_queries
    (getPool : result (query -> result (list (list (list N * json)))))
    (req : schema_request) (c : catalog) (log : list query) :
  sql_schema_handler toLowerCase TypeError inherited now env getPool req =
    (Response 200 (CatalogBody c), log) ->
  (tables c = [] /\ (length log <= 3)%nat) \/
  (tables c <> [] /\
   exists log0, (length log0 <= 3)%nat /\
     log = log0 ++ [ columns_query (List.map t_name (tables c));
                     pk_query (List.map t_name (tables c));
                     fk_query (List.map t_name (tables c)) ]).
Proof.
  unfold sql_schema_handler.
  destruct (effective_mode toLowerCase TypeError env req) as [mode|e] eqn:Hmode.
  2:{ unfold sql_schema_try. rewrite Hmode. cbn. discriminate. }
  destruct getPool as [db|e].
  2:{ unfold sql_schema_try. rewrite Hmode. cbn. discriminate. }
  rewrite (sql_schema_try_connected db req mode Hmode).
  destruct (run_cases (resolve_objects toLowerCase TypeError env db mode (body_tables req)) [])
    as [([objects fallback] & log0 & Hres)|(msg & log0 & Hres)].
  2:{ rewrite (bind_Throw _ _ _ _ _ Hres). discriminate. }
  rewrite (bind_Ok _ _ _ _ _ Hres). apply resolve_objects_log in Hres.
  destruct (length objects =? 0)%nat eqn:Hlen.
  - intros [= <- <-]. left. split; [reflexivity|exact Hres].
  - unfold bind, run_query.
    destruct (db (columns_query _)) as [columns|?]; [|discriminate].
    destruct (db (pk_query _)) as [pkRows|?]; [|discriminate].
    destruct (db (fk_query _)) as [fkRows|?]; [|discriminate].
    unfold filed, throw, ret.
    destruct (filing_error TypeError inherited "add" pk_key pkRows); [discriminate|].
    destruct (filing_error TypeError inherited "push" fk_key fkRows); [discriminate|].
    destruct (filing_error TypeError inherited "push" col_key columns); [discriminate|].
    intros [= <- <-]. right. cbn [tables]. split.
    + destruct objects; [discriminate Hlen|discriminate].
    + exists log0. split; [exact Hres|].
      assert (E : List.map t_name
                    (List.map (table_of (build_pkMap pkRows) (build_fkMap fkRows)
                                 (build_colMap columns)) (List.map qname objects)) =
                  List.map qname objects).
      { rewrite List.map_map. rewrite <- (List.map_id (List.map qname objects)) at 2.
        apply List.map_ext. reflexivity. }
      rewrite E, <- !app_assoc. reflexivity.
Qed.

End SchemaRuns.



Lemma sql_schema_handler_queries_witness :
  sql_schema_handler lower_ascii example_TypeError example_inherited example_now example_env
    (Ok example_pool) example_request =
    (Response 200 (CatalogBody example_catalog), snd example_run) /\
  ((tables example_catalog = [] /\ (length (snd example_run) <= 3)%nat) \/
   (tables example_catalog <> [] /\
    exists log0, (length log0 <= 3)%nat /\
      snd example_run =
        log0 ++ [ columns_query (List.map t_name (tables example_catalog));
                  pk_query (List.map t_name (tables example_catalog));
                  fk_query (List.map t_name (tables example_catalog)) ])).
Proof.
  assert (H : sql_schema_handler lower_ascii example_TypeError example_inherited example_now
                example_env (Ok example_pool) example_request =
              (Response 200 (CatalogBody example_catalog), snd example_run))
    by (vm_compute; reflexivity).
  split; [exact H|].
  exact (sql_schema_handler_queries lower_ascii example_TypeError example_inherited
           example_now example_env (Ok example_pool) example_request _ _ H).
Defined.

(** ** The cached pool *)

Section PoolFacts.

Variable pool : Type.
Variable token : Type.

Lemma getPool_calls_settled (env : db_environment) (p : result pool)
    (ws : list (outcomes pool token)) :
  getPool_calls env ws (Some p) = (repeat p (length ws), Some p).
Proof.
  induction ws as [|w ws IH]; [reflexivity|].
  cbn [getPool_calls getPool length repeat]. rewrite IH. reflexivity.
Qed.

(** X22. Once a call of [getPool] has given a pool, every later call gives
    that same pool and leaves the cache as it is, whatever the credential
    or the server would answer by then: no second connection is made. *)
Theorem getPool_reuses (env : db_environment) (w : outcomes pool token)
    (poolPromise poolPromise' : option (result pool)) (p : pool)
    (ws : list (outcomes pool token)) :
  getPool env w poolPromise = (Ok p, poolPromise') ->
  poolPromise' = Some (Ok p) /\
  getPool_calls env ws poolPromise' = (repeat (Ok p) (length ws), poolPromise').
Proof.
  intros H.
  assert (E : poolPromise' = Some (Ok p)).
  { unfold getPool in H. destruct poolPromise as [q|].
    - injection H as -> <-. reflexivity.
    - destruct (development_connection env) as [cs|].
      + injection H as H <-. rewrite H. reflexivity.
      + destruct (credential_getToken w) as [tok|err]; [|discriminate].
        destruct (pool_connect w _) as [q|err]; [|discriminate].
        injection H as -> <-. reflexivity. }
  split; [exact E|]. rewrite E. apply getPool_calls_settled.
Qed.

(** X23. A first call of [getPool] that fails leaves the production cache
    empty, so that the next call connects again and can succeed; with a
    development connection string the failed promise stays cached, and
    every later call fails with the same error without connecting again. *)
Theorem getPool_failure (env : db_environment) (w : outcomes pool token)
    (poolPromise' : option (result pool)) (err : str) :
  getPool env w None = (Throw err, poolPromise') ->
  (development_connection env = None ->
   poolPromise' = None /\
   forall (w' : outcomes pool token) tok p, credential_getToken w' = Ok tok ->
     pool_connect w' (production_config env tok) = Ok p ->
     getPool env w' poolPromise' = (Ok p, Some (Ok p))) /\
  (development_connection env <> None ->
   poolPromise' = Some (Throw err) /\
   forall ws : list (outcomes pool token), getPool_calls env ws poolPromise' =
              (repeat (Throw err) (length ws), poolPromise')).
Proof.
  unfold getPool at 1. intros H. split.
  - intros Hd. rewrite Hd in H.
    assert (E : poolPromise' = None).
    { destruct (credential_getToken w) as [tok|e]; [|injection H as _ <-; reflexivity].
      destruct (pool_connect w _) as [q|e]; [discriminate|].
      injection H as _ <-. reflexivity. }
    split; [exact E|]. intros w' tok p Ht Hp. rewrite E. unfold getPool.
    rewrite Hd, Ht, Hp. reflexivity.
  - intros Hd. destruct (development_connection env) as [cs|]; [|congruence].
    injection H as H <-. rewrite H. split; [reflexivity|].
    intros ws. apply getPool_calls_settled.
Qed.

End PoolFacts.

Lemma getPool_reuses_witness :
  getPool (DbEnvironment None None None None)
    (Outcomes (fun _ => Throw (lit "no server")) (Ok tt)
       (fun _ : pool_config unit => Ok 7%nat)) None = (Ok 7%nat, Some (Ok 7%nat)) /\
  getPool_calls (DbEnvironment None None None None)
    [Outcomes (fun _ => Throw (lit "no server")) (Throw (lit "no token"))
       (fun _ : pool_config unit => Throw (lit "down"))] (Some (Ok 7%nat)) =
  ([Ok 7%nat], Some (Ok 7%nat)).
Proof.
  split; [reflexivity|].
  exact (proj2 (getPool_reuses nat unit (DbEnvironment None None None None)
                  (Outcomes (fun _ => Throw (lit "no server")) (Ok tt) (fun _ => Ok 7%nat))
                  None (Some (Ok 7%nat)) 7%nat
                  [Outcomes (fun _ => Throw (lit "no server")) (Throw (lit "no token"))
                     (fun _ => Throw (lit "down"))] eq_refl)).
Defined.

Lemma getPool_failure_witness :
  getPool (DbEnvironment None None (Some (lit "Server=localhost")) (Some (lit "development")))
    (Outcomes (fun _ => Throw (lit "refused")) (Ok tt)
       (fun _ : pool_config unit => Ok 7%nat)) None =
    (Throw (lit "refused"), Some (Throw (lit "refused"))) /\
  development_connection
    (DbEnvironment None None (Some (lit "Server=localhost")) (Some (lit "development")))
    <> None /\
  getPool_calls
    (DbEnvironment None None (Some (lit "Server=localhost")) (Some (lit "development")))
    [Outcomes (fun _ => Ok 7%nat) (Ok tt) (fun _ : pool_config unit => Ok 7%nat)]
    (Some (Throw (lit "refused"))) =
  ([Throw (lit "refused")], Some (Throw (lit "refused"))).
Proof.
  assert (Hd : development_connection
                 (DbEnvironment None None (Some (lit "Server=localhost"))
                    (Some (lit "development"))) <> None)
    by (vm_compute; discriminate).
  split; [reflexivity|]. split; [exact Hd|].
  exact (proj2 (proj2 (getPool_failure nat unit
                         (DbEnvironment None None (Some (lit "Server=localhost"))
                            (Some (lit "development")))
                         (Outcomes (fun _ => Throw (lit "refused")) (Ok tt)
                            (fun _ => Ok 7%nat))
                         (Some (Throw (lit "refused"))) (lit "refused") eq_refl) Hd)
           [Outcomes (fun _ => Ok 7%nat) (Ok tt) (fun _ => Ok 7%nat)]).
Defined.

(** ** What the validator is blind to *)

Lemma drop_spaces_app_spaces ws s :
  Forall (fun c => is_space c = true) ws -> drop_spaces (ws ++ s) = drop_spaces s.
Proof.
  induction 1 as [|c ws Hc _ IH]; [reflexivity|]. cbn [app drop_spaces]. rewrite Hc. exact IH.
Qed.

Lemma drop_spaces_all_spaces ws :
  Forall (fun c => is_space c = true) ws -> drop_spaces ws = [].
Proof.
  intros H. rewrite <- (app_nil_r ws). rewrite drop_spaces_app_spaces by exact H. reflexivity.
Qed.

Lemma drop_spaces_app_kept s t :
  drop_spaces s <> [] -> drop_spaces (s ++ t) = drop_spaces s ++ t.
Proof.
  induction s as [|c s IH]; simpl; [congruence|].
  destruct (is_space c); [exact IH|reflexivity].
Qed.

Lemma drop_spaces_nil_spaces s :
  drop_spaces s = [] -> Forall (fun c => is_space c = true) s.
Proof.
  induction s as [|c s IH]; simpl; [constructor|].
  destruct (is_space c) eqn:E; [|discriminate]. intros H. constructor; auto.
Qed.

Lemma Forall_spaces_rev (ws : str) :
  Forall (fun c => is_space c = true) ws -> Forall (fun c => is_space c = true) (rev ws).
Proof.
  intros H. apply List.Forall_forall. intros c Hc. apply in_rev in Hc.
  exact (proj1 (List.Forall_forall _ _) H c Hc).
Qed.

Lemma trim_margin ws1 ws2 s :
  Forall (fun c => is_space c = true) ws1 -> Forall (fun c => is_space c = true) ws2 ->
  trim (ws1 ++ s ++ ws2) = trim s.
Proof.
  intros H1 H2. unfold trim. rewrite drop_spaces_app_spaces by exact H1.
  destruct (drop_spaces s) as [|c t] eqn:E.
  - apply drop_spaces_nil_spaces in E.
    rewrite (drop_spaces_all_spaces (s ++ ws2)); [reflexivity|].
    apply Forall_app. split; assumption.
  - rewrite drop_spaces_app_kept by (rewrite E; discriminate). rewrite E.
    rewrite rev_app_distr. rewrite drop_spaces_app_spaces by (apply Forall_spaces_rev, H2).
    reflexivity.
Qed.

(** X25. Whitespace around the statement does not count: with any
    whitespace added in front of a text and behind it, [validateSelectOnly]
    gives the same verdict and the same statement. *)
Theorem validateSelectOnly_ignores_margin (ws1 ws2 sql : str) :
  Forall (fun c => is_space c = true) ws1 -> Forall (fun c => is_space c = true) ws2 ->
  validateSelectOnly (ws1 ++ sql ++ ws2) = validateSelectOnly sql.
Proof.
  intros H1 H2. unfold validateSelectOnly. rewrite (trim_margin ws1 ws2 sql H1 H2).
  reflexivity.
Qed.

Lemma validateSelectOnly_ignores_margin_witness :
  Forall (fun c => is_space c = true) [10; 9] /\
  Forall (fun c => is_space c = true) [32; 13; 10] /\
  validateSelectOnly ([10; 9] ++ lit "select 1" ++ [32; 13; 10]) =
    validateSelectOnly (lit "select 1").
Proof.
  assert (H1 : Forall (fun c => is_space c = true) [10; 9]) by (repeat constructor).
  assert (H2 : Forall (fun c => is_space c = true) [32; 13; 10]) by (repeat constructor).
  split; [exact H1|]. split; [exact H2|].
  exact (validateSelectOnly_ignores_margin [10; 9] [32; 13; 10] (lit "select 1") H1 H2).
Defined.

Lemma canon_idem c : canon (canon c) = canon c.
Proof.
  unfold canon. destruct (is_lower c) eqn:E; [|rewrite E; reflexivity].
  destruct (is_lower (c - 32)) eqn:E'; [|reflexivity]. exfalso. char_arith.
Qed.

Lemma is_space_canon c : is_space (canon c) = is_space c.
Proof.
  unfold canon. destruct (is_lower c) eqn:E; [|reflexivity].
  destruct (is_space c) eqn:E1; destruct (is_space (c - 32)) eqn:E2; try reflexivity;
    exfalso; char_arith.
Qed.

Lemma map_canon_idem s : List.map canon (List.map canon s) = List.map canon s.
Proof. rewrite List.map_map. apply List.map_ext. apply canon_idem. Qed.

Lemma drop_spaces_canon s : drop_spaces (List.map canon s) = List.map canon (drop_spaces s).
Proof.
  induction s as [|c s IH]; [reflexivity|]. cbn [List.map drop_spaces].
  rewrite is_space_canon. destruct (is_space c); [exact IH|reflexivity].
Qed.

Lemma trim_canon s : trim (List.map canon s) = List.map canon (trim s).
Proof.
  unfold trim. rewrite drop_spaces_canon, <- List.map_rev, drop_spaces_canon, <- List.map_rev.
  reflexivity.
Qed.

Lemma starts_with_word_canon s : starts_with_word (List.map canon s) = starts_with_word s.
Proof. destruct s as [|c s]; [reflexivity|]. apply is_word_canon. Qed.

Lemma ends_with_word_canon s : ends_with_word (List.map canon s) = ends_with_word s.
Proof. unfold ends_with_word. rewrite <- List.map_rev. apply starts_with_word_canon. Qed.

Lemma starts_with_select_ws_canon s :
  starts_with_select_ws (List.map canon s) <-> starts_with_select_ws s.
Proof.
  unfold starts_with_select_ws, ci_eq. split.
  - intros (w' & c' & rest' & E & Hw & Hc).
    apply List.map_eq_app in E as (w & t & -> & <- & E).
    apply List.map_eq_cons in E as (c & rest & -> & <- & <-).
    exists w, c, rest. rewrite map_canon_idem in Hw. rewrite is_space_canon in Hc. auto.
  - intros (w & c & rest & -> & Hw & Hc).
    exists (List.map canon w), (canon c), (List.map canon rest).
    rewrite List.map_app, map_canon_idem, is_space_canon. auto.
Qed.

Lemma occurs_in_canon (t s : str) :
  Forall (fun c => is_upper c = false /\ is_lower c = false) t ->
  occurs_in t (List.map canon s) <-> occurs_in t s.
Proof.
  intros Ht.
  assert (Hc : List.map canon t = t).
  { induction Ht as [|c t [_ Hl] _ IH]; [reflexivity|]. simpl. rewrite IH. unfold canon.
    rewrite Hl. reflexivity. }
  unfold occurs_in. split.
  - intros (pre' & post' & E).
    apply List.map_eq_app in E as (pre & r & -> & <- & E).
    apply List.map_eq_app in E as (w & post & -> & E & <-).
    exists pre, post. f_equal. f_equal. apply ci_eq_no_letters; [|exact Ht].
    unfold ci_eq. rewrite E, Hc. reflexivity.
  - intros (pre & post & ->). exists (List.map canon pre), (List.map canon post).
    rewrite !List.map_app, Hc. reflexivity.
Qed.

Lemma contains_banned_token_canon s :
  contains_banned_token (List.map canon s) <-> contains_banned_token s.
Proof.
  unfold contains_banned_token.
  assert (H1 : (exists kw w, In kw banned_keywords /\ ci_eq w kw /\
                  whole_word_in w (List.map canon s)) <->
               (exists kw w, In kw banned_keywords /\ ci_eq w kw /\ whole_word_in w s)).
  { unfold whole_word_in, ci_eq. split.
    - intros (kw & w' & Hin & Hci & pre' & post' & E & Hb & Ha).
      apply List.map_eq_app in E as (pre & r & -> & <- & E).
      apply List.map_eq_app in E as (w & post & -> & <- & <-).
      rewrite map_canon_idem in Hci. rewrite ends_with_word_canon in Hb.
      rewrite starts_with_word_canon in Ha.
      exists kw, w. split; [exact Hin|]. split; [exact Hci|]. exists pre, post. auto.
    - intros (kw & w & Hin & Hci & pre & post & -> & Hb & Ha).
      exists kw, (List.map canon w). split; [exact Hin|].
      split; [rewrite map_canon_idem; exact Hci|].
      exists (List.map canon pre), (List.map canon post).
      rewrite !List.map_app, ends_with_word_canon, starts_with_word_canon. auto. }
  assert (H2 : In 59 (List.map canon s) <-> In 59 s).
  { rewrite List.in_map_iff. split.
    - intros (c & E & Hc). apply canon_not_upper in E; [subst c; exact Hc|reflexivity].
    - intros Hc. exists 59. split; [reflexivity|exact Hc]. }
  assert (H3 : occurs_in (lit "--") (List.map canon s) <-> occurs_in (lit "--") s)
    by (apply occurs_in_canon; repeat constructor).
  assert (H4 : occurs_in (lit "/*") (List.map canon s) <-> occurs_in (lit "/*") s)
    by (apply occurs_in_canon; repeat constructor).
  tauto.
Qed.

(** X26. The validator is blind to the case of ASCII letters: a statement
    and its upper-cased form are both accepted or both rejected, with the
    same error, and the statement returned for the upper-cased form is the
    upper-cased statement. *)
Theorem validateSelectOnly_case_blind (sql : str) :
  validateSelectOnly (List.map canon sql) =
  match validateSelectOnly sql with
  | Ok s => Ok (List.map canon s)
  | Throw msg => Throw msg
  end.
Proof.
  unfold validateSelectOnly. rewrite trim_canon.
  assert (E1 : test true re_select_only (List.map canon (trim sql)) =
               test true re_select_only (trim sql)).
  { apply eq_true_iff_eq. rewrite !test_select_only_iff. apply starts_with_select_ws_canon. }
  assert (E2 : test true re_banned (List.map canon (trim sql)) =
               test true re_banned (trim sql)).
  { apply eq_true_iff_eq. rewrite !test_banned_iff. apply contains_banned_token_canon. }
  rewrite E1, E2.
  destruct (test true re_select_only (trim sql)); [|reflexivity].
  destruct (test true re_banned (trim sql)); reflexivity.
Qed.
